(** * vrypt-api: plugin registry, request guard pipeline and hot reload

    A shallow embedding of [src/liblary/loadPlugin.js] (class
    [PluginManager]) and of the hot-reload debounce of [app.js], followed by
    the properties the specification states about them.

    Conventions of the embedding.
    - JavaScript values are a small tagged union ([value]); a plugin
      descriptor, a request's query and body are such values, so that the
      duck-typed tests of the source ([!x], [typeof x], [x.length],
      [x === undefined]) are written as the source has them.
    - Numbers are the integers plus [NaN] and the two infinities: the code
      only subtracts and compares millisecond timestamps and divides one
      difference by 1000 before [Math.ceil]; the integers involved are far
      below 2^53, where doubles are exact.
    - A string holds the UTF-8 bytes of the JavaScript string. On a string
      of ASCII characters [length], indexing, case mapping and [<] are
      computed; on any other string they are those of the runtime
      ([Host]).
    - An object has its own properties and the members every ordinary
      object inherits from [Object.prototype]; two object values are never
      identical under [===] (every object literal is a fresh reference).
    - A method the source calls on a value ([toUpperCase], [startsWith],
      [includes], [localeCompare]) is the built-in one of strings and
      arrays, and a TypeError on a value that has none; an object that
      carries a function of its own under such a name is left out, and
      the statements that depend on it exclude it ([lacks_own]).
    - What the JavaScript runtime, Express or a plugin supplies (regular
      expressions, [Number] on strings, [localeCompare], the Unicode
      tables, the members of [Object.prototype], the compilation of a
      route path, the behaviour of [exec]) is a field of the class
      [Host]. *)

From Stdlib Require Import ZArith Lia Ascii Sorted OrderedTypeEx.
From stdpp Require Import gmap strings list fin_maps pretty.

#[local] Set Warnings "-clear-no-such-hyp".

(** ** Numbers and values *)

Inductive num :=
| NaN
| PosInf
| NegInf
| Int (z : Z).

#[warnings="-register-all"] Inductive value :=
| VUndefined
| VNull
| VBool (b : bool)
| VNum (n : num)
| VStr (s : string)
| VArray (items : list value)
| VObject (props : list (string * value))
| VFunction (fid : nat).

(** a - b *)
Definition num_sub (a b : num) : num :=
  match a, b with
  | NaN, _ | _, NaN => NaN
  | Int x, Int y => Int (x - y)
  | PosInf, PosInf | NegInf, NegInf => NaN
  | PosInf, _ | _, NegInf => PosInf
  | NegInf, _ | _, PosInf => NegInf
  end.

(** a < b ; every comparison with NaN is false *)
Definition num_lt (a b : num) : bool :=
  match a, b with
  | NaN, _ | _, NaN => false
  | Int x, Int y => bool_decide (x < y)%Z
  | NegInf, NegInf | PosInf, _ | _, NegInf => false
  | NegInf, _ | _, PosInf => true
  end.

(** a >= b *)
Definition num_ge (a b : num) : bool :=
  match a, b with
  | NaN, _ | _, NaN => false
  | _, _ => negb (num_lt a b)
  end.

(** Math.min of two numbers *)
Definition num_min (a b : num) : num :=
  match a, b with
  | NaN, _ | _, NaN => NaN
  | _, _ => if num_lt b a then b else a
  end.

(** Math.ceil(z / 1000) on an integer z *)
Definition ceil_div1000 (z : Z) : Z := (- ((- z) / 1000))%Z.

(** Math.ceil(a / 1000) *)
Definition num_ceil_div1000 (a : num) : num :=
  match a with
  | Int z => Int (ceil_div1000 z)
  | other => other
  end.

Arguments num_sub : simpl never.
Arguments num_lt : simpl never.
Arguments num_ge : simpl never.
Arguments num_min : simpl never.
Arguments num_ceil_div1000 : simpl never.

(** isNaN *)
Definition num_isNaN (a : num) : bool :=
  match a with NaN => true | _ => false end.

(** ** Errors *)

Inductive exn :=
| TypeError
| SyntaxError
| Error (msg : string).

Inductive result (A : Type) :=
| Ok (a : A)
| Throw (e : exn).
Arguments Ok {A} a.
Arguments Throw {A} e.

#[global] Instance result_ret : MRet result := λ A a, Ok a.
#[global] Instance result_bind : MBind result := λ A B f r,
  match r with
  | Ok a => f a
  | Throw e => Throw e
  end.

(** ** Strings *)

Definition ascii_upper (c : ascii) : ascii :=
  let n := nat_of_ascii c in
  if (97 <=? n)%nat && (n <=? 122)%nat then ascii_of_nat (n - 32) else c.

Definition ascii_lower (c : ascii) : ascii :=
  let n := nat_of_ascii c in
  if (65 <=? n)%nat && (n <=? 90)%nat then ascii_of_nat (n + 32) else c.

(** The string holds ASCII characters only. *)
Fixpoint is_ascii (s : string) : bool :=
  match s with
  | EmptyString => true
  | String c r => (nat_of_ascii c <? 128)%nat && is_ascii r
  end.

(** s.toUpperCase() on a string of ASCII characters *)
Fixpoint ascii_toUpperCase (s : string) : string :=
  match s with
  | EmptyString => EmptyString
  | String c r => String (ascii_upper c) (ascii_toUpperCase r)
  end.

(** s.toLowerCase() on a string of ASCII characters *)
Fixpoint ascii_toLowerCase (s : string) : string :=
  match s with
  | EmptyString => EmptyString
  | String c r => String (ascii_lower c) (ascii_toLowerCase r)
  end.

(** s.startsWith(p) *)
Fixpoint startsWith (s p : string) {struct p} : bool :=
  match p with
  | EmptyString => true
  | String a p' =>
      match s with
      | EmptyString => false
      | String b s' => Ascii.eqb a b && startsWith s' p'
      end
  end.

Arguments startsWith : simpl never.

(** s.endsWith(p) *)
Definition endsWith (s p : string) : bool :=
  bool_decide (String.length p ≤ String.length s) &&
  String.eqb (String.substring (String.length s - String.length p) (String.length p) s) p.

(** s.split(sep) for a one-character separator: never empty *)
Fixpoint split (sep : ascii) (s : string) : list string :=
  match s with
  | EmptyString => [EmptyString]
  | String c r =>
      if Ascii.eqb c sep then EmptyString :: split sep r
      else match split sep r with
           | [] => [String c EmptyString]
           | w :: ws => String c w :: ws
           end
  end.

(** s.includes(t) *)
Definition str_includes (s t : string) : bool :=
  match String.index 0 t s with Some _ => true | None => false end.

(** file.replace(/\.js$/, "") *)
Definition strip_js (file : string) : string :=
  if endsWith file ".js" then String.substring 0 (String.length file - 3) file else file.

(** ** Dynamic operations on values *)

(** ToBoolean *)
Definition truthy (v : value) : bool :=
  match v with
  | VUndefined | VNull => false
  | VBool b => b
  | VNum NaN => false
  | VNum (Int z) => negb (bool_decide (z = 0%Z))
  | VNum _ => true
  | VStr s => negb (String.eqb s "")
  | VArray _ | VObject _ | VFunction _ => true
  end.

Definition typeof (v : value) : string :=
  match v with
  | VUndefined => "undefined"
  | VNull | VArray _ | VObject _ => "object"
  | VBool _ => "boolean"
  | VNum _ => "number"
  | VStr _ => "string"
  | VFunction _ => "function"
  end.

(** a || b *)
Definition js_or (a b : value) : value := if truthy a then a else b.

(** a === b on numbers *)
Definition num_strict_eq (a b : num) : bool :=
  match a, b with
  | Int x, Int y => bool_decide (x = y)
  | PosInf, PosInf | NegInf, NegInf => true
  | _, _ => false
  end.

(** a === b ; objects, arrays and functions are compared by reference and
    two values of the model never share one *)
Definition strict_eq (a b : value) : bool :=
  match a, b with
  | VUndefined, VUndefined | VNull, VNull => true
  | VBool x, VBool y => bool_decide (x = y)
  | VNum x, VNum y => num_strict_eq x y
  | VStr x, VStr y => String.eqb x y
  | _, _ => false
  end.

(** SameValueZero, the comparison of Array.prototype.includes *)
Definition same_value_zero (a b : value) : bool :=
  match a, b with
  | VNum NaN, VNum NaN => true
  | _, _ => strict_eq a b
  end.

(** own property of an object literal *)
Fixpoint assoc (k : string) (props : list (string * value)) : value :=
  match props with
  | [] => VUndefined
  | (k', v) :: rest => if String.eqb k' k then v else assoc k rest
  end.

(** Object.hasOwn(o, k) on an object literal *)
Fixpoint has_own (k : string) (props : list (string * value)) : bool :=
  match props with
  | [] => false
  | (k', _) :: rest => String.eqb k' k || has_own k rest
  end.

(** The names of the members of [Object.prototype]. *)
(** The value carries no member [k] of its own: for an object whose
    member [k] is a function of its own, [v.k(...)] calls that function,
    which the calls of [toUpperCase], [startsWith] and [localeCompare]
    below leave out. *)
Definition lacks_own (v : value) (k : string) : Prop :=
  match v with
  | VObject props => has_own k props = false
  | _ => True
  end.

Definition object_prototype : list string :=
  [ "constructor"; "hasOwnProperty"; "isPrototypeOf"; "propertyIsEnumerable";
    "toLocaleString"; "toString"; "valueOf"; "__proto__";
    "__defineGetter__"; "__defineSetter__"; "__lookupGetter__"; "__lookupSetter__" ].

(** k in Object.prototype *)
Definition is_inherited (k : string) : bool :=
  existsb (String.eqb k) object_prototype.

Arguments is_inherited !k /.

(** items[k] for a canonical index k, starting the count at i *)
Fixpoint array_index (i : nat) (k : string) (items : list value) : value :=
  match items with
  | [] => VUndefined
  | x :: rest => if String.eqb (pretty i) k then x else array_index (S i) k rest
  end.

(** "c" at a canonical index k of a string *)
Fixpoint string_index (i : nat) (k : string) (s : string) : value :=
  match s with
  | EmptyString => VUndefined
  | String c rest =>
      if String.eqb (pretty i) k then VStr (String c EmptyString)
      else string_index (S i) k rest
  end.

(** ** Requests, responses and the host *)

(** What the handler reads of an Express request: [req.headers.authorization]
    (absent or a string), [req.query], [req.body] and [req.ip]. *)
Record request := {
  req_authorization : option string;
  req_query : value;
  req_body : value;
  req_ip : value
}.

(** How [Promise.race([plugin.exec(req, res, next), timeoutPromise])] ends.
    [ExecReplied]: [exec] sends a response and returns or resolves.
    [ExecSilent]: it returns or resolves without a response.
    [ExecFailed]: it throws, rejects or is timed out, with a value other
    than [null] and [undefined], after having sent a status or not.
    [ExecThrewNullish]: it throws or rejects with [null] or [undefined],
    after having sent a status or not. *)
Inductive exec_outcome :=
| ExecReplied (status : Z)
| ExecSilent
| ExecFailed (sent : option Z)
| ExecThrewNullish (sent : option Z).

(** What the JavaScript runtime and the plugins supply. *)
Class Host := {
  (** Number(s) on a string *)
  string_to_number : string → num;
  (** ToPrimitive(o) on an array, an object or a function: a primitive
      value, as a rule the string o.toString() *)
  object_to_primitive : value → value;
  (** String(n) on a number *)
  number_to_string : num → string;
  (** f.length of a function *)
  function_length : nat → Z;
  (** f.name of a function *)
  function_name : nat → value;
  (** Object.prototype[k] for a name k of [object_prototype] *)
  object_member : string → value;
  (** s.toUpperCase() and s.toLowerCase() on a string that is not ASCII *)
  unicode_toUpperCase : string → string;
  unicode_toLowerCase : string → string;
  (** s.length of a string that is not ASCII: at least one code unit *)
  unicode_length : string → positive;
  (** s[k] on a string that is not ASCII *)
  unicode_index : string → string → value;
  (** a < b on two strings that are not both ASCII *)
  unicode_lt : string → string → bool;
  (** what [app.get(path, ...)] and its siblings throw when the router
      cannot compile the path (Express hands it to path-to-regexp); [None]
      when the router accepts it *)
  compile_path : string → option exn;
  (** new RegExp(pattern).test(s); None when the pattern does not compile *)
  regexp_test : string → string → option bool;
  (** a.localeCompare(b) *)
  localeCompare : string → string → Z;
  (** the plugin's exec on a request, raced against its timeout *)
  run_exec : nat → request → exec_outcome
}.

Section Model.
Context `{Host}.

(** s.toUpperCase() *)
Definition toUpperCase (s : string) : string :=
  if is_ascii s then ascii_toUpperCase s else unicode_toUpperCase s.

(** s.toLowerCase() *)
Definition toLowerCase (s : string) : string :=
  if is_ascii s then ascii_toLowerCase s else unicode_toLowerCase s.

(** s.length *)
Definition js_length (s : string) : Z :=
  if is_ascii s then Z.of_nat (String.length s) else Z.pos (unicode_length s).

(** o[k] for a name k that o does not hold itself *)
Definition inherited (k : string) : value :=
  if is_inherited k then object_member k else VUndefined.

(** o[k] on an object literal: a name that [Object.prototype] does not
    have is read from the object itself *)
Definition object_get (props : list (string * value)) (k : string) : value :=
  if is_inherited k then
    if has_own k props then assoc k props else object_member k
  else assoc k props.

(** v, or what is inherited under k when there is no v *)
Definition or_inherited (v : value) (k : string) : value :=
  match v with
  | VUndefined => inherited k
  | _ => v
  end.

Arguments inherited !k /.
Arguments object_get props !k /.
Arguments toUpperCase !s /.
Arguments toLowerCase !s /.

(** ToPrimitive(v) *)
Definition to_primitive (v : value) : value :=
  match v with
  | VArray _ | VObject _ | VFunction _ => object_to_primitive v
  | _ => v
  end.

(** Number(v) on a primitive value *)
Definition prim_to_number (v : value) : num :=
  match v with
  | VUndefined => NaN
  | VNull => Int 0
  | VBool b => Int (if b then 1 else 0)
  | VNum n => n
  | VStr s => string_to_number s
  | VArray _ | VObject _ | VFunction _ => NaN
  end.

(** Number(v) *)
Definition to_number (v : value) : num := prim_to_number (to_primitive v).

(** String(v), also the conversion of a template literal and of a property
    key *)
Definition to_string (v : value) : string :=
  match to_primitive v with
  | VUndefined => "undefined"
  | VNull => "null"
  | VBool b => if b then "true" else "false"
  | VNum n => number_to_string n
  | VStr s => s
  | VArray _ | VObject _ | VFunction _ => "[object Object]"
  end.

(** a < b : two strings are compared as strings, anything else as numbers *)
Definition js_lt (a b : value) : bool :=
  match to_primitive a, to_primitive b with
  | VStr x, VStr y =>
      if is_ascii x && is_ascii y then String.ltb x y else unicode_lt x y
  | pa, pb => num_lt (prim_to_number pa) (prim_to_number pb)
  end.

(** o[k] : a TypeError on undefined and null. A value holds its own
    members ([length] and the indices of a string and of an array, the
    properties of an object, [length] and [name] of a function) and
    inherits those of [Object.prototype]. The members of the other
    prototypes ([Array.prototype], [String.prototype] and so on) are left
    out: the source reads a member under a name of its own choice
    ([path], [method], [limit], ...), which none of them has, except in
    [source[name]] of [validateParameters], where the statements take the
    source to be an ordinary object. *)
Definition get_prop (o : value) (k : string) : result value :=
  match o with
  | VUndefined | VNull => Throw TypeError
  | VBool _ | VNum _ => Ok (inherited k)
  | VStr s =>
      Ok (if String.eqb k "length" then VNum (Int (js_length s))
          else or_inherited
                 (if is_ascii s then string_index 0 k s else unicode_index s k) k)
  | VArray items =>
      Ok (if String.eqb k "length" then VNum (Int (Z.of_nat (length items)))
          else or_inherited (array_index 0 k items) k)
  | VObject props => Ok (object_get props k)
  | VFunction fid =>
      Ok (if String.eqb k "length" then VNum (Int (function_length fid))
          else if String.eqb k "name" then function_name fid
          else inherited k)
  end.

(** o?.toUpperCase() : undefined on undefined and null, a TypeError when the
    value has no such method *)
Definition opt_toUpperCase (o : value) : result value :=
  match o with
  | VUndefined | VNull => Ok VUndefined
  | VStr s => Ok (VStr (toUpperCase s))
  | _ => Throw TypeError
  end.

(** ** Rate limiter *)

(** Math.min(...ts) *)
Definition oldest (ts : list Z) : num :=
  foldr (λ t acc, num_min (Int t) acc) PosInf ts.

Record rate_result := {
  allowed : bool;
  retryAfter : option num
}.

(** requests.filter(time => now - time < window) *)
Definition prune (now : Z) (window : value) (requests : list Z) : list Z :=
  List.filter (λ time, num_lt (Int (now - time)) (to_number window)) requests.

(** [this.rateLimitStore]: created empty on the first call, so that an
    absent store and an empty one are read alike. *)
Definition checkRateLimit (store : gmap string (list Z)) (now : Z)
    (req : request) (plugin : value) : result (rate_result * gmap string (list Z)) :=
  name ← get_prop plugin "name";
  let key := to_string (req_ip req) +:+ "-" +:+ to_string name in
  rateLimit ← get_prop plugin "rateLimit";
  limit ← get_prop rateLimit "limit";
  window ← get_prop rateLimit "window";
  let requests := default [] (store !! key) in
  let validRequests := prune now window requests in
  if num_ge (Int (Z.of_nat (length validRequests))) (to_number limit) then
    let oldestRequest := oldest validRequests in
    let retry :=
      num_ceil_div1000
        (num_sub (to_number window) (num_sub (Int now) oldestRequest)) in
    Ok ({| allowed := false; retryAfter := Some retry |}, store)
  else
    Ok ({| allowed := true; retryAfter := None |},
        <[key := validRequests ++ [now]]> store).

(** ** Authentication *)

Inductive auth_result :=
| AuthValid
| AuthInvalid (status : Z) (message : string).

(** [token] is [process.env.TOKEN]: absent or a string. *)
Definition validateAuthentication (token : option string) (req : request) : auth_result :=
  match req_authorization req with
  | None => AuthInvalid 401 "Authorization header is required"
  | Some authHeader =>
      if String.eqb authHeader "" then
        AuthInvalid 401 "Authorization header is required"
      else if negb (startsWith authHeader "Bearer ") then
        AuthInvalid 401 "Invalid authorization format. Use 'Bearer <token>'"
      else
        match split " " authHeader !! 1%nat with
        | None => AuthInvalid 401 "Token is required"
        | Some tok =>
            if String.eqb tok "" then AuthInvalid 401 "Token is required"
            else if bool_decide (Some tok = token) then AuthValid
            else AuthInvalid 403 "Invalid or expired token"
        end
  end.

(** ** Parameter validation *)

Definition email_pattern : string := "^[^\s@]+@[^\s@]+\.[^\s@]+$".
Definition url_pattern : string := "^https?:\/\/.+".

(** new RegExp(pattern).test(v) *)
Definition regexp_test_value (pattern : string) (v : value) : result bool :=
  match regexp_test pattern (to_string v) with
  | Some b => Ok b
  | None => Throw SyntaxError
  end.

(** The [switch (type)] compares with [===]. *)
Definition validateType (v : value) (type : value) : result bool :=
  if strict_eq type (VStr "string") then Ok (String.eqb (typeof v) "string")
  else if strict_eq type (VStr "number") then Ok (negb (num_isNaN (to_number v)))
  else if strict_eq type (VStr "boolean") then
    Ok (strict_eq v (VStr "true") || strict_eq v (VStr "false")
        || String.eqb (typeof v) "boolean")
  else if strict_eq type (VStr "email") then regexp_test_value email_pattern v
  else if strict_eq type (VStr "url") then regexp_test_value url_pattern v
  else Ok true.

(** One entry of [errors]; [message] is the text the source pushes. *)
Inductive violation :=
| Required (name : value)
| TypeMismatch (name type : value)
| TooShort (name min : value)
| TooLong (name max : value)
| BadFormat (name : value).

Definition message (e : violation) : string :=
  match e with
  | Required name => "Parameter '" +:+ to_string name +:+ "' is required"
  | TypeMismatch name type =>
      "Parameter '" +:+ to_string name +:+ "' must be of type " +:+ to_string type
  | TooShort name min =>
      "Parameter '" +:+ to_string name +:+ "' must be at least "
        +:+ to_string min +:+ " characters"
  | TooLong name max =>
      "Parameter '" +:+ to_string name +:+ "' must be at most "
        +:+ to_string max +:+ " characters"
  | BadFormat name => "Parameter '" +:+ to_string name +:+ "' format is invalid"
  end.

(** [if (type && !this.validateType(value, type)) errors.push(...)] *)
Definition check_type (v name type : value) (errors : list violation)
    : result (list violation) :=
  if truthy type then
    ok ← validateType v type;
    Ok (if (ok : bool) then errors else errors ++ [TypeMismatch name type])
  else Ok errors.

(** [if (min !== undefined && value.length < min) errors.push(...)] *)
Definition check_min (v name min : value) (errors : list violation)
    : result (list violation) :=
  if strict_eq min VUndefined then Ok errors
  else
    len ← get_prop v "length";
    Ok (if js_lt len min then errors ++ [TooShort name min] else errors).

(** [if (max !== undefined && value.length > max) errors.push(...)] *)
Definition check_max (v name max : value) (errors : list violation)
    : result (list violation) :=
  if strict_eq max VUndefined then Ok errors
  else
    len ← get_prop v "length";
    Ok (if js_lt max len then errors ++ [TooLong name max] else errors).

(** [if (pattern && !new RegExp(pattern).test(value)) errors.push(...)] *)
Definition check_pattern (v name pattern : value) (errors : list violation)
    : result (list violation) :=
  if truthy pattern then
    ok ← regexp_test_value (to_string pattern) v;
    Ok (if (ok : bool) then errors else errors ++ [BadFormat name])
  else Ok errors.

(** The branch [typeof param === "object"] of the callback: [errors] is the
    array so far, the result the array after the callback. *)
Definition check_object_param (source param : value) (errors : list violation)
    : result (list violation) :=
  name ← get_prop param "name";
  required0 ← get_prop param "required";
  let required := if strict_eq required0 VUndefined then VBool true else required0 in
  type ← get_prop param "type";
  min ← get_prop param "min";
  max ← get_prop param "max";
  pattern ← get_prop param "pattern";
  v ← get_prop source (to_string name);
  if truthy required && negb (truthy v) then Ok (errors ++ [Required name])
  else if strict_eq v VUndefined then Ok errors
  else
    e1 ← check_type v name type errors;
    e2 ← check_min v name min e1;
    e3 ← check_max v name max e2;
    check_pattern v name pattern e3.

(** The callback of [plugin.parameter.forEach]. *)
Definition check_param (source param : value) (errors : list violation)
    : result (list violation) :=
  match param with
  | VStr name =>
      v ← get_prop source name;
      Ok (if truthy v then errors else errors ++ [Required param])
  | VNull | VArray _ | VObject _ => check_object_param source param errors
  | _ => Ok errors
  end.

Fixpoint forEach_param (source : value) (params : list value)
    (errors : list violation) : result (list violation) :=
  match params with
  | [] => Ok errors
  | param :: rest =>
      errors' ← check_param source param errors;
      forEach_param source rest errors'
  end.

Record validation := {
  valid : bool;
  errors : list violation
}.

(** [plugin.method?.toUpperCase() === "GET" ? req.query : req.body] *)
Definition param_source (plugin : value) (req : request) : result value :=
  method ← get_prop plugin "method";
  upper ← opt_toUpperCase method;
  Ok (if strict_eq upper (VStr "GET") then req_query req else req_body req).

Definition validateParameters (plugin : value) (req : request) : result validation :=
  parameter ← get_prop plugin "parameter";
  if negb (truthy parameter) then Ok {| valid := true; errors := [] |}
  else
    len ← get_prop parameter "length";
    if strict_eq len (VNum (Int 0)) then Ok {| valid := true; errors := [] |}
    else
      source ← param_source plugin req;
      match parameter with
      | VArray params =>
          errs ← forEach_param source params [];
          Ok {| valid := bool_decide (length errs = 0%nat); errors := errs |}
      | _ => Throw TypeError
      end.

(** ** The request guard pipeline *)

Inductive stage :=
| SAuth
| SParams
| SRate
| SExec.

(** The JSON bodies; [timestamp] and the random [errorId] are left out. *)
Inductive body :=
| BError (error : string)
| BValidation (details : list violation)
| BRateLimited (retry : option num)
| BInternal
| BPlugin.

Record response := {
  status : Z;
  rbody : body
}.

(** What one run of the handler leaves: the response sent (if any), the
    rate-limit store, and which of [validateAuthentication],
    [validateParameters], [checkRateLimit] and [plugin.exec] it called, in
    the order of the calls. *)
Record handled := {
  sent : option response;
  store_after : gmap string (list Z);
  calls : list stage
}.

(** The [catch] block on a plugin that is an object: nothing has been
    sent when a guard throws. *)
Definition internal_error (store : gmap string (list Z)) (calls : list stage) : handled :=
  {| sent := Some {| status := 500; rbody := BInternal |};
     store_after := store; calls := calls |}.

(** The [catch] block throws itself, at [plugin.name] when the plugin is
    [null] or [undefined] and at [err.message] when that is what was
    thrown: the handler sends nothing. *)
Definition unanswered (store : gmap string (list Z)) (calls : list stage) : handled :=
  {| sent := None; store_after := store; calls := calls |}.

(** [await Promise.race([Promise.resolve(plugin.exec(req, res, next)),
    timeoutPromise])] and the [catch] block after it. *)
Definition exec_stage (plugin : value) (store : gmap string (list Z))
    (calls : list stage) (req : request) : handled :=
  match get_prop plugin "exec" with
  | Ok (VFunction fid) =>
      let reply :=
        match run_exec fid req with
        | ExecReplied st => Some {| status := st; rbody := BPlugin |}
        | ExecSilent => None
        | ExecFailed (Some st) => Some {| status := st; rbody := BPlugin |}
        | ExecFailed None => Some {| status := 500; rbody := BInternal |}
        | ExecThrewNullish (Some st) => Some {| status := st; rbody := BPlugin |}
        | ExecThrewNullish None => None
        end in
      {| sent := reply; store_after := store; calls := calls ++ [SExec] |}
  | _ => internal_error store calls
  end.

Definition rate_stage (plugin : value) (now : Z) (store : gmap string (list Z))
    (calls : list stage) (req : request) : handled :=
  match get_prop plugin "rateLimit" with
  | Throw _ => internal_error store calls
  | Ok rateLimit =>
      if truthy rateLimit then
        match checkRateLimit store now req plugin with
        | Throw _ => internal_error store (calls ++ [SRate])
        | Ok (r, store') =>
            if allowed r then exec_stage plugin store' (calls ++ [SRate]) req
            else {| sent := Some {| status := 429; rbody := BRateLimited (retryAfter r) |};
                    store_after := store'; calls := calls ++ [SRate] |}
        end
      else exec_stage plugin store calls req
  end.

Definition params_stage (plugin : value) (now : Z) (store : gmap string (list Z))
    (calls : list stage) (req : request) : handled :=
  match validateParameters plugin req with
  | Throw _ => internal_error store (calls ++ [SParams])
  | Ok validationResult =>
      if valid validationResult then
        rate_stage plugin now store (calls ++ [SParams]) req
      else {| sent := Some {| status := 400;
                              rbody := BValidation (errors validationResult) |};
              store_after := store; calls := calls ++ [SParams] |}
  end.

(** The handler [withValidation(plugin)] returns, run on one request at time
    [now] with [process.env.TOKEN = token]. *)
Definition withValidation (plugin : value) (token : option string) (now : Z)
    (store : gmap string (list Z)) (req : request) : handled :=
  match get_prop plugin "authentication" with
  | Throw _ => unanswered store []
  | Ok authentication =>
      if truthy authentication then
        match validateAuthentication token req with
        | AuthInvalid st msg =>
            {| sent := Some {| status := st; rbody := BError msg |};
               store_after := store; calls := [SAuth] |}
        | AuthValid => params_stage plugin now store [SAuth] req
        end
      else params_stage plugin now store [] req
  end.

(** ** The registry *)

(** An entry of [app._router.stack] as [unregisterPlugin] reads it:
    [layer.route] is absent on a middleware layer; a route has its path and
    the keys of its [methods] object. A host route whose path is not a
    string is never [===] to a plugin path and is read as a layer without
    route. The stack is the one of Express 4, where [app._router] exists
    from the first [app.use] or [app.get] on: the guard
    [if (app._router?.stack)] of [unregisterPlugin] is passed whenever a
    route has been recorded. *)
Record route := {
  route_path : string;
  route_methods : list string
}.

Record layer := {
  layer_route : option route
}.

(** The value of [this.routes]: [{ routePath, method }]. *)
Record route_entry := {
  routePath : string;
  method : string
}.

(** An element of [this.endpoints]. *)
Record endpoint := {
  ep_path : string;
  ep_name : value;
  ep_description : value;
  ep_authentication : bool;
  ep_method : string;
  ep_tags : value;
  ep_parameter : value;
  ep_version : value;
  ep_deprecated : bool;
  ep_rateLimit : value;
  ep_timeout : value
}.

(** The Express application's route stack and the [PluginManager]'s own
    fields. [this.middleware] only prefixes the handler chain inside a
    route and is left out. *)
Record state := {
  app_stack : list layer;
  endpoints : list endpoint;
  routes : gmap string route_entry;
  plugins : gmap string value
}.

(** [new PluginManager()] next to an application whose stack is [stack]. *)
Definition fresh (stack : list layer) : state :=
  {| app_stack := stack; endpoints := []; routes := ∅; plugins := ∅ |}.

Inductive manifest_error :=
| NotAnObject
| InvalidPath
| InvalidExec
| UnsupportedMethod (method : value)
| PathWithoutSlash.

Record manifest_validation := {
  mvalid : bool;
  merrors : list manifest_error
}.

Definition allowedMethods : list string := ["GET"; "POST"; "PUT"; "DELETE"; "PATCH"].

(** allowedMethods.includes(m) *)
Definition allowed_method (m : string) : bool :=
  existsb (String.eqb m) allowedMethods.

Arguments allowed_method : simpl never.

(** v.toUpperCase() : a TypeError unless v is a string *)
Definition call_toUpperCase (v : value) : result string :=
  match v with
  | VStr s => Ok (toUpperCase s)
  | _ => Throw TypeError
  end.

(** [if (routePath && !routePath.startsWith("/"))] : a truthy path that is
    not a string has no [startsWith] *)
Definition path_without_slash (routePath : value) : result bool :=
  if truthy routePath then
    match routePath with
    | VStr p => Ok (negb (startsWith p "/"))
    | _ => Throw TypeError
    end
  else Ok false.

Definition validatePlugin (plugin : value) (file : string) : result manifest_validation :=
  if negb (truthy plugin) || negb (String.eqb (typeof plugin) "object") then
    Ok {| mvalid := false; merrors := [NotAnObject] |}
  else
    routePath ← get_prop plugin "path";
    method0 ← get_prop plugin "method";
    let method := if strict_eq method0 VUndefined then VStr "GET" else method0 in
    exec ← get_prop plugin "exec";
    let e1 :=
      if negb (truthy routePath) || negb (String.eqb (typeof routePath) "string")
      then [InvalidPath] else [] in
    let e2 :=
      if negb (String.eqb (typeof exec) "function") then e1 ++ [InvalidExec] else e1 in
    upper ← call_toUpperCase method;
    let e3 :=
      if negb (allowed_method upper) then e2 ++ [UnsupportedMethod method] else e2 in
    noslash ← path_without_slash routePath;
    let e4 := if (noslash : bool) then e3 ++ [PathWithoutSlash] else e3 in
    Ok {| mvalid := bool_decide (length e4 = 0%nat); merrors := e4 |}.

(** [layer.route?.path === oldRoute.routePath &&
     layer.route?.methods[oldRoute.method.toLowerCase()]] *)
Definition layer_matches (p key : string) (l : layer) : bool :=
  match layer_route l with
  | None => false
  | Some r => String.eqb (route_path r) p && existsb (String.eqb key) (route_methods r)
  end.

Definition unregisterPlugin (s : state) (file : string) : state :=
  match routes s !! file with
  | None => s
  | Some oldRoute =>
      {| app_stack :=
           List.filter
             (λ l, negb (layer_matches (routePath oldRoute)
                                       (toLowerCase (method oldRoute)) l))
             (app_stack s);
         routes := delete file (routes s);
         plugins := delete file (plugins s);
         endpoints :=
           List.filter
             (λ e, negb (String.eqb (ep_path e) (routePath oldRoute)
                         && String.eqb (ep_method e) (method oldRoute)))
             (endpoints s) |}
  end.

(** [plugin.path] where the source uses it as a route path. [loadPlugin]
    gets there only with a plugin that [validatePlugin] accepted, whose
    path is a string; other values are outside the embedding and are given
    a TypeError. *)
Definition path_of (plugin : value) : result string :=
  p ← get_prop plugin "path";
  match p with
  | VStr routePath => Ok routePath
  | _ => Throw TypeError
  end.

(** [plugin.method?.toUpperCase() || "GET"] : a string whenever it is a
    value *)
Definition method_of (plugin : value) : result string :=
  m ← get_prop plugin "method";
  upper ← opt_toUpperCase m;
  Ok (match upper with
      | VStr u => if String.eqb u "" then "GET" else u
      | _ => "GET"
      end).

(** The route stack with one more layer, whose route answers the one
    verb at the path. *)
Definition mounted (stack : list layer) (key routePath : string) : list layer :=
  stack ++ [{| layer_route := Some {| route_path := routePath; route_methods := [key] |} |}].

(** [app.get(routePath, ...middlewareChain)] and its siblings: Express
    compiles the path and appends the layer, or throws when the path does
    not compile and leaves the stack as it was. *)
Definition mount (stack : list layer) (key routePath : string) : result (list layer) :=
  match compile_path routePath with
  | None => Ok (mounted stack key routePath)
  | Some e => Throw e
  end.

(** The [switch (method)] of [registerRoute]. *)
Definition verb_key (method : string) : result string :=
  if String.eqb method "GET" then Ok "get"
  else if String.eqb method "POST" then Ok "post"
  else if String.eqb method "PUT" then Ok "put"
  else if String.eqb method "DELETE" then Ok "delete"
  else if String.eqb method "PATCH" then Ok "patch"
  else Throw (Error ("Unsupported method: " +:+ method)).

Definition registerRoute (s : state) (plugin : value) (file : string) : result state :=
  method ← method_of plugin;
  routePath ← path_of plugin;
  key ← verb_key method;
  stack ← mount (app_stack s) key routePath;
  Ok {| app_stack := stack;
        routes := <[file := {| routePath := routePath; method := method |}]> (routes s);
        plugins := plugins s;
        endpoints := endpoints s |}.

Definition updateEndpointsRegistry (s : state) (plugin : value) (file : string)
    : result state :=
  path ← path_of plugin;
  name ← get_prop plugin "name";
  description ← get_prop plugin "description";
  authentication ← get_prop plugin "authentication";
  method ← method_of plugin;
  tags ← get_prop plugin "tags";
  parameter ← get_prop plugin "parameter";
  version ← get_prop plugin "version";
  deprecated ← get_prop plugin "deprecated";
  rateLimit ← get_prop plugin "rateLimit";
  timeout ← get_prop plugin "timeout";
  let endpoint :=
    {| ep_path := path;
       ep_name := js_or name (VStr (strip_js file));
       ep_description := js_or description (VStr "");
       ep_authentication := truthy authentication;
       ep_method := method;
       ep_tags := js_or tags (VArray []);
       ep_parameter := js_or parameter (VArray []);
       ep_version := js_or version (VStr "1.0.0");
       ep_deprecated := truthy deprecated;
       ep_rateLimit := js_or rateLimit VNull;
       ep_timeout := js_or timeout (VNum (Int 30000)) |} in
  Ok {| app_stack := app_stack s;
        routes := routes s;
        plugins := plugins s;
        endpoints := endpoints s ++ [endpoint] |}.

(** What [require] finds for a plugin file: [require.resolve] throws when
    the file is gone, the module body may throw, or the module exports a
    value. *)
Inductive source :=
| Unresolvable
| RequireFails
| Exports (plugin : value).

Inductive load_outcome :=
| Returned (ok : bool)
| Threw.

(** The state is the one reached when the function returns or throws: the
    [try] around the registration does not undo what was done before the
    throw. *)
Definition loadPlugin (s : state) (file : string) (src : source) : load_outcome * state :=
  match src with
  | Unresolvable => (Threw, s)
  | RequireFails => (Returned false, s)
  | Exports plugin =>
      match validatePlugin plugin file with
      | Throw _ => (Threw, s)
      | Ok validation =>
          if negb (mvalid validation) then (Returned false, s)
          else
            let s1 := unregisterPlugin s file in
            match registerRoute s1 plugin file with
            | Throw _ => (Returned false, s1)
            | Ok s2 =>
                let s3 :=
                  {| app_stack := app_stack s2; routes := routes s2;
                     plugins := <[file := plugin]> (plugins s2);
                     endpoints := endpoints s2 |} in
                match updateEndpointsRegistry s3 plugin file with
                | Throw _ => (Returned false, s3)
                | Ok s4 => (Returned true, s4)
                end
            end
      end
  end.

Definition reloadPlugin (s : state) (file : string) (src : source) : load_outcome * state :=
  loadPlugin s file src.

(** ** Listing endpoints *)

(** e[k] on an endpoint object *)
Definition endpoint_get (e : endpoint) (k : string) : value :=
  if String.eqb k "path" then VStr (ep_path e)
  else if String.eqb k "name" then ep_name e
  else if String.eqb k "description" then ep_description e
  else if String.eqb k "authentication" then VBool (ep_authentication e)
  else if String.eqb k "method" then VStr (ep_method e)
  else if String.eqb k "tags" then ep_tags e
  else if String.eqb k "parameter" then ep_parameter e
  else if String.eqb k "version" then ep_version e
  else if String.eqb k "deprecated" then VBool (ep_deprecated e)
  else if String.eqb k "rateLimit" then ep_rateLimit e
  else if String.eqb k "timeout" then ep_timeout e
  else inherited k.

(** array.filter(callback) with a callback that may throw *)
Fixpoint filter_result {A : Type} (f : A → result bool) (l : list A) : result (list A) :=
  match l with
  | [] => Ok []
  | x :: rest =>
      keep ← f x;
      rest' ← filter_result f rest;
      Ok (if (keep : bool) then x :: rest' else rest')
  end.

(** tags.includes(tag) : of an array, of a string, or a TypeError *)
Definition call_includes (tags tag : value) : result bool :=
  match tags with
  | VArray items => Ok (existsb (same_value_zero tag) items)
  | VStr s => Ok (str_includes s (to_string tag))
  | _ => Throw TypeError
  end.

(** recv.localeCompare(arg) : only strings have the method *)
Definition call_localeCompare (recv arg : value) : result Z :=
  match recv with
  | VStr s => Ok (localeCompare s (to_string arg))
  | _ => Throw TypeError
  end.

(** The comparator handed to [filtered.sort]. *)
Definition compare_by (filters : value) (a b : endpoint) : result Z :=
  sortBy ← get_prop filters "sortBy";
  let aVal := endpoint_get a (to_string sortBy) in
  let bVal := endpoint_get b (to_string sortBy) in
  sortOrder ← get_prop filters "sortOrder";
  if strict_eq sortOrder (VStr "desc") then call_localeCompare bVal aVal
  else call_localeCompare aVal bVal.

(** [Array.prototype.sort] with a comparator that may throw. The engine
    chooses the algorithm; the embedding takes the stable insertion sort:
    an element goes before the first one it compares below. An array of
    fewer than two elements is returned without a comparison. *)
Fixpoint insert_sorted {A : Type} (cmp : A → A → result Z) (x : A) (sorted : list A)
    : result (list A) :=
  match sorted with
  | [] => Ok [x]
  | y :: rest =>
      c ← cmp x y;
      if bool_decide (c < 0)%Z then Ok (x :: y :: rest)
      else
        rest' ← insert_sorted cmp x rest;
        Ok (y :: rest')
  end.

Fixpoint sort_into {A : Type} (cmp : A → A → result Z) (sorted todo : list A)
    : result (list A) :=
  match todo with
  | [] => Ok sorted
  | x :: rest =>
      sorted' ← insert_sorted cmp x sorted;
      sort_into cmp sorted' rest
  end.

Definition array_sort {A : Type} (cmp : A → A → result Z) (l : list A) : result (list A) :=
  sort_into cmp [] l.

(** The four [filter] steps of [getEndpoints]. *)
Definition filter_endpoints (s : state) (filters : value) : result (list endpoint) :=
  fmethod ← get_prop filters "method";
  l1 ← (if truthy fmethod then
          filter_result
            (λ e, upper ← call_toUpperCase fmethod; Ok (String.eqb (ep_method e) upper))
            (endpoints s)
        else Ok (endpoints s));
  authenticated ← get_prop filters "authenticated";
  let l2 :=
    if strict_eq authenticated VUndefined then l1
    else List.filter (λ e, strict_eq (VBool (ep_authentication e)) authenticated) l1 in
  tag ← get_prop filters "tag";
  l3 ← (if truthy tag then filter_result (λ e, call_includes (ep_tags e) tag) l2
        else Ok l2);
  deprecated ← get_prop filters "deprecated";
  Ok (if strict_eq deprecated VUndefined then l3
      else List.filter (λ e, strict_eq (VBool (ep_deprecated e)) deprecated) l3).

(** [getEndpoints(filters = {})] *)
Definition getEndpoints (s : state) (filters0 : value) : result (list endpoint) :=
  let filters := if strict_eq filters0 VUndefined then VObject [] else filters0 in
  filtered ← filter_endpoints s filters;
  sortBy ← get_prop filters "sortBy";
  if truthy sortBy then array_sort (compare_by filters) filtered
  else Ok filtered.

End Model.

Arguments inherited {H} !k /.
Arguments object_get {H} props !k /.
Arguments toUpperCase {H} !s /.
Arguments toLowerCase {H} !s /.

(** ** Hot reload: the debounce of [app.js] *)

(** [this.pluginReloadTimeout]: the pending timer, with the time it is due
    and the [filename] its callback closed over; [reloaded] lists the calls
    of [reloadPlugin] made so far. *)
Record watcher := {
  pluginReloadTimeout : option (Z * string);
  isShuttingDown : bool;
  reloaded : list string
}.

Definition idle : watcher :=
  {| pluginReloadTimeout := None; isShuttingDown := false; reloaded := [] |}.

(** [clearTimeout(this.pluginReloadTimeout);
     this.pluginReloadTimeout = setTimeout(..., 1000)] at time [now] *)
Definition debouncePluginReload (now : Z) (filename : string) (w : watcher) : watcher :=
  {| pluginReloadTimeout := Some ((now + 1000)%Z, filename);
     isShuttingDown := isShuttingDown w;
     reloaded := reloaded w |}.

(** The callback [setupPluginWatching] gives to [fs.watch]; [filename] may
    be absent. *)
Definition on_change (now : Z) (filename : option string) (w : watcher) : watcher :=
  match filename with
  | Some f =>
      if negb (String.eqb f "") && endsWith f ".js" && negb (isShuttingDown w)
      then debouncePluginReload now f w
      else w
  | None => w
  end.

(** The event loop reaching time [now]: a timer that is due runs its
    callback, which reloads the file it closed over. *)
Definition fire (now : Z) (w : watcher) : watcher :=
  match pluginReloadTimeout w with
  | Some (due, filename) =>
      if bool_decide (due ≤ now)%Z then
        {| pluginReloadTimeout := None;
           isShuttingDown := isShuttingDown w;
           reloaded := reloaded w ++ [filename] |}
      else w
  | None => w
  end.

(** A change notification delivered at time [now]. *)
Definition deliver (w : watcher) (ev : Z * option string) : watcher :=
  on_change ev.1 ev.2 (fire ev.1 w).

Definition run (events : list (Z * option string)) (w : watcher) : watcher :=
  foldl deliver w events.

(** The reloads made once the file system has been quiet for good: the
    pending timer, if any, has run. *)
Definition eventually_reloaded (w : watcher) : list string :=
  match pluginReloadTimeout w with
  | Some (_, filename) => reloaded w ++ [filename]
  | None => reloaded w
  end.

(** ** Successive requests *)

(** The handler of one plugin serving requests one after the other, each
    with the time it arrives at: [this.rateLimitStore] is carried from one
    request to the next. *)
Fixpoint serve `{Host} (plugin : value) (token : option string)
    (store : gmap string (list Z)) (reqs : list (Z * request)) : list handled :=
  match reqs with
  | [] => []
  | (now, req) :: rest =>
      let h := withValidation plugin token now store req in
      h :: serve plugin token (store_after h) rest
  end.

(** [load] and [unregister] calls made one after the other. *)
Inductive call :=
| Load (file : string) (src : source)
| Unregister (file : string).

Definition perform `{Host} (s : state) (c : call) : state :=
  match c with
  | Load file src => (loadPlugin s file src).2
  | Unregister file => unregisterPlugin s file
  end.

(** ** Notions used by the statements *)

(** A bearer token as the header carries it: without a space. *)
Fixpoint no_space (s : string) : bool :=
  match s with
  | EmptyString => true
  | String c rest => negb (Ascii.eqb c " ") && no_space rest
  end.

(** The calls a request makes when every guard lets it through. *)
Definition stage_order (props : list (string * value)) : list stage :=
  (if truthy (assoc "authentication" props) then [SAuth] else [])
  ++ [SParams]
  ++ (if truthy (assoc "rateLimit" props) then [SRate] else [])
  ++ [SExec].

(** The authentication guard lets the request through. *)
Definition authenticated (props : list (string * value)) (token : option string)
    (req : request) : Prop :=
  truthy (assoc "authentication" props) = false
  ∨ validateAuthentication token req = AuthValid.

(** Authentication and parameter validation let the request through. *)
Definition admitted `{Host} (props : list (string * value)) (token : option string)
    (req : request) : Prop :=
  authenticated props token req
  ∧ ∃ v, validateParameters (VObject props) req = Ok v ∧ valid v = true.

(** The key of a client's window for a plugin: [`${req.ip}-${plugin.name}`]. *)
Definition rate_key `{Host} (props : list (string * value)) (req : request) : string :=
  to_string (req_ip req) +:+ "-" +:+ to_string (assoc "name" props).

(** [required = true] of the destructuring: the declared value, [true]
    when the spec does not declare one. *)
Definition declared_required (spec : list (string * value)) : value :=
  if strict_eq (assoc "required" spec) VUndefined then VBool true
  else assoc "required" spec.

(** The violation is a type mismatch. *)
Definition is_type_mismatch (e : violation) : bool :=
  match e with TypeMismatch _ _ => true | _ => false end.

(** The type names [validateType] knows. *)
Definition known_types : list string := ["string"; "number"; "boolean"; "email"; "url"].

(** A type name that is none of them. *)
Definition unrecognized (type : value) : Prop :=
  ∀ t, t ∈ known_types → type ≠ VStr t.

(** A descriptor that [validatePlugin] accepts: a path that starts with
    "/", a function as [exec], and no method or one of the five verbs in
    any case. *)
Definition valid_descriptor `{Host} (props : list (string * value)) : Prop :=
  (∃ p, assoc "path" props = VStr p ∧ startsWith p "/" = true)
  ∧ (∃ fid, assoc "exec" props = VFunction fid)
  ∧ (assoc "method" props = VUndefined
     ∨ ∃ m, assoc "method" props = VStr m ∧ allowed_method (toUpperCase m) = true).

(** The Route Entry [loadPlugin] records for a valid descriptor. *)
Definition entry_of `{Host} (props : list (string * value)) : route_entry :=
  {| routePath := match assoc "path" props with VStr p => p | _ => "" end;
     method := match assoc "method" props with
               | VStr m => toUpperCase m
               | _ => "GET"
               end |}.

(** The router compiles the path of the descriptor. *)
Definition mountable `{Host} (props : list (string * value)) : Prop :=
  compile_path (routePath (entry_of props)) = None.

(** The entry is mounted at path [p] under the method key [key]. *)
Definition entry_at `{Host} (p key : string) (e : route_entry) : Prop :=
  routePath e = p ∧ toLowerCase (method e) = key.

#[global] Instance entry_at_dec `{Host} (p key : string) (e : route_entry) :
  Decision (entry_at p key e).
Proof. unfold entry_at. apply _. Defined.

(** The entries of the route stack for [(p, key)]. *)
Definition count_routes (p key : string) (stack : list layer) : nat :=
  length (List.filter (layer_matches p key) stack).

(** The files whose Route Entry is [(p, key)]. *)
Definition owners `{Host} (p key : string) (routes : gmap string route_entry) : nat :=
  size (filter (λ kv : string * route_entry, entry_at p key kv.2) routes).

(** The Endpoint Metadata [loadPlugin] records for a valid descriptor. *)
Definition endpoint_of `{Host} (props : list (string * value)) (file : string) : endpoint :=
  {| ep_path := routePath (entry_of props);
     ep_name := js_or (assoc "name" props) (VStr (strip_js file));
     ep_description := js_or (assoc "description" props) (VStr "");
     ep_authentication := truthy (assoc "authentication" props);
     ep_method := method (entry_of props);
     ep_tags := js_or (assoc "tags" props) (VArray []);
     ep_parameter := js_or (assoc "parameter" props) (VArray []);
     ep_version := js_or (assoc "version" props) (VStr "1.0.0");
     ep_deprecated := truthy (assoc "deprecated" props);
     ep_rateLimit := js_or (assoc "rateLimit" props) VNull;
     ep_timeout := js_or (assoc "timeout" props) (VNum (Int 30000)) |}.

(** The route stack holds, for every path and method key, at most the
    entries the application had before plugins plus one per file whose
    Route Entry is that path and method. *)
Definition stack_bounded `{Host} (stack0 : list layer) (s : state) : Prop :=
  ∀ p key,
    count_routes p key (app_stack s)
    ≤ count_routes p key stack0 + owners p key (routes s).

(** typeof v === "string" *)
Definition is_string (v : value) : bool :=
  match v with VStr _ => true | _ => false end.

(** Change notifications that follow one at time [t], each less than the
    1000 ms of the debounce after the one before. *)
Fixpoint within_window (t : Z) (events : list (Z * string)) : Prop :=
  match events with
  | [] => True
  | (t', _) :: rest => (t ≤ t' < t + 1000)%Z ∧ within_window t' rest
  end.

(** The notification the watcher gets for a change of [file] at time [t]. *)
Definition changed (ev : Z * string) : Z * option string := (ev.1, Some ev.2).

(** ** Sample data *)

(** Decimal digits read as a number, for the sample host. *)
Fixpoint digits_value (acc : Z) (s : string) : num :=
  match s with
  | EmptyString => Int acc
  | String c rest =>
      let n := nat_of_ascii c in
      if (48 <=? n)%nat && (n <=? 57)%nat
      then digits_value (10 * acc + Z.of_nat (n - 48)) rest
      else NaN
  end.

(** The paths of letters, digits and [/ - _ .], which every version of
    the router compiles. *)
Fixpoint plain_path (p : string) : bool :=
  match p with
  | EmptyString => true
  | String c rest =>
      let n := nat_of_ascii c in
      (((48 <=? n) && (n <=? 57)) || ((65 <=? n) && (n <=? 90))
       || ((97 <=? n) && (n <=? 122))
       || (n =? 45) || (n =? 46) || (n =? 47) || (n =? 95))%nat
      && plain_path rest
  end.

(** A host to run the embedding on concrete requests: numbers are written
    in decimal, objects convert to "[object Object]", a regular expression
    matches the strings that contain it literally, strings are ordered by
    their characters (all strings are taken as ASCII text), the members of
    [Object.prototype] are functions, the router compiles the plain paths
    and refuses the others, and every plugin replies 200. *)
Definition sample_host : Host :=
  {| string_to_number := digits_value 0;
     object_to_primitive := λ _, VStr "[object Object]";
     number_to_string := λ n,
       match n with
       | NaN => "NaN"
       | PosInf => "Infinity"
       | NegInf => "-Infinity"
       | Int z => pretty z
       end;
     function_length := λ _, 2%Z;
     function_name := λ _, VStr "exec";
     object_member := λ k, VFunction 0;
     unicode_toUpperCase := ascii_toUpperCase;
     unicode_toLowerCase := ascii_toLowerCase;
     unicode_length := λ s, Pos.of_nat (String.length s);
     unicode_index := string_index 0;
     unicode_lt := String.ltb;
     compile_path := λ p, if plain_path p then None else Some SyntaxError;
     regexp_test := λ pattern s, Some (str_includes s pattern);
     localeCompare := λ a b,
       match String.compare a b with
       | Lt => (-1)%Z
       | Eq => 0%Z
       | Gt => 1%Z
       end;
     run_exec := λ _ _, ExecReplied 200 |}.

(** The bundled plugin that answers [/api/ping]. *)
Definition ping_props : list (string * value) :=
  [ ("path", VStr "/api/ping");
    ("method", VStr "GET");
    ("name", VStr "ping");
    ("description", VStr "ngetes api ygy");
    ("authentication", VBool false);
    ("rateLimit", VObject [("limit", VNum (Int 10)); ("window", VNum (Int 60000))]);
    ("timeout", VNum (Int 5000));
    ("parameter",
      VArray [VObject [("name", VStr "message"); ("required", VBool false);
                       ("type", VStr "text")]]);
    ("exec", VFunction 0);
    ("healthCheck", VFunction 1) ].

Definition ping_plugin : value := VObject ping_props.

(** [plugins/docs.js] *)
Definition docs_props : list (string * value) :=
  [ ("path", VStr "/docs");
    ("method", VStr "GET");
    ("name", VStr "docs");
    ("tags", VArray [VStr "main"]);
    ("description", VStr "documentation  page");
    ("authentication", VBool false);
    ("rateLimit", VObject [("limit", VNum (Int 10)); ("window", VNum (Int 60000))]);
    ("timeout", VNum (Int 5000));
    ("parameter", VArray []);
    ("exec", VFunction 2) ].

Definition docs_plugin : value := VObject docs_props.

(** The registry after the one, and after the two bundled plugins. *)
Definition one_plugin : state :=
  (@loadPlugin sample_host (fresh []) "ping.js" (Exports ping_plugin)).2.

Definition two_plugins : state :=
  (@loadPlugin sample_host one_plugin "docs.js" (Exports docs_plugin)).2.

(** A GET request with a query and nothing else, from one client. *)
Definition get_request (query : list (string * value)) : request :=
  {| req_authorization := None;
     req_query := VObject query;
     req_body := VObject [];
     req_ip := VStr "203.0.113.7" |}.

(** A plugin that asks for authentication, for the examples. *)
Definition secured_props : list (string * value) :=
  [ ("path", VStr "/api/secret");
    ("method", VStr "POST");
    ("name", VStr "secret");
    ("authentication", VBool true);
    ("parameter", VArray [VStr "q"]);
    ("exec", VFunction 3) ].

Definition secured_plugin : value := VObject secured_props.

Definition bearer_request (header : option string) : request :=
  {| req_authorization := header;
     req_query := VObject [];
     req_body := VObject [("q", VStr "x")];
     req_ip := VStr "203.0.113.7" |}.

(** A plugin limited to three requests per second, with the field the
    code reads ([window]) and with the field of the descriptor schema
    ([windowMs]). *)
Definition limited_rateLimit : list (string * value) :=
  [("limit", VNum (Int 3)); ("window", VNum (Int 1000))].

Definition limited_props : list (string * value) :=
  [ ("path", VStr "/api/limited");
    ("method", VStr "GET");
    ("name", VStr "limited");
    ("rateLimit", VObject limited_rateLimit);
    ("exec", VFunction 4) ].

Definition schema_limited_plugin : value :=
  VObject [
    ("path", VStr "/api/limited");
    ("method", VStr "GET");
    ("name", VStr "limited");
    ("rateLimit", VObject [("limit", VNum (Int 3)); ("windowMs", VNum (Int 1000))]);
    ("exec", VFunction 4)
  ].

(** A GET plugin with one required parameter, [url]. *)
Definition fetch_props : list (string * value) :=
  [ ("path", VStr "/api/fetch");
    ("method", VStr "GET");
    ("name", VStr "fetch");
    ("parameter", VArray [VObject [("name", VStr "url"); ("required", VBool true)]]);
    ("exec", VFunction 5) ].

(** A descriptor without [path], for the examples. *)
Definition pathless_props : list (string * value) :=
  [ ("method", VStr "GET"); ("name", VStr "broken"); ("exec", VFunction 6) ].

(** * Further functions *)

(** ** Batch loading and statistics of the plugin manager *)

Section Manager.
Context `{Host}.

Record load_report := {
  loaded : nat;
  failed : nat
}.

(** The body of the [for (const file of files)] loop of [loadAllPlugins]:
    a load that returns true counts as loaded, one that returns false or
    throws counts as failed. *)
Definition load_next (acc : load_report * state) (entry : string * source)
    : load_report * state :=
  match loadPlugin acc.2 entry.1 entry.2 with
  | (Returned true, s') => ({| loaded := S (loaded acc.1); failed := failed acc.1 |}, s')
  | (Returned false, s') => ({| loaded := loaded acc.1; failed := S (failed acc.1) |}, s')
  | (Threw, s') => ({| loaded := loaded acc.1; failed := S (failed acc.1) |}, s')
  end.

(** [loadAllPlugins(app, pluginsDir)]. [dir] is [None] when the directory
    does not exist; else it is what [fs.readdirSync] lists, each name with
    what [require] finds for it. *)
Definition loadAllPlugins (s : state) (dir : option (list (string * source)))
    : load_report * state :=
  match dir with
  | None => ({| loaded := 0; failed := 0 |}, s)
  | Some listing =>
      let files := List.filter (λ entry, endsWith entry.1 ".js") listing in
      foldl load_next ({| loaded := 0; failed := 0 |}, s) files
  end.

(** [getMethodDistribution()]:
    [distribution[m] = (distribution[m] || 0) + 1] over the endpoints. The
    methods of the endpoints are the verbs of [registerRoute], none of
    which names a member of [Object.prototype], so that [distribution[m]]
    is the count so far or [undefined]. *)
Definition getMethodDistribution (s : state) : gmap string nat :=
  foldl (λ distribution e,
           <[ep_method e := default 0 (distribution !! ep_method e) + 1]> distribution)
        ∅ (endpoints s).

Record stats := {
  totalPlugins : nat;
  totalEndpoints : nat;
  methodDistribution : gmap string nat;
  authRequiredCount : nat;
  deprecatedCount : nat
}.

Definition getStats (s : state) : stats :=
  {| totalPlugins := size (plugins s);
     totalEndpoints := length (endpoints s);
     methodDistribution := getMethodDistribution s;
     authRequiredCount := length (List.filter ep_authentication (endpoints s));
     deprecatedCount := length (List.filter ep_deprecated (endpoints s)) |}.

End Manager.

(** ** Notions used by the further statements *)

(** The source is one [loadPlugin] registers: it exports what
    [validatePlugin] accepts. *)
Definition accepts `{Host} (src : source) : bool :=
  match src with
  | Exports plugin =>
      match validatePlugin plugin "" with
      | Ok v => mvalid v
      | Throw _ => false
      end
  | _ => false
  end.

(** The source is one [loadPlugin] registers and mounts: an accepted
    descriptor whose path the router compiles. *)
Definition mounts `{Host} (src : source) : bool :=
  match src with
  | Exports (VObject props) =>
      accepts src
      && match compile_path (routePath (entry_of props)) with
         | None => true
         | Some _ => false
         end
  | _ => false
  end.

(** The loads of a batch, without the counting. *)
Definition load_each `{Host} (s : state) (entries : list (string * source)) : state :=
  foldl (λ s entry, (loadPlugin s entry.1 entry.2).2) s entries.

#[global] Instance route_entry_eq_dec : EqDecision route_entry.
Proof. solve_decision. Defined.

(** The endpoints recorded for the path [p] and the method [m]. *)
Definition count_endpoints (p m : string) (l : list endpoint) : nat :=
  length (List.filter (λ e, String.eqb (ep_path e) p && String.eqb (ep_method e) m) l).

(** The files whose Route Entry is exactly [(p, m)]. *)
Definition owners_exact (p m : string) (routes : gmap string route_entry) : nat :=
  size (filter (λ kv : string * route_entry,
                  kv.2 = {| routePath := p; method := m |}) routes).

(** The sum of the counts of a distribution. *)
Definition distribution_total (d : gmap string nat) : nat :=
  map_fold (λ _ n acc, n + acc) 0 d.

(** The endpoints whose method is [m]. *)
Definition count_method (m : string) (l : list endpoint) : nat :=
  length (List.filter (λ e, String.eqb (ep_method e) m) l).

(** No endpoint is recorded more often for a path and a method than there
    are files whose Route Entry is that path and method. *)
Definition endpoints_bounded (s : state) : Prop :=
  ∀ p m, count_endpoints p m (endpoints s) ≤ owners_exact p m (routes s).

(** ** Successive calls of the rate limiter *)

(** The calls [checkRateLimit(req, plugin)] of one plugin, one after the
    other at the given times, on the store the one before it left. *)
Fixpoint checkRateLimit_each `{Host} (store : gmap string (list Z)) (plugin : value)
    (calls : list (Z * request)) : result (list rate_result * gmap string (list Z)) :=
  match calls with
  | [] => Ok ([], store)
  | (now, req) :: rest =>
      out ← checkRateLimit store now req plugin;
      more ← checkRateLimit_each out.2 plugin rest;
      Ok (out.1 :: more.1, more.2)
  end.

(** The times of the calls of the client key [k] that were allowed. *)
Definition allowed_times `{Host} (props : list (string * value)) (k : string)
    (calls : list (Z * request)) (results : list rate_result) : list Z :=
  (List.filter (λ cr : (Z * request) * rate_result,
                  String.eqb (rate_key props cr.1.2) k && allowed cr.2)
               (zip calls results)).*1.*1.

(** How many of the times lie in the [window] milliseconds from [u] on. *)
Definition window_count (window u : Z) (times : list Z) : nat :=
  length (List.filter (λ a, bool_decide (u ≤ a < u + window)%Z) times).

(** The calls of the client key [k], and what they were answered. *)
Definition calls_of `{Host} (props : list (string * value)) (k : string)
    (calls : list (Z * request)) : list (Z * request) :=
  List.filter (λ c : Z * request, String.eqb (rate_key props c.2) k) calls.

Definition results_of `{Host} (props : list (string * value)) (k : string)
    (calls : list (Z * request)) (results : list rate_result) : list rate_result :=
  (List.filter (λ cr : (Z * request) * rate_result,
                  String.eqb (rate_key props cr.1.2) k)
               (zip calls results)).*2.

(** What a handler that has run leaves, seen from the store it started
    on: it called [exec] or answered with an error status of its own, and
    it changed the store only if it called the limiter. *)
Definition refusal (store : gmap string (list Z)) (h : handled) : Prop :=
  (SExec ∈ calls h
   ∨ ∃ st b, sent h = Some {| status := st; rbody := b |}
             ∧ st ∈ [400; 401; 403; 429; 500]%Z ∧ b ≠ BPlugin)
  ∧ (store_after h ≠ store → SRate ∈ calls h).

(** ** Notions used by the statements on listing *)

(** The endpoint passes the filters of [getEndpoints] that [fprops] sets:
    [method] compared in upper case, [authenticated] and [deprecated] by
    [===], [tag] by [includes]. *)
Definition selects `{Host} (fprops : list (string * value)) (e : endpoint) : bool :=
  (if truthy (assoc "method" fprops) then
     match call_toUpperCase (assoc "method" fprops) with
     | Ok upper => String.eqb (ep_method e) upper
     | Throw _ => false
     end
   else true)
  && (if strict_eq (assoc "authenticated" fprops) VUndefined then true
      else strict_eq (VBool (ep_authentication e)) (assoc "authenticated" fprops))
  && (if truthy (assoc "tag" fprops) then
        match call_includes (ep_tags e) (assoc "tag" fprops) with
        | Ok found => found
        | Throw _ => false
        end
      else true)
  && (if strict_eq (assoc "deprecated" fprops) VUndefined then true
      else strict_eq (VBool (ep_deprecated e)) (assoc "deprecated" fprops)).

(** [tags] has an [includes] method. *)
Definition has_includes (tags : value) : bool :=
  match tags with VArray _ | VStr _ => true | _ => false end.

(** ** Notions used by the statements on hot reload *)

(** The notification is for a plugin file: the watcher's callback passes
    [filename && filename.endsWith(".js")]. *)
Definition plugin_change (ev : Z * option string) : option (Z * string) :=
  match ev.2 with
  | Some f => if negb (String.eqb f "") && endsWith f ".js" then Some (ev.1, f) else None
  | None => None
  end.

(** The changes that are followed by no other change for 1000 ms: the last
    one, and each one whose successor comes 1000 ms after it or later. *)
Fixpoint settled (changes : list (Z * string)) : list string :=
  match changes with
  | [] => []
  | (t, f) :: rest =>
      match rest with
      | [] => [f]
      | (t', _) :: _ =>
          if bool_decide (t + 1000 ≤ t')%Z then f :: settled rest else settled rest
      end
  end.

(** ** The OpenAPI document of [app.js] *)

(** One element of [parameters]: [{ name, in, required, schema: { type } }]. *)
Record openapi_parameter := {
  oa_name : value;
  oa_in : string;
  oa_required : value;
  oa_type : value
}.

(** The object stored at [spec.paths[path][method]]; the [responses] are
    the same four in every operation and are left out. [security] tells
    that the operation carries [security: [{ bearerAuth: [] }]]. *)
Record operation := {
  summary : value;
  op_description : value;
  op_tags : value;
  parameters : list openapi_parameter;
  security : bool
}.

(** The document: [info.version], [servers[0].url], [paths], and whether
    [components.securitySchemes.bearerAuth] is declared. *)
Record openapi := {
  info_version : string;
  server_url : string;
  paths : gmap string (gmap string operation);
  components : bool
}.

(** array.map(callback) with a callback that may throw *)
Fixpoint map_result {A B : Type} (f : A → result B) (l : list A) : result (list B) :=
  match l with
  | [] => Ok []
  | x :: rest =>
      y ← f x;
      rest' ← map_result f rest;
      Ok (y :: rest')
  end.

Section Document.
Context `{Host}.

(** The callback of [endpoint.parameter.map]. *)
Definition document_parameter (e : endpoint) (param : value) : result openapi_parameter :=
  let location := if String.eqb (ep_method e) "GET" then "query" else "body" in
  match param with
  | VStr _ =>
      Ok {| oa_name := param; oa_in := location; oa_required := VBool true;
            oa_type := VStr "string" |}
  | _ =>
      name ← get_prop param "name";
      required ← get_prop param "required";
      type ← get_prop param "type";
      Ok {| oa_name := name; oa_in := location; oa_required := required;
            oa_type := js_or type (VStr "string") |}
  end.

(** The operation object of one endpoint. [endpoint.parameter] is the
    array of the descriptor; any other value has no [map] to call. *)
Definition document_operation (e : endpoint) : result operation :=
  match ep_parameter e with
  | VArray items =>
      params ← map_result (document_parameter e) items;
      Ok {| summary := ep_name e;
            op_description := ep_description e;
            op_tags := ep_tags e;
            parameters := params;
            security := ep_authentication e |}
  | _ => Throw TypeError
  end.

(** The body of [endpoints.forEach]: the paths are those of registered
    endpoints, which start with a slash, so that [spec.paths[path]] is an
    object the loop put there or [undefined]. *)
Fixpoint document_endpoints (paths : gmap string (gmap string operation))
    (eps : list endpoint) : result (gmap string (gmap string operation)) :=
  match eps with
  | [] => Ok paths
  | e :: rest =>
      op ← document_operation e;
      document_endpoints
        (<[ep_path e := <[toLowerCase (ep_method e) := op]> (default ∅ (paths !! ep_path e))]>
           paths)
        rest
  end.

(** [generateOpenApiSpec(endpoints, req)], with [version] of the package
    and [server] for [`${req.protocol}://${req.get('host')}`]. *)
Definition generateOpenApiSpec (version server : string) (eps : list endpoint)
    : result openapi :=
  documented ← document_endpoints ∅ eps;
  Ok {| info_version := version;
        server_url := server;
        paths := documented;
        components := existsb ep_authentication eps |}.

End Document.

(** ** Notions used by the statements on the document *)

(** The operation the document holds for a path and a method key. *)
Definition operation_at (spec : openapi) (p key : string) : option operation :=
  paths spec !! p ≫= (λ operations, operations !! key).

(** The last of the endpoints with the path [p] whose method is [key] in
    lower case. *)
Definition last_endpoint `{Host} (p key : string) (eps : list endpoint) : option endpoint :=
  last (List.filter (λ e, String.eqb (ep_path e) p
                          && String.eqb (toLowerCase (ep_method e)) key) eps).

(** What [document_operation] makes of an endpoint, if it returns. *)
Definition documented_as `{Host} (e : endpoint) : option operation :=
  match document_operation e with
  | Ok op => Some op
  | Throw _ => None
  end.

(** The endpoint is one the document can be made for: its path starts
    with a slash, as that of every registered endpoint does, and its
    [parameter] is an array of names and objects, without [null],
    [undefined] and functions. *)
Definition documentable (e : endpoint) : Prop :=
  startsWith (ep_path e) "/" = true
  ∧ ∃ items, ep_parameter e = VArray items
             ∧ Forall (λ param, param ≠ VUndefined ∧ param ≠ VNull
                                ∧ ∀ fid, param ≠ VFunction fid) items.

(** ** The cluster master: workers in series *)

Module Cluster.

(** [parseInt(process.env.WORKERS, 10) || os.cpus().length || 1];
    [workers] is [None] when [parseInt] gives [NaN]. *)
Definition numCPUs (workers : option Z) (cpus : nat) : Z :=
  match workers with
  | Some w => if bool_decide (w = 0%Z) then (if cpus is 0 then 1%Z else Z.of_nat cpus) else w
  | None => if cpus is 0 then 1%Z else Z.of_nat cpus
  end.

Record workerStats := {
  started : nat;
  failed : nat;
  restarted : nat
}.

(** The master: the counter [current], [workerStats], the workers that
    were forked and have not exited (each with whether it has emitted
    [online]), and the [setTimeout(startWorker, 1000)] that have not run
    yet. *)
Record master := {
  current : nat;
  stats : workerStats;
  workers : list bool;
  timers : nat
}.

Definition startWorker (n : Z) (m : master) : master :=
  if bool_decide (Z.of_nat (current m) < n)%Z then
    {| current := S (current m); stats := stats m;
       workers := workers m ++ [false]; timers := timers m |}
  else m.

(** What happens to the master: a worker emits [online] or [exit], or a
    timer runs. *)
Inductive event :=
| Online (worker : nat)
| Exit (worker : nat)
| Timer.

(** The handlers; [None] when the event cannot occur: [online] comes once,
    from a worker that lives, [exit] from a worker that lives, and a
    timer runs if one was set. *)
Definition step (n : Z) (m : master) (ev : event) : option master :=
  match ev with
  | Online i =>
      match workers m !! i with
      | Some false =>
          Some {| current := current m;
                  stats := {| started := S (started (stats m));
                              failed := failed (stats m);
                              restarted := restarted (stats m) |};
                  workers := <[i := true]> (workers m);
                  timers := timers m |}
      | _ => None
      end
  | Exit i =>
      match workers m !! i with
      | Some _ =>
          if bool_decide (Z.of_nat (current m) < n)%Z then
            Some {| current := current m;
                    stats := {| started := started (stats m);
                                failed := S (failed (stats m));
                                restarted := S (restarted (stats m)) |};
                    workers := delete i (workers m);
                    timers := S (timers m) |}
          else
            Some {| current := current m;
                    stats := {| started := started (stats m);
                                failed := S (failed (stats m));
                                restarted := restarted (stats m) |};
                    workers := delete i (workers m);
                    timers := timers m |}
      | None => None
      end
  | Timer =>
      match timers m with
      | S pending =>
          Some (startWorker n {| current := current m; stats := stats m;
                                 workers := workers m; timers := pending |})
      | 0 => None
      end
  end.

(** The master after [startWorker()] at the end of its set-up. *)
Definition boot (n : Z) : master :=
  startWorker n {| current := 0;
                   stats := {| started := 0; failed := 0; restarted := 0 |};
                   workers := []; timers := 0 |}.

Definition run (n : Z) (events : list event) : option master :=
  foldl (λ m ev, m ≫= λ m, step n m ev) (Some (boot n)) events.

(** What every handler keeps: at most one worker lives or is about to be
    forked; a timer is pending only while forks are left; the forks are at
    most [numCPUs]; every fork lives or is counted in [failed]; the
    restarts are the forks after the first; and the workers counted in
    [started] were forked. *)
Definition series (n : Z) (m : master) : Prop :=
  length (workers m) + timers m ≤ 1
  ∧ (0 < timers m → (Z.of_nat (current m) < n)%Z)
  ∧ (Z.of_nat (current m) ≤ Z.max 0 n)%Z
  ∧ failed (stats m) + length (workers m) = current m
  ∧ (restarted (stats m) + 1 = current m + timers m
     ∨ (current m = 0 ∧ restarted (stats m) = 0 ∧ timers m = 0))
  ∧ started (stats m) + length (List.filter negb (workers m)) ≤ current m.

End Cluster.

(** The endpoints [a] and [b] are in the order of a listing by the field
    [k]: both hold strings there, and [a]'s does not collate after [b]'s,
    or not before it in a descending listing. *)
Definition field_order `{Host} (k : string) (desc : bool) (a b : endpoint) : Prop :=
  match endpoint_get a k, endpoint_get b k with
  | VStr x, VStr y =>
      if desc then (localeCompare y x ≤ 0)%Z else (localeCompare x y ≤ 0)%Z
  | _, _ => False
  end.

(** * Properties *)

(** ** Numbers *)

Lemma ceil_div1000_bounds (z : Z) :
  (1000 * (ceil_div1000 z - 1) < z ≤ 1000 * ceil_div1000 z)%Z.
Proof.
  unfold ceil_div1000.
  pose proof (Z.div_mod (- z) 1000 ltac:(lia)) as Hdiv.
  pose proof (Z.mod_pos_bound (- z) 1000 ltac:(lia)) as Hmod.
  lia.
Qed.

Lemma num_min_int (a b : Z) : num_min (Int a) (Int b) = Int (Z.min a b).
Proof.
  unfold num_min, num_lt. case_bool_decide; f_equal; lia.
Qed.

Lemma num_min_inf (a : Z) : num_min (Int a) PosInf = Int a.
Proof. reflexivity. Qed.

Lemma oldest_nil : oldest [] = PosInf.
Proof. reflexivity. Qed.

Lemma oldest_cons (t : Z) (ts : list Z) :
  oldest (t :: ts) = num_min (Int t) (oldest ts).
Proof. reflexivity. Qed.

(** [Math.min(...ts)] of a non-empty array is its least element. *)
Lemma oldest_least (ts : list Z) :
  ts ≠ [] →
  ∃ o, oldest ts = Int o ∧ o ∈ ts ∧ ∀ t, t ∈ ts → (o ≤ t)%Z.
Proof.
  induction ts as [|t ts IH]; [done|]. intros _.
  destruct ts as [|t' ts'].
  - exists t. split; [done|]. split; [set_solver|].
    intros u Hu. apply list_elem_of_singleton in Hu. lia.
  - destruct IH as (o & Ho & Hin & Hle); [done|].
    rewrite oldest_cons, Ho. unfold num_min, num_lt.
    case_bool_decide as Hlt.
    + exists o. split; [done|]. split; [set_solver|].
      intros u Hu. apply elem_of_cons in Hu as [->|Hu]; [lia|auto].
    + exists t. split; [done|]. split; [set_solver|].
      intros u Hu. apply elem_of_cons in Hu as [->|Hu]; [lia|].
      specialize (Hle u Hu). lia.
Qed.

(** ** Rate limiter *)

Section RateLimiter.
Context `{Host}.

Lemma to_number_num (n : num) : to_number (VNum n) = n.
Proof. reflexivity. Qed.

(** With a numeric window, pruning keeps the timestamps younger than it. *)
Lemma prune_window (now window : Z) (requests : list Z) :
  prune now (VNum (Int window)) requests
  = List.filter (λ t, bool_decide (now - t < window)%Z) requests.
Proof. reflexivity. Qed.

(** A window that is not a number keeps nothing. *)
Lemma prune_undefined (now : Z) (requests : list Z) :
  prune now VUndefined requests = [].
Proof.
  unfold prune. induction requests as [|t ts IH]; [done|]. simpl. exact IH.
Qed.

(** C4. On a plugin whose [rateLimit] carries numbers for [limit] and
    [window], [checkRateLimit] denies exactly when the pruned timestamps of
    the key are at least [limit]. A denial leaves the store as it was and
    its [retryAfter] is [ceil((window - (now - oldest)) / 1000)] for the
    oldest surviving timestamp (the least one; when nothing survives, which
    needs [limit <= 0], [Math.min()] is [Infinity] and so is [retryAfter]).
    An allowance stores the pruned timestamps followed by [now], and that
    sequence has at most [limit] entries. *)
Theorem checkRateLimit_denies_or_appends
    (store : gmap string (list Z)) (now : Z) (req : request)
    (plugin name rateLimit : value) (limit window : Z) :
  get_prop plugin "name" = Ok name →
  get_prop plugin "rateLimit" = Ok rateLimit →
  get_prop rateLimit "limit" = Ok (VNum (Int limit)) →
  get_prop rateLimit "window" = Ok (VNum (Int window)) →
  let key := to_string (req_ip req) +:+ "-" +:+ to_string name in
  let pruned :=
    List.filter (λ t, bool_decide (now - t < window)%Z) (default [] (store !! key)) in
  ∃ r store',
    checkRateLimit store now req plugin = Ok (r, store') ∧
    (allowed r = false ↔ (limit ≤ Z.of_nat (length pruned))%Z) ∧
    (allowed r = false →
       store' = store ∧
       ∃ retry, retryAfter r = Some retry ∧
         (pruned = [] → retry = PosInf) ∧
         (pruned ≠ [] →
            ∃ o, o ∈ pruned ∧ (∀ t, t ∈ pruned → (o ≤ t)%Z) ∧
                 retry = Int (ceil_div1000 (window - (now - o))))) ∧
    (allowed r = true →
       store' = <[key := pruned ++ [now]]> store ∧
       (Z.of_nat (length (pruned ++ [now])) ≤ limit)%Z).
Proof.
  intros Hname Hrl Hlimit Hwindow key pruned.
  unfold checkRateLimit. rewrite Hname. simpl. rewrite Hrl. simpl.
  rewrite Hlimit. simpl. rewrite Hwindow. simpl.
  rewrite prune_window. fold key. fold pruned.
  rewrite ?to_number_num. unfold num_ge, num_lt.
  case_bool_decide as Hlt; simpl.
  - eexists _, _. split; [reflexivity|]. simpl.
    split; [split; [done | lia]|].
    split; [done|]. intros _. split; [done|].
    rewrite length_app. simpl. lia.
  - eexists _, _. split; [reflexivity|]. simpl.
    split; [split; [lia | done]|].
    split; [|done]. intros _. split; [done|].
    eexists. split; [reflexivity|]. split.
    + intros ->. reflexivity.
    + intros Hne. destruct (oldest_least pruned Hne) as (o & Ho & Hin & Hle).
      exists o. split; [done|]. split; [done|]. rewrite Ho. reflexivity.
Qed.

End RateLimiter.

(** The first request of a client to the bundled ping plugin. *)
Lemma checkRateLimit_denies_or_appends_witness :
  let key := @to_string sample_host (req_ip (get_request [])) +:+ "-"
             +:+ @to_string sample_host (VStr "ping") in
  let pruned :=
    List.filter (λ t, bool_decide (5000 - t < 60000)%Z)
                (default [] ((∅ : gmap string (list Z)) !! key)) in
  ∃ r store',
    @checkRateLimit sample_host ∅ 5000 (get_request []) ping_plugin = Ok (r, store') ∧
    (allowed r = false ↔ (10 ≤ Z.of_nat (length pruned))%Z) ∧
    (allowed r = false →
       store' = ∅ ∧
       ∃ retry, retryAfter r = Some retry ∧
         (pruned = [] → retry = PosInf) ∧
         (pruned ≠ [] →
            ∃ o, o ∈ pruned ∧ (∀ t, t ∈ pruned → (o ≤ t)%Z) ∧
                 retry = Int (ceil_div1000 (60000 - (5000 - o))))) ∧
    (allowed r = true →
       store' = <[key := pruned ++ [5000%Z]]> ∅ ∧
       (Z.of_nat (length (pruned ++ [5000%Z])) ≤ 10)%Z).
Proof.
  exact (@checkRateLimit_denies_or_appends sample_host ∅ 5000 (get_request [])
           ping_plugin (VStr "ping")
           (VObject [("limit", VNum (Int 10)); ("window", VNum (Int 60000))])
           10 60000 eq_refl eq_refl eq_refl eq_refl).
Defined.

(** ** Authentication *)

Lemma split_no_space (t : string) :
  no_space t = true → split " " t = [t].
Proof.
  induction t as [|c t IH]; [done|]. simpl.
  intros [Hc Ht]%andb_true_iff. apply negb_true_iff in Hc.
  rewrite Hc, (IH Ht). done.
Qed.

Lemma split_bearer (t : string) :
  no_space t = true → split " " ("Bearer " +:+ t) !! 1%nat = Some t.
Proof.
  intros Ht. simpl. change ("" +:+ t) with t.
  rewrite (split_no_space t Ht). done.
Qed.

Lemma startsWith_bearer (t : string) : startsWith ("Bearer " +:+ t) "Bearer " = true.
Proof. reflexivity. Qed.

Lemma bearer_not_empty (t : string) : String.eqb ("Bearer " +:+ t) "" = false.
Proof. reflexivity. Qed.

Section Authentication.
Context `{Host}.

Lemma validateAuthentication_missing (token : option string) (req : request) :
  req_authorization req = None →
  validateAuthentication token req = AuthInvalid 401 "Authorization header is required".
Proof. intros Hh. unfold validateAuthentication. by rewrite Hh. Qed.

Lemma validateAuthentication_malformed (token : option string) (req : request)
    (header : string) :
  req_authorization req = Some header →
  startsWith header "Bearer " = false →
  ∃ msg, validateAuthentication token req = AuthInvalid 401 msg.
Proof.
  intros Hh Hs. unfold validateAuthentication. rewrite Hh, Hs. simpl.
  destruct (String.eqb header ""); eauto.
Qed.

Lemma validateAuthentication_bearer (token : option string) (req : request)
    (t : string) :
  req_authorization req = Some ("Bearer " +:+ t) →
  t ≠ "" → no_space t = true →
  validateAuthentication token req
  = if bool_decide (Some t = token) then AuthValid
    else AuthInvalid 403 "Invalid or expired token".
Proof.
  intros Hh Hne Ht. unfold validateAuthentication.
  rewrite Hh, bearer_not_empty, startsWith_bearer, (split_bearer t Ht). simpl.
  destruct (String.eqb_spec t "") as [->|_]; done.
Qed.

Lemma validateAuthentication_no_token (token : option string) (req : request)
    (t : string) :
  req_authorization req = Some ("Bearer " +:+ t) →
  t = "" ∨ (∃ t', t = " " +:+ t') →
  validateAuthentication token req = AuthInvalid 401 "Token is required".
Proof.
  intros Hh Ht. unfold validateAuthentication.
  rewrite Hh, bearer_not_empty, startsWith_bearer.
  destruct Ht as [-> | [t' ->]]; reflexivity.
Qed.

(** C6. On a plugin with a truthy [authentication]: no Authorization
    header is answered 401; a header that does not start with "Bearer ", or
    that carries no token after it, is answered 401; a header
    "Bearer <token>" whose token (non-empty, without a space) differs from
    the configured secret is answered 403; with the secret itself the
    request goes on to parameter validation. The refusals call nothing
    after the authentication. *)
Theorem authentication_statuses (props : list (string * value))
    (token : option string) (now : Z) (store : gmap string (list Z)) (req : request) :
  truthy (assoc "authentication" props) = true →
  let h := withValidation (VObject props) token now store req in
  (req_authorization req = None →
     sent h = Some {| status := 401; rbody := BError "Authorization header is required" |}
     ∧ calls h = [SAuth]) ∧
  (∀ header, req_authorization req = Some header →
     startsWith header "Bearer " = false →
     (∃ msg, sent h = Some {| status := 401; rbody := BError msg |})
     ∧ calls h = [SAuth]) ∧
  (∀ t, req_authorization req = Some ("Bearer " +:+ t) →
     t = "" ∨ (∃ t', t = " " +:+ t') →
     sent h = Some {| status := 401; rbody := BError "Token is required" |}
     ∧ calls h = [SAuth]) ∧
  (∀ t, req_authorization req = Some ("Bearer " +:+ t) →
     t ≠ "" → no_space t = true → token ≠ Some t →
     sent h = Some {| status := 403; rbody := BError "Invalid or expired token" |}
     ∧ calls h = [SAuth]) ∧
  (∀ t, req_authorization req = Some ("Bearer " +:+ t) →
     t ≠ "" → no_space t = true → token = Some t →
     validateAuthentication token req = AuthValid
     ∧ h = params_stage (VObject props) now store [SAuth] req).
Proof.
  intros Hauth h. subst h. unfold withValidation. simpl. rewrite Hauth.
  repeat split.
  - by rewrite (validateAuthentication_missing token req).
  - by rewrite (validateAuthentication_missing token req).
  - destruct (validateAuthentication_malformed token req header) as [msg ->]; eauto.
  - destruct (validateAuthentication_malformed token req header) as [msg ->]; eauto.
  - by rewrite (validateAuthentication_no_token token req t).
  - by rewrite (validateAuthentication_no_token token req t).
  - rewrite (validateAuthentication_bearer token req t) by done.
    rewrite bool_decide_false by congruence. done.
  - rewrite (validateAuthentication_bearer token req t) by done.
    rewrite bool_decide_false by congruence. done.
  - rewrite (validateAuthentication_bearer token req t) by done.
    rewrite bool_decide_true by congruence. done.
  - rewrite (validateAuthentication_bearer token req t) by done.
    rewrite bool_decide_true by congruence. done.
Qed.

End Authentication.

(** The secured sample plugin, the secret "s3cret" and the header that
    carries it. *)
Lemma authentication_statuses_witness :
  @validateAuthentication (Some "s3cret") (bearer_request (Some "Bearer s3cret"))
  = AuthValid
  ∧ @withValidation sample_host secured_plugin (Some "s3cret") 0 ∅
      (bearer_request (Some "Bearer s3cret"))
    = @params_stage sample_host secured_plugin 0 ∅ [SAuth]
        (bearer_request (Some "Bearer s3cret")).
Proof.
  destruct (@authentication_statuses sample_host secured_props (Some "s3cret") 0 ∅
              (bearer_request (Some "Bearer s3cret")) eq_refl)
    as (_ & _ & _ & _ & Hpass).
  apply (Hpass "s3cret"); [reflexivity | discriminate | reflexivity | reflexivity].
Defined.

(** ** The guard pipeline *)

Section Pipeline.
Context `{Host}.

(** A denial hands the store back as it got it. *)
Lemma checkRateLimit_denied_store (store store' : gmap string (list Z)) (now : Z)
    (req : request) (plugin : value) (r : rate_result) :
  checkRateLimit store now req plugin = Ok (r, store') →
  allowed r = false → store' = store.
Proof.
  unfold checkRateLimit. intros Hc Hr.
  destruct (get_prop plugin "name") as [name|]; [simpl in Hc|done].
  destruct (get_prop plugin "rateLimit") as [rl|]; [simpl in Hc|done].
  destruct (get_prop rl "limit") as [limit|]; [simpl in Hc|done].
  destruct (get_prop rl "window") as [window|]; [simpl in Hc|done].
  destruct (num_ge _ _); simplify_eq/=; done.
Qed.

Lemma withValidation_authenticated (props : list (string * value))
    (token : option string) (now : Z) (store : gmap string (list Z)) (req : request) :
  authenticated props token req →
  withValidation (VObject props) token now store req
  = params_stage (VObject props) now store
      (if truthy (assoc "authentication" props) then [SAuth] else []) req.
Proof.
  unfold withValidation. simpl. intros [Hoff|Hok].
  - by rewrite Hoff.
  - rewrite Hok. by destruct (truthy _).
Qed.

Lemma exec_stage_calls (plugin : value) (store : gmap string (list Z))
    (cs : list stage) (req : request) :
  let h := exec_stage plugin store cs req in
  store_after h = store ∧ (calls h = cs ∨ calls h = cs ++ [SExec]).
Proof.
  unfold exec_stage, internal_error. simpl.
  repeat case_match; simpl; auto.
Qed.

Lemma rate_stage_calls (props : list (string * value)) (now : Z)
    (store : gmap string (list Z)) (cs : list stage) (req : request) :
  let rate := if truthy (assoc "rateLimit" props) then [SRate] else [] in
  let h := rate_stage (VObject props) now store cs req in
  calls h = cs ++ rate ∨ calls h = cs ++ rate ++ [SExec].
Proof.
  unfold rate_stage, internal_error. simpl.
  destruct (truthy (assoc "rateLimit" props)); simpl.
  - destruct (checkRateLimit _ _ _ _) as [[r store']|]; simpl; [|auto].
    destruct (allowed r); simpl; [|auto].
    destruct (exec_stage_calls (VObject props) store' (cs ++ [SRate]) req) as [_ [->| ->]];
      rewrite <- ?app_assoc; auto.
  - destruct (exec_stage_calls (VObject props) store cs req) as [_ [->| ->]];
      rewrite ?app_nil_r; auto.
Qed.

Lemma params_stage_calls (props : list (string * value)) (now : Z)
    (store : gmap string (list Z)) (cs : list stage) (req : request) :
  let rate := if truthy (assoc "rateLimit" props) then [SRate] else [] in
  let h := params_stage (VObject props) now store cs req in
  calls h = cs ++ [SParams]
  ∨ calls h = cs ++ [SParams] ++ rate
  ∨ calls h = cs ++ [SParams] ++ rate ++ [SExec].
Proof.
  unfold params_stage, internal_error. simpl.
  destruct (validateParameters _ _) as [v|]; simpl; [|auto].
  destruct (valid v); simpl; [|auto].
  destruct (rate_stage_calls props now store (cs ++ [SParams]) req) as [-> | ->];
    rewrite <- ?app_assoc; auto.
Qed.

(** Every run calls the guards in the one order, and stops at some point
    of it. *)
Lemma withValidation_calls (props : list (string * value)) (token : option string)
    (now : Z) (store : gmap string (list Z)) (req : request) :
  let auth := if truthy (assoc "authentication" props) then [SAuth] else [] in
  let rate := if truthy (assoc "rateLimit" props) then [SRate] else [] in
  let h := withValidation (VObject props) token now store req in
  (truthy (assoc "authentication" props) = true ∧ calls h = [SAuth])
  ∨ calls h = auth ++ [SParams]
  ∨ calls h = auth ++ [SParams] ++ rate
  ∨ calls h = auth ++ [SParams] ++ rate ++ [SExec].
Proof.
  unfold withValidation. simpl.
  destruct (truthy (assoc "authentication" props)) eqn:Hauth.
  - destruct (validateAuthentication token req); simpl; [|auto].
    right. apply (params_stage_calls props now store [SAuth] req).
  - right. apply (params_stage_calls props now store [] req).
Qed.

(** C5. The handler of a registered plugin calls authentication (when the
    plugin asks for it), parameter validation, the rate limiter (when
    configured) and [exec] in that order and stops at the first failure:
    [exec] is called only after every guard; a refused authentication
    answers with its status, leaves the rate-limit store untouched and calls
    nothing else; a failed parameter validation answers 400 with the store
    untouched, whatever the store holds for the client; a rate-limit denial
    answers 429 without calling [exec]; a guard that throws is answered 500
    and nothing is called after it; and a request that every guard lets
    through reaches [exec], after all of them, with the store the limiter
    left, and is answered as [exec] and its timeout decide. *)
Theorem guard_pipeline_short_circuits (props : list (string * value))
    (token : option string) (now : Z) (store : gmap string (list Z)) (req : request) :
  let plugin := VObject props in
  let auth := if truthy (assoc "authentication" props) then [SAuth] else [] in
  let h := withValidation plugin token now store req in
  calls h `prefix_of` stage_order props ∧
  (SExec ∈ calls h → calls h = stage_order props) ∧
  (∀ st msg,
     truthy (assoc "authentication" props) = true →
     validateAuthentication token req = AuthInvalid st msg →
     sent h = Some {| status := st; rbody := BError msg |}
     ∧ store_after h = store ∧ calls h = [SAuth]) ∧
  (∀ v,
     authenticated props token req →
     validateParameters plugin req = Ok v → valid v = false →
     sent h = Some {| status := 400; rbody := BValidation (errors v) |}
     ∧ store_after h = store ∧ calls h = auth ++ [SParams]) ∧
  (∀ v r store',
     authenticated props token req →
     validateParameters plugin req = Ok v → valid v = true →
     truthy (assoc "rateLimit" props) = true →
     checkRateLimit store now req plugin = Ok (r, store') → allowed r = false →
     sent h = Some {| status := 429; rbody := BRateLimited (retryAfter r) |}
     ∧ store_after h = store ∧ calls h = auth ++ [SParams; SRate]) ∧
  (∀ e,
     authenticated props token req →
     validateParameters plugin req = Throw e →
     sent h = Some {| status := 500; rbody := BInternal |}
     ∧ store_after h = store ∧ calls h = auth ++ [SParams]) ∧
  (∀ v e,
     authenticated props token req →
     validateParameters plugin req = Ok v → valid v = true →
     truthy (assoc "rateLimit" props) = true →
     checkRateLimit store now req plugin = Throw e →
     sent h = Some {| status := 500; rbody := BInternal |}
     ∧ store_after h = store ∧ calls h = auth ++ [SParams; SRate]) ∧
  (∀ v fid store',
     authenticated props token req →
     validateParameters plugin req = Ok v → valid v = true →
     (truthy (assoc "rateLimit" props) = false ∧ store' = store
      ∨ truthy (assoc "rateLimit" props) = true
        ∧ ∃ r, checkRateLimit store now req plugin = Ok (r, store')
               ∧ allowed r = true) →
     assoc "exec" props = VFunction fid →
     calls h = stage_order props
     ∧ SExec ∈ calls h
     ∧ store_after h = store'
     ∧ sent h = match run_exec fid req with
                | ExecReplied st => Some {| status := st; rbody := BPlugin |}
                | ExecSilent => None
                | ExecFailed (Some st) => Some {| status := st; rbody := BPlugin |}
                | ExecFailed None => Some {| status := 500; rbody := BInternal |}
                | ExecThrewNullish (Some st) => Some {| status := st; rbody := BPlugin |}
                | ExecThrewNullish None => None
                end).
Proof.
  intros plugin auth h. split; [|split; [|split; [|split; [|split; [|split; [|split]]]]]].
  - destruct (withValidation_calls props token now store req) as [[Ha Hc]|[Hc|[Hc|Hc]]];
      subst h plugin; rewrite Hc; unfold stage_order; try rewrite Ha.
    + eexists. reflexivity.
    + eexists. rewrite <- app_assoc. reflexivity.
    + exists [SExec]. rewrite <- !app_assoc. reflexivity.
    + exists []. rewrite app_nil_r. reflexivity.
  - intros Hexec.
    destruct (withValidation_calls props token now store req) as [[Ha Hc]|[Hc|[Hc|Hc]]];
      subst h plugin; rewrite Hc in Hexec |- *; unfold stage_order; [| | |done];
      exfalso; revert Hexec;
      destruct (truthy (assoc "authentication" props));
      destruct (truthy (assoc "rateLimit" props)); simpl;
      rewrite ?elem_of_cons, ?elem_of_nil; naive_solver.
  - intros st msg Ha Hv. subst h plugin. unfold withValidation. simpl.
    rewrite Ha, Hv. done.
  - intros v Hauth Hv Hinvalid. subst h plugin.
    rewrite withValidation_authenticated by done.
    unfold params_stage. rewrite Hv, Hinvalid. done.
  - intros v r store' Hauth Hv Hvalid Hrl Hc Hdenied. subst h plugin.
    rewrite withValidation_authenticated by done.
    unfold params_stage. rewrite Hv, Hvalid.
    unfold rate_stage. simpl. rewrite Hrl, Hc, Hdenied. simpl.
    rewrite (checkRateLimit_denied_store _ _ _ _ _ _ Hc Hdenied).
    rewrite <- app_assoc. done.
  - intros e Hauth Hv. subst h plugin.
    rewrite withValidation_authenticated by done.
    unfold params_stage. by rewrite Hv.
  - intros v e Hauth Hv Hvalid Hrl Hc. subst h plugin.
    rewrite withValidation_authenticated by done.
    unfold params_stage. rewrite Hv, Hvalid.
    unfold rate_stage. simpl. rewrite Hrl, Hc. simpl.
    rewrite <- app_assoc. done.
  - intros v fid store' Hauth Hv Hvalid Hrate Hexec. subst h plugin.
    rewrite withValidation_authenticated by done.
    unfold params_stage. rewrite Hv, Hvalid.
    unfold rate_stage, stage_order. simpl. fold auth.
    destruct Hrate as [[Hrl ->] | (Hrl & r & Hc & Hallowed)]; rewrite Hrl.
    + unfold exec_stage. simpl. rewrite Hexec. simpl.
      split; [by rewrite <- !app_assoc|].
      split; [rewrite !elem_of_app, !elem_of_cons; auto|]. done.
    + rewrite Hc, Hallowed. unfold exec_stage. simpl. rewrite Hexec. simpl.
      split; [by rewrite <- !app_assoc|].
      split; [rewrite !elem_of_app, !elem_of_cons; auto|]. done.
Qed.

(** One admitted request to a plugin with a numeric rate limit. *)
Lemma withValidation_rate_limited (props rl : list (string * value))
    (token : option string) (now : Z) (store : gmap string (list Z)) (req : request)
    (limit window : Z) (fid : nat) :
  assoc "rateLimit" props = VObject rl →
  assoc "limit" rl = VNum (Int limit) →
  assoc "window" rl = VNum (Int window) →
  assoc "exec" props = VFunction fid →
  admitted props token req →
  let auth := if truthy (assoc "authentication" props) then [SAuth] else [] in
  let key := rate_key props req in
  let pruned :=
    List.filter (λ t, bool_decide (now - t < window)%Z) (default [] (store !! key)) in
  let h := withValidation (VObject props) token now store req in
  if bool_decide (limit ≤ Z.of_nat (length pruned))%Z then
    h = {| sent := Some {| status := 429;
                           rbody := BRateLimited
                             (Some (num_ceil_div1000
                                      (num_sub (Int window)
                                         (num_sub (Int now) (oldest pruned))))) |};
           store_after := store;
           calls := auth ++ [SParams; SRate] |}
  else
    store_after h = <[key := pruned ++ [now]]> store
    ∧ calls h = auth ++ [SParams; SRate; SExec].
Proof.
  intros Hrl Hlimit Hwindow Hexec [Hauth (v & Hv & Hvalid)] auth key pruned h.
  subst h. rewrite withValidation_authenticated by done.
  unfold params_stage. rewrite Hv, Hvalid.
  unfold rate_stage. simpl. rewrite Hrl. simpl.
  unfold checkRateLimit. simpl. rewrite Hrl. simpl. rewrite Hlimit, Hwindow. simpl.
  rewrite prune_window. fold (rate_key props req). fold key. fold pruned.
  rewrite to_number_num. unfold num_ge, num_lt.
  case_bool_decide as Hle.
  - rewrite bool_decide_false by lia. simpl. rewrite <- app_assoc. done.
  - rewrite bool_decide_true by lia. simpl.
    unfold exec_stage. simpl. rewrite Hexec. simpl.
    split; [done|]. rewrite <- !app_assoc. done.
Qed.

(** C3 (amended). With [rateLimit = {limit: 3, window: 1000}] (the field
    the code reads is [window]), five admitted requests of one client at
    times t1 <= t2 <= t3 <= t4 <= t5, the fourth less than 1000 ms after the
    first and the fifth at least 1000 ms after it: the first three reach
    [exec], the fourth is answered 429 with
    [retryAfter = ceil((1000 - (t4 - t1)) / 1000)] and does not reach
    [exec], and the fifth reaches [exec] again. *)
Theorem rate_limit_three_per_window (props rl : list (string * value))
    (token : option string) (store : gmap string (list Z)) (fid : nat)
    (r1 r2 r3 r4 r5 : request) (t1 t2 t3 t4 t5 : Z) :
  assoc "rateLimit" props = VObject rl →
  assoc "limit" rl = VNum (Int 3) →
  assoc "window" rl = VNum (Int 1000) →
  assoc "exec" props = VFunction fid →
  Forall (λ r, req_ip r = req_ip r1 ∧ admitted props token r) [r1; r2; r3; r4; r5] →
  store !! rate_key props r1 = None →
  (t1 ≤ t2 ≤ t3)%Z → (t3 ≤ t4 ≤ t5)%Z → (t4 - t1 < 1000)%Z → (1000 ≤ t5 - t1)%Z →
  ∃ h1 h2 h3 h4 h5,
    serve (VObject props) token store [(t1, r1); (t2, r2); (t3, r3); (t4, r4); (t5, r5)]
    = [h1; h2; h3; h4; h5]
    ∧ SExec ∈ calls h1 ∧ SExec ∈ calls h2 ∧ SExec ∈ calls h3
    ∧ sent h4 = Some {| status := 429;
                        rbody := BRateLimited
                                   (Some (Int (ceil_div1000 (1000 - (t4 - t1))))) |}
    ∧ (SExec ∉ calls h4)
    ∧ SExec ∈ calls h5.
Proof.
  intros Hrl Hlimit Hwindow Hexec Hreqs Hfresh Ht123 Ht345 Hin Hout.
  repeat (apply Forall_cons in Hreqs as [[? ?] Hreqs]).
  assert (Hkey : ∀ r, req_ip r = req_ip r1 → rate_key props r = rate_key props r1)
    by (intros r Hr; unfold rate_key; by rewrite Hr).
  set (key := rate_key props r1) in *.
  assert (Hexec_in : ∀ cs, SExec ∈ cs ++ [SParams; SRate; SExec]).
  { intros cs. rewrite elem_of_app, !elem_of_cons. auto. }
  assert (Hexec_out : ∀ cs, (cs = [SAuth] ∨ cs = []) → SExec ∉ cs ++ [SParams; SRate]).
  { intros cs [-> | ->]; rewrite elem_of_app, !elem_of_cons, ?elem_of_nil; naive_solver. }
  simpl. eexists _, _, _, _, _. split; [reflexivity|].
  (* first request *)
  pose proof (withValidation_rate_limited props rl token t1 store r1 3 1000 fid
                Hrl Hlimit Hwindow Hexec ltac:(done)) as Hq1.
  cbv zeta in Hq1. fold key in Hq1. rewrite Hfresh in Hq1. simpl in Hq1. destruct Hq1 as [Hs1 Hc1].
  rewrite Hs1, Hc1.
  (* second request *)
  pose proof (withValidation_rate_limited props rl token t2 (<[key := [t1]]> store) r2
                3 1000 fid Hrl Hlimit Hwindow Hexec ltac:(done)) as Hq2.
  cbv zeta in Hq2. rewrite (Hkey r2), lookup_insert_eq in Hq2 by done. simpl in Hq2.
  rewrite (bool_decide_true (t2 - t1 < 1000)%Z) in Hq2 by lia. simpl in Hq2.
  destruct Hq2 as [Hs2 Hc2].
  rewrite Hs2, Hc2, insert_insert_eq.
  (* third request *)
  pose proof (withValidation_rate_limited props rl token t3 (<[key := [t1; t2]]> store) r3
                3 1000 fid Hrl Hlimit Hwindow Hexec ltac:(done)) as Hq3.
  cbv zeta in Hq3. rewrite (Hkey r3), lookup_insert_eq in Hq3 by done. simpl in Hq3.
  rewrite (bool_decide_true (t3 - t1 < 1000)%Z),
    (bool_decide_true (t3 - t2 < 1000)%Z) in Hq3 by lia. simpl in Hq3.
  destruct Hq3 as [Hs3 Hc3].
  rewrite Hs3, Hc3, insert_insert_eq.
  (* fourth request: denied *)
  pose proof (withValidation_rate_limited props rl token t4
                (<[key := [t1; t2; t3]]> store) r4
                3 1000 fid Hrl Hlimit Hwindow Hexec ltac:(done)) as Hq4.
  cbv zeta in Hq4. rewrite (Hkey r4), lookup_insert_eq in Hq4 by done. simpl in Hq4.
  rewrite (bool_decide_true (t4 - t1 < 1000)%Z),
    (bool_decide_true (t4 - t2 < 1000)%Z),
    (bool_decide_true (t4 - t3 < 1000)%Z) in Hq4 by lia. simpl in Hq4.
  rewrite Hq4. simpl.
  (* fifth request *)
  pose proof (withValidation_rate_limited props rl token t5
                (<[key := [t1; t2; t3]]> store) r5
                3 1000 fid Hrl Hlimit Hwindow Hexec ltac:(done)) as Hq5.
  cbv zeta in Hq5. rewrite (Hkey r5), lookup_insert_eq in Hq5 by done. simpl in Hq5.
  rewrite (bool_decide_false (t5 - t1 < 1000)%Z) in Hq5 by lia.
  assert (Hc5 : calls (withValidation (VObject props) token t5
                         (<[key := [t1; t2; t3]]> store) r5)
                = (if truthy (assoc "authentication" props) then [SAuth] else [])
                  ++ [SParams; SRate; SExec]).
  { destruct (bool_decide (t5 - t2 < 1000)%Z), (bool_decide (t5 - t3 < 1000)%Z);
      simpl in H5; apply Hq5. }
  rewrite Hc5.
  repeat split; auto.
  - do 3 f_equal. unfold oldest. simpl.
    rewrite num_min_inf, !num_min_int. unfold num_sub, num_ceil_div1000.
    do 3 f_equal. lia.
  - apply Hexec_out. destruct (truthy _); auto.
Qed.

End Pipeline.

(** Five requests to the plugin limited to three per second, at 0, 100,
    200, 300 and 1000 ms. *)
Lemma rate_limit_three_per_window_witness :
  ∃ h1 h2 h3 h4 h5,
    @serve sample_host (VObject limited_props) None ∅
      [(0, get_request []); (100, get_request []); (200, get_request []);
       (300, get_request []); (1000, get_request [])]%Z
    = [h1; h2; h3; h4; h5]
    ∧ SExec ∈ calls h1 ∧ SExec ∈ calls h2 ∧ SExec ∈ calls h3
    ∧ sent h4 = Some {| status := 429;
                        rbody := BRateLimited
                                   (Some (Int (ceil_div1000 (1000 - (300 - 0))))) |}
    ∧ (SExec ∉ calls h4)
    ∧ SExec ∈ calls h5.
Proof.
  apply (@rate_limit_three_per_window sample_host limited_props limited_rateLimit
           None ∅ 4).
  - reflexivity.
  - reflexivity.
  - reflexivity.
  - reflexivity.
  - repeat constructor; try (left; reflexivity);
      exists {| valid := true; errors := [] |}; split; reflexivity.
  - reflexivity.
  - lia.
  - lia.
  - lia.
  - lia.
Defined.

(** C3, as stated, fails: with the schema's field [windowMs] the code
    reads [window] as [undefined], every comparison with it is false, no
    timestamp survives the pruning, and the fourth request within the
    second is served like the first three. *)
Lemma rate_limit_windowMs_counterexample :
  map (λ h, status <$> sent h)
      (@serve sample_host schema_limited_plugin None ∅
         [(0, get_request []); (100, get_request []); (200, get_request []);
          (300, get_request [])]%Z)
  = [Some 200; Some 200; Some 200; Some 200]%Z
  ∧ ¬ (∃ h, @serve sample_host schema_limited_plugin None ∅
              [(0, get_request []); (100, get_request []); (200, get_request []);
               (300, get_request [])]%Z !! 3%nat = Some h
            ∧ status <$> sent h = Some 429%Z).
Proof.
  split; [vm_compute; reflexivity|].
  intros (h & Hh & Hs). vm_compute in Hh. injection Hh as <-.
  vm_compute in Hs. discriminate.
Qed.

(** ** Parameter validation *)

Section Parameters.
Context `{Host}.

Lemma assoc_not_own (props : list (string * value)) (k : string) :
  has_own k props = false → assoc k props = VUndefined.
Proof.
  induction props as [|[k' v] props IH]; simpl; [done|].
  destruct (String.eqb k' k); [done|exact IH].
Qed.

(** A name that [Object.prototype] does not have is read from the object
    itself. *)
Lemma get_prop_object (props : list (string * value)) (k : string) :
  is_inherited k = false →
  get_prop (VObject props) k = Ok (assoc k props).
Proof. intros Hk. unfold get_prop, object_get. by rewrite Hk. Qed.

(** Each check pushes at most its own violation. *)
Lemma check_type_pushes (v name type : value) (errs errs' : list violation) :
  check_type v name type errs = Ok errs' →
  errs' = errs ∨ errs' = errs ++ [TypeMismatch name type].
Proof.
  unfold check_type. destruct (truthy type); [|naive_solver].
  destruct (validateType v type) as [[]|]; simpl; naive_solver.
Qed.

Lemma check_min_pushes (v name min : value) (errs errs' : list violation) :
  check_min v name min errs = Ok errs' →
  errs' = errs ∨ errs' = errs ++ [TooShort name min].
Proof.
  unfold check_min. destruct (strict_eq min VUndefined); [naive_solver|].
  destruct (get_prop v "length") as [len|]; simpl; [|done].
  destruct (js_lt len min); naive_solver.
Qed.

Lemma check_max_pushes (v name max : value) (errs errs' : list violation) :
  check_max v name max errs = Ok errs' →
  errs' = errs ∨ errs' = errs ++ [TooLong name max].
Proof.
  unfold check_max. destruct (strict_eq max VUndefined); [naive_solver|].
  destruct (get_prop v "length") as [len|]; simpl; [|done].
  destruct (js_lt max len); naive_solver.
Qed.

Lemma check_pattern_pushes (v name pattern : value) (errs errs' : list violation) :
  check_pattern v name pattern errs = Ok errs' →
  errs' = errs ∨ errs' = errs ++ [BadFormat name].
Proof.
  unfold check_pattern. destruct (truthy pattern); [|naive_solver].
  destruct (regexp_test_value _ v) as [[]|]; simpl; naive_solver.
Qed.

(** The callback on an object spec, read off the spec's properties. *)
Lemma check_param_object (source : value) (spec : list (string * value))
    (errs : list violation) (v : value) :
  get_prop source (to_string (assoc "name" spec)) = Ok v →
  check_param source (VObject spec) errs
  = if truthy (declared_required spec) && negb (truthy v)
    then Ok (errs ++ [Required (assoc "name" spec)])
    else if strict_eq v VUndefined then Ok errs
    else
      e1 ← check_type v (assoc "name" spec) (assoc "type" spec) errs;
      e2 ← check_min v (assoc "name" spec) (assoc "min" spec) e1;
      e3 ← check_max v (assoc "name" spec) (assoc "max" spec) e2;
      check_pattern v (assoc "name" spec) (assoc "pattern" spec) e3.
Proof.
  intros Hv. unfold check_param, check_object_param, declared_required.
  rewrite !get_prop_object by reflexivity. simpl. rewrite Hv. reflexivity.
Qed.

(** What a callback pushes does not depend on what [errors] holds. *)
Lemma check_type_app (v name type : value) (errs : list violation) :
  check_type v name type errs
  = added ← check_type v name type []; Ok (errs ++ added).
Proof.
  unfold check_type. destruct (truthy type); simpl; [|by rewrite app_nil_r].
  destruct (validateType v type) as [[]|]; simpl; by rewrite ?app_nil_r.
Qed.

Lemma check_min_app (v name min : value) (errs : list violation) :
  check_min v name min errs
  = added ← check_min v name min []; Ok (errs ++ added).
Proof.
  unfold check_min. destruct (strict_eq min VUndefined); simpl; [by rewrite app_nil_r|].
  destruct (get_prop v "length") as [len|]; simpl; [|done].
  destruct (js_lt len min); by rewrite ?app_nil_r.
Qed.

Lemma check_max_app (v name max : value) (errs : list violation) :
  check_max v name max errs
  = added ← check_max v name max []; Ok (errs ++ added).
Proof.
  unfold check_max. destruct (strict_eq max VUndefined); simpl; [by rewrite app_nil_r|].
  destruct (get_prop v "length") as [len|]; simpl; [|done].
  destruct (js_lt max len); by rewrite ?app_nil_r.
Qed.

Lemma check_pattern_app (v name pattern : value) (errs : list violation) :
  check_pattern v name pattern errs
  = added ← check_pattern v name pattern []; Ok (errs ++ added).
Proof.
  unfold check_pattern. destruct (truthy pattern); simpl; [|by rewrite app_nil_r].
  destruct (regexp_test_value _ v) as [[]|]; simpl; by rewrite ?app_nil_r.
Qed.

Lemma check_object_param_app (source param : value) (errs : list violation) :
  check_object_param source param errs
  = added ← check_object_param source param []; Ok (errs ++ added).
Proof.
  unfold check_object_param.
  destruct (get_prop param "name") as [name|]; simpl; [|done].
  destruct (get_prop param "required") as [required0|]; simpl; [|done].
  destruct (get_prop param "type") as [type|]; simpl; [|done].
  destruct (get_prop param "min") as [min|]; simpl; [|done].
  destruct (get_prop param "max") as [max|]; simpl; [|done].
  destruct (get_prop param "pattern") as [pattern|]; simpl; [|done].
  destruct (get_prop source (to_string name)) as [v|]; simpl; [|done].
  destruct (_ && _); [done|].
  destruct (strict_eq v VUndefined); simpl; [by rewrite app_nil_r|].
  rewrite (check_type_app v name type errs).
  destruct (check_type v name type []) as [a1|]; simpl; [|done].
  rewrite (check_min_app v name min (errs ++ a1)), (check_min_app v name min a1).
  destruct (check_min v name min []) as [a2|]; simpl; [|done].
  rewrite (check_max_app v name max ((errs ++ a1) ++ a2)),
    (check_max_app v name max (a1 ++ a2)).
  destruct (check_max v name max []) as [a3|]; simpl; [|done].
  rewrite (check_pattern_app v name pattern (((errs ++ a1) ++ a2) ++ a3)),
    (check_pattern_app v name pattern ((a1 ++ a2) ++ a3)).
  destruct (check_pattern v name pattern []) as [a4|]; simpl; [|done].
  by rewrite <- !app_assoc.
Qed.

Lemma check_param_app (source param : value) (errs : list violation) :
  check_param source param errs
  = added ← check_param source param []; Ok (errs ++ added).
Proof.
  destruct param; simpl; rewrite ?app_nil_r; try done;
    try apply check_object_param_app.
  destruct (get_prop source s) as [v|]; simpl; [|done].
  destruct (truthy v); by rewrite ?app_nil_r.
Qed.

(** [forEach] over the specs: the violations of each spec, one after the
    other. *)
Lemma forEach_param_cons (source param : value) (rest : list value) :
  forEach_param source (param :: rest) []
  = c ← check_param source param [];
    cs ← forEach_param source rest [];
    Ok (c ++ cs).
Proof.
  assert (Happ : ∀ params errs,
            forEach_param source params errs
            = added ← forEach_param source params []; Ok (errs ++ added)).
  { induction params as [|q params IH]; intros errs; simpl; [by rewrite app_nil_r|].
    rewrite (check_param_app source q errs).
    destruct (check_param source q []) as [c|]; simpl; [|done].
    rewrite (IH (errs ++ c)), (IH c).
    destruct (forEach_param source params []) as [cs|]; simpl; [|done].
    by rewrite app_assoc. }
  simpl. destruct (check_param source param []) as [c|]; simpl; [|done].
  apply Happ.
Qed.

Lemma forEach_param_concat (source : value) (params : list value)
    (cs : list (list violation)) :
  Forall2 (λ param c, check_param source param [] = Ok c) params cs →
  forEach_param source params [] = Ok (concat cs).
Proof.
  induction 1 as [|param c params cs Hc _ IH]; [done|].
  rewrite forEach_param_cons, Hc. simpl. rewrite IH. done.
Qed.

Lemma object_checks_push (v name type min max pattern : value)
    (errs' : list violation) :
  (e1 ← check_type v name type [];
   e2 ← check_min v name min e1;
   e3 ← check_max v name max e2;
   check_pattern v name pattern e3) = Ok errs' →
  ∀ e, e ∈ errs' →
    e = TypeMismatch name type ∨ e = TooShort name min
    ∨ e = TooLong name max ∨ e = BadFormat name.
Proof.
  destruct (check_type v name type []) as [e1|] eqn:H1; simpl; [|done].
  destruct (check_min v name min e1) as [e2|] eqn:H2; simpl; [|done].
  destruct (check_max v name max e2) as [e3|] eqn:H3; simpl; [|done].
  intros H4 e.
  apply check_type_pushes in H1. apply check_min_pushes in H2.
  apply check_max_pushes in H3. apply check_pattern_pushes in H4.
  destruct H1 as [-> | ->], H2 as [-> | ->], H3 as [-> | ->], H4 as [-> | ->];
    simpl; rewrite ?elem_of_app, ?elem_of_cons, ?elem_of_nil; naive_solver.
Qed.


Lemma strict_eq_str (v : value) (s : string) :
  strict_eq v (VStr s) = true → v = VStr s.
Proof.
  destruct v; simpl; try done. intros Heq. f_equal. by apply String.eqb_eq.
Qed.

Lemma validateType_unrecognized (v type : value) :
  unrecognized type → validateType v type = Ok true.
Proof.
  intros Hun. unfold validateType.
  assert (Hno : ∀ t, t ∈ known_types → strict_eq type (VStr t) = false).
  { intros t Ht. destruct (strict_eq type (VStr t)) eqn:Heq; [|done].
    apply strict_eq_str in Heq. by destruct (Hun t Ht). }
  unfold known_types in Hno.
  rewrite !Hno by (rewrite !elem_of_cons; auto 10). done.
Qed.

Lemma check_type_unrecognized (v name type : value) (errs : list violation) :
  unrecognized type → check_type v name type errs = Ok errs.
Proof.
  intros Hun. unfold check_type. destruct (truthy type); [|done].
  by rewrite (validateType_unrecognized v type Hun).
Qed.

(** [validatePlugin] reads [path], [method] and [exec] and nothing else. *)
Lemma validatePlugin_reads (props props' : list (string * value)) (file file' : string) :
  assoc "path" props = assoc "path" props' →
  assoc "method" props = assoc "method" props' →
  assoc "exec" props = assoc "exec" props' →
  validatePlugin (VObject props) file = validatePlugin (VObject props') file'.
Proof.
  intros Hpath Hmethod Hexec. unfold validatePlugin. simpl.
  by rewrite Hpath, Hmethod, Hexec.
Qed.

(** C9. Under a type name outside string, number, boolean, email and url
    (such as the "text" of the bundled plugin) [validateType] accepts every
    value; [validatePlugin] gives the same verdict whatever the descriptor
    declares as [parameter]; and a spec of such a type never adds a
    type-mismatch violation to the errors of a request. *)
Theorem unrecognized_type_is_accepted (type : value) :
  unrecognized type →
  (∀ v, validateType v type = Ok true)
  ∧ (∀ props parameter file,
       validatePlugin (VObject (("parameter", parameter) :: props)) file
       = validatePlugin (VObject props) file)
  ∧ (∀ source spec errs errs',
       assoc "type" spec = type →
       check_param source (VObject spec) errs = Ok errs' →
       ∀ e, e ∈ errs' → is_type_mismatch e = true → e ∈ errs).
Proof.
  intros Hun. split; [|split].
  - intros v. by apply validateType_unrecognized.
  - intros props parameter file. by apply validatePlugin_reads.
  - intros source spec errs errs' Htype Hc e Hin Hmis.
    destruct (get_prop source (to_string (assoc "name" spec))) as [v|] eqn:Hv.
    2:{ unfold check_param, check_object_param in Hc.
        rewrite !get_prop_object in Hc by reflexivity. simpl in Hc. by rewrite Hv in Hc. }
    rewrite (check_param_object source spec errs v Hv) in Hc.
    destruct (_ && _).
    { simplify_eq. apply elem_of_app in Hin as [?|Hin]; [done|].
      apply list_elem_of_singleton in Hin. by subst e. }
    destruct (strict_eq v VUndefined); [by simplify_eq|].
    rewrite Htype, (check_type_unrecognized v _ type errs Hun) in Hc. simpl in Hc.
    destruct (check_min v _ _ errs) as [e2|] eqn:H2; simpl in Hc; [|done].
    destruct (check_max v _ _ e2) as [e3|] eqn:H3; simpl in Hc; [|done].
    apply check_min_pushes in H2. apply check_max_pushes in H3.
    apply check_pattern_pushes in Hc.
    destruct H2 as [-> | ->], H3 as [-> | ->], Hc as [-> | ->];
      revert Hin; rewrite ?elem_of_app, ?elem_of_cons, ?elem_of_nil;
      intros Hin; destruct_or?; subst; done.
Qed.

End Parameters.



Lemma text_unrecognized : unrecognized (VStr "text").
Proof.
  intros t Ht. unfold known_types in Ht.
  rewrite !elem_of_cons, elem_of_nil in Ht.
  destruct Ht as [->|[->|[->|[->|[->|[]]]]]]; discriminate.
Defined.

(** The type "text" of the bundled ping plugin. *)
Lemma unrecognized_type_is_accepted_witness :
  @validateType sample_host (VNum (Int 42)) (VStr "text") = Ok true.
Proof.
  destruct (@unrecognized_type_is_accepted sample_host (VStr "text") text_unrecognized)
    as [Hv _].
  apply Hv.
Defined.

(** ** Manifest validation and loading *)

Section Registry.
Context `{Host}.

Lemma startsWith_slash_truthy (p : string) :
  startsWith p "/" = true → truthy (VStr p) = true.
Proof. by destruct p. Qed.

Lemma validatePlugin_valid (props : list (string * value)) (file : string) :
  valid_descriptor props →
  validatePlugin (VObject props) file = Ok {| mvalid := true; merrors := [] |}.
Proof.
  intros [(p & Hp & Hslash) [(fid & Hexec) Hmethod]].
  unfold validatePlugin. simpl. rewrite Hp, Hexec. simpl.
  pose proof (startsWith_slash_truthy p Hslash) as Htruthy. simpl in Htruthy.
  rewrite Htruthy. simpl.
  unfold path_without_slash. simpl. rewrite Htruthy.
  destruct Hmethod as [-> | (m & -> & Hm)]; simpl.
  - rewrite Hslash. done.
  - rewrite Hm, Hslash. done.
Qed.

(** Conversely, an object that [validatePlugin] accepts is a valid
    descriptor. *)
Lemma validatePlugin_accepts (props : list (string * value)) (file : string)
    (v : manifest_validation) :
  validatePlugin (VObject props) file = Ok v → mvalid v = true →
  valid_descriptor props.
Proof.
  unfold validatePlugin. simpl. intros Hv Hvalid.
  destruct (call_toUpperCase _) as [upper|] eqn:Hupper; simpl in Hv; [|done].
  destruct (path_without_slash _) as [noslash|] eqn:Hnoslash; simpl in Hv; [|done].
  simplify_eq/=. apply bool_decide_eq_true in Hvalid.
  assert (Hpush : ∀ (l : list manifest_error) x, length (l ++ [x]) ≠ 0%nat)
    by (intros l x; rewrite length_app; simpl; lia).
  destruct noslash; [by apply Hpush in Hvalid|].
  destruct (allowed_method upper) eqn:Hallowed; simpl in Hvalid;
    [|by apply Hpush in Hvalid].
  destruct (typeof (assoc "exec" props) =? "function")%string eqn:Hexec;
    simpl in Hvalid; [|by apply Hpush in Hvalid].
  destruct (assoc "path" props) as [| |b|n|p|?|?|?] eqn:Hp; simpl in Hvalid;
    rewrite ?orb_true_r in Hvalid; try done.
  destruct (p =? "")%string eqn:Hempty; simpl in Hvalid; [done|].
  unfold path_without_slash in Hnoslash. simpl in Hnoslash.
  rewrite Hempty in Hnoslash. simpl in Hnoslash.
  split; [exists p; split; [done|]; simplify_eq; by apply negb_false_iff|].
  split; [destruct (assoc "exec" props); try done; eauto|].
  destruct (assoc "method" props) as [| |?|?|m|?|?|?]; simpl in Hupper;
    try done; [by left|].
  right. exists m. split; [done|]. by simplify_eq.
Qed.

(** With a method that is a string or absent and a path that is a string
    or falsy, [validatePlugin] returns a verdict. *)
Lemma validatePlugin_returns (props : list (string * value)) (file : string) :
  (truthy (assoc "path" props) = false ∨ ∃ p, assoc "path" props = VStr p) →
  (assoc "method" props = VUndefined ∨ ∃ m, assoc "method" props = VStr m) →
  ∃ v, validatePlugin (VObject props) file = Ok v.
Proof.
  intros Hpath Hmethod. unfold validatePlugin, path_without_slash. simpl.
  destruct Hmethod as [-> | [m ->]]; simpl.
  - destruct Hpath as [-> | [p ->]]; simpl; [eauto|].
    destruct (negb (p =? "")%string); simpl; eauto.
  - destruct Hpath as [-> | [p ->]]; simpl; [eauto|].
    destruct (negb (p =? "")%string); simpl; eauto.
Qed.

(** A method that is present and not a string has no [toUpperCase]. *)
Lemma validatePlugin_method_throws (props : list (string * value)) (file : string) :
  assoc "method" props ≠ VUndefined → (∀ m, assoc "method" props ≠ VStr m) →
  validatePlugin (VObject props) file = Throw TypeError.
Proof.
  intros Hpresent Hnostring. unfold validatePlugin. simpl.
  destruct (assoc "method" props) as [| |?|?|m|?|?|?]; try done.
  by destruct (Hnostring m).
Qed.

(** A truthy path that is not a string has no [startsWith]. *)
Lemma validatePlugin_path_throws (props : list (string * value)) (file : string) :
  truthy (assoc "path" props) = true → (∀ p, assoc "path" props ≠ VStr p) →
  ∃ e, validatePlugin (VObject props) file = Throw e.
Proof.
  intros Htruthy Hnostring. unfold validatePlugin. simpl.
  destruct (call_toUpperCase _); simpl; [|eauto].
  unfold path_without_slash. rewrite Htruthy.
  destruct (assoc "path" props) as [| |?|?|p|?|?|?]; simpl; eauto.
  by destruct (Hnostring p).
Qed.


End Registry.



(** ** The route stack and the Route Entries *)

Lemma count_routes_app (p key : string) (l1 l2 : list layer) :
  count_routes p key (l1 ++ l2) = count_routes p key l1 + count_routes p key l2.
Proof. unfold count_routes. by rewrite List.filter_app, length_app. Qed.

Lemma count_routes_mount (p key p' key' : string) (stack : list layer) :
  count_routes p key (mounted stack key' p')
  = count_routes p key stack + (if decide (p' = p ∧ key' = key) then 1 else 0).
Proof.
  unfold mounted. rewrite count_routes_app. f_equal.
  unfold count_routes, layer_matches. simpl.
  destruct (String.eqb_spec p' p) as [->|Hp]; simpl.
  - rewrite orb_false_r. destruct (String.eqb_spec key key') as [->|Hk].
    + by rewrite decide_True.
    + rewrite decide_False; [done|]. naive_solver.
  - rewrite decide_False; [done|]. naive_solver.
Qed.

Lemma count_routes_filter_le (p key : string) (f : layer → bool) (stack : list layer) :
  count_routes p key (List.filter f stack) ≤ count_routes p key stack.
Proof.
  unfold count_routes. induction stack as [|l stack IH]; simpl; [done|].
  destruct (f l), (layer_matches p key l) eqn:Hm; simpl; rewrite ?Hm; simpl; lia.
Qed.

Lemma count_routes_unmounted (p key : string) (stack : list layer) :
  count_routes p key (List.filter (λ l, negb (layer_matches p key l)) stack) = 0.
Proof.
  unfold count_routes. induction stack as [|l stack IH]; simpl; [done|].
  destruct (layer_matches p key l) eqn:Hm; simpl; rewrite ?Hm; done.
Qed.

Section RouteTable.
Context `{Host}.

Lemma owners_insert (p key file : string) (e : route_entry)
    (routes : gmap string route_entry) :
  routes !! file = None →
  owners p key (<[file := e]> routes)
  = owners p key routes + (if decide (entry_at p key e) then 1 else 0).
Proof.
  intros Hfresh. unfold owners. destruct (decide (entry_at p key e)) as [He|He].
  - rewrite map_filter_insert_True by done.
    rewrite map_size_insert_None; [lia|].
    by rewrite map_lookup_filter_None; left.
  - rewrite map_filter_insert_False by done.
    rewrite delete_id by done. lia.
Qed.

Lemma owners_delete (p key file : string) (e : route_entry)
    (routes : gmap string route_entry) :
  routes !! file = Some e →
  owners p key routes
  = owners p key (delete file routes) + (if decide (entry_at p key e) then 1 else 0).
Proof.
  intros Hfile. rewrite <- (insert_delete_id routes file e Hfile) at 1.
  apply owners_insert, lookup_delete_eq.
Qed.

Lemma owners_empty (p key : string) : owners p key ∅ = 0.
Proof. unfold owners. by rewrite map_filter_empty, map_size_empty. Qed.

Lemma verb_key_lower (m key : string) :
  verb_key m = Ok key → key = toLowerCase m.
Proof.
  unfold verb_key.
  destruct (String.eqb_spec m "GET") as [->|_]; [by intros [= <-]|].
  destruct (String.eqb_spec m "POST") as [->|_]; [by intros [= <-]|].
  destruct (String.eqb_spec m "PUT") as [->|_]; [by intros [= <-]|].
  destruct (String.eqb_spec m "DELETE") as [->|_]; [by intros [= <-]|].
  destruct (String.eqb_spec m "PATCH") as [->|_]; [by intros [= <-]|].
  done.
Qed.

Lemma registerRoute_ok (s s' : state) (plugin : value) (file : string) :
  registerRoute s plugin file = Ok s' →
  ∃ e, app_stack s' = mounted (app_stack s) (toLowerCase (method e)) (routePath e)
       ∧ routes s' = <[file := e]> (routes s)
       ∧ plugins s' = plugins s
       ∧ endpoints s' = endpoints s.
Proof.
  unfold registerRoute, mount. intros Hr.
  destruct (method_of plugin) as [m|]; simpl in Hr; [|done].
  destruct (path_of plugin) as [p|]; simpl in Hr; [|done].
  destruct (verb_key m) as [key|] eqn:Hkey; simpl in Hr; [|done].
  destruct (compile_path p); simpl in Hr; [done|].
  apply verb_key_lower in Hkey as ->. injection Hr as <-.
  by exists {| routePath := p; method := m |}.
Qed.

Lemma updateEndpointsRegistry_ok (s s' : state) (plugin : value) (file : string) :
  updateEndpointsRegistry s plugin file = Ok s' →
  app_stack s' = app_stack s ∧ routes s' = routes s ∧ plugins s' = plugins s.
Proof.
  unfold updateEndpointsRegistry. intros Hu.
  repeat (match type of Hu with
          | (?c ≫= _) = _ => destruct c; simpl in Hu; [|done]
          end).
  by simplify_eq/=.
Qed.

Lemma unregisterPlugin_routes (s : state) (file : string) :
  routes (unregisterPlugin s file) = delete file (routes s).
Proof.
  unfold unregisterPlugin. destruct (routes s !! file) eqn:Hf; simpl; [done|].
  by rewrite delete_id.
Qed.

Lemma unregisterPlugin_plugins (s : state) (file : string) :
  dom (routes s) = dom (plugins s) →
  plugins (unregisterPlugin s file) = delete file (plugins s).
Proof.
  intros Hdom. unfold unregisterPlugin.
  destruct (routes s !! file) eqn:Hf; simpl; [done|].
  rewrite delete_id; [done|].
  apply not_elem_of_dom. rewrite <- Hdom. by apply not_elem_of_dom.
Qed.

Lemma unregisterPlugin_bounded (stack0 : list layer) (s : state) (file : string) :
  stack_bounded stack0 s → stack_bounded stack0 (unregisterPlugin s file).
Proof.
  intros Hb p key. rewrite unregisterPlugin_routes.
  unfold unregisterPlugin. destruct (routes s !! file) as [e|] eqn:Hf; simpl.
  - specialize (Hb p key). rewrite (owners_delete p key file e _ Hf) in Hb.
    destruct (decide (entry_at p key e)) as [[<- <-]|_].
    + rewrite count_routes_unmounted. lia.
    + pose proof (count_routes_filter_le p key
                    (λ l, negb (layer_matches (routePath e) (toLowerCase (method e)) l))
                    (app_stack s)).
      lia.
  - rewrite delete_id by done. apply Hb.
Qed.

Lemma loadPlugin_bounded (stack0 : list layer) (s : state) (file : string) (src : source) :
  dom (routes s) = dom (plugins s) → stack_bounded stack0 s →
  dom (routes (loadPlugin s file src).2) = dom (plugins (loadPlugin s file src).2)
  ∧ stack_bounded stack0 (loadPlugin s file src).2.
Proof.
  intros Hdom Hb. unfold loadPlugin.
  destruct src as [| |plugin]; simpl; [done|done|].
  destruct (validatePlugin plugin file) as [v|]; simpl; [|done].
  destruct (mvalid v); simpl; [|done].
  pose proof (unregisterPlugin_bounded stack0 s file Hb) as Hb1.
  assert (Hdom1 : dom (routes (unregisterPlugin s file))
                  = dom (plugins (unregisterPlugin s file))).
  { rewrite unregisterPlugin_routes, unregisterPlugin_plugins by done.
    by rewrite !dom_delete_L, Hdom. }
  destruct (registerRoute _ plugin file) as [s2|] eqn:Hr; simpl; [|done].
  apply registerRoute_ok in Hr as (e & Hstack & Hroutes & Hplugins & _).
  assert (Hdom3 : dom (routes s2)
                  = dom (<[file := plugin]> (plugins s2))).
  { by rewrite Hroutes, Hplugins, !dom_insert_L, Hdom1. }
  assert (Hb3 : ∀ p key, count_routes p key (app_stack s2)
                         ≤ count_routes p key stack0 + owners p key (routes s2)).
  { intros p key. rewrite Hstack, Hroutes, count_routes_mount.
    rewrite owners_insert
      by (rewrite unregisterPlugin_routes; apply lookup_delete_eq).
    specialize (Hb1 p key).
    destruct (decide (routePath e = p ∧ toLowerCase (method e) = key)) as [He|He];
      [rewrite decide_True by done|rewrite decide_False by done]; lia. }
  destruct (updateEndpointsRegistry _ plugin file) as [s4|] eqn:Hu; simpl; [|done].
  apply updateEndpointsRegistry_ok in Hu as (Hs & Hr & Hp). simpl in *.
  split; [by rewrite Hr, Hp|].
  intros p key. rewrite Hs, Hr. apply Hb3.
Qed.

(** The invariant of the registry, over any calls. *)
Lemma registry_invariant (stack0 : list layer) (calls : list call) :
  let s := foldl perform (fresh stack0) calls in
  dom (routes s) = dom (plugins s) ∧ stack_bounded stack0 s.
Proof.
  induction calls as [|c calls IH] using rev_ind; simpl.
  - split; [done|]. intros p key. simpl. lia.
  - rewrite foldl_snoc. destruct IH as [Hdom Hb].
    destruct c as [file src|file]; simpl.
    + by apply loadPlugin_bounded.
    + split; [|by apply unregisterPlugin_bounded].
      rewrite unregisterPlugin_routes, unregisterPlugin_plugins by done.
      by rewrite !dom_delete_L, Hdom.
Qed.

Lemma allowed_method_cases (m : string) :
  allowed_method m = true →
  m = "GET" ∨ m = "POST" ∨ m = "PUT" ∨ m = "DELETE" ∨ m = "PATCH".
Proof.
  unfold allowed_method, allowedMethods. simpl.
  rewrite !orb_true_iff, !String.eqb_eq. naive_solver.
Qed.

(** What [registerRoute] does with a valid descriptor. *)
Lemma registerRoute_valid (s : state) (file : string) (props : list (string * value)) :
  valid_descriptor props →
  registerRoute s (VObject props) file
  = match compile_path (routePath (entry_of props)) with
    | None =>
        Ok {| app_stack := mounted (app_stack s) (toLowerCase (method (entry_of props)))
                             (routePath (entry_of props));
              routes := <[file := entry_of props]> (routes s);
              plugins := plugins s;
              endpoints := endpoints s |}
    | Some e => Throw e
    end.
Proof.
  intros [(p & Hp & Hslash) [(fid & Hexec) Hmethod]].
  unfold registerRoute, mount, method_of, path_of, entry_of.
  rewrite !get_prop_object by reflexivity. rewrite Hp. cbn [routePath method].
  destruct Hmethod as [Hm | (m & Hm & Hallowed)]; rewrite Hm; simpl.
  - by destruct (compile_path p).
  - apply allowed_method_cases in Hallowed.
    destruct (is_ascii m);
      destruct Hallowed as [-> | [-> | [-> | [-> | ->]]]]; simpl;
      by destruct (compile_path p).
Qed.

(** Loading a valid descriptor whose path the router compiles: the old
    route of the file is unmounted, the new one mounted, and the three
    records of the file written. *)
Lemma loadPlugin_valid (s : state) (file : string) (props : list (string * value)) :
  valid_descriptor props → mountable props →
  loadPlugin s file (Exports (VObject props))
  = (Returned true,
     let s1 := unregisterPlugin s file in
     let e := entry_of props in
     {| app_stack := mounted (app_stack s1) (toLowerCase (method e)) (routePath e);
        routes := <[file := e]> (routes s1);
        plugins := <[file := VObject props]> (plugins s1);
        endpoints := endpoints s1 ++ [endpoint_of props file] |}).
Proof.
  intros Hvalid Hmount. unfold loadPlugin.
  rewrite (validatePlugin_valid props file Hvalid). simpl.
  rewrite (registerRoute_valid _ file props Hvalid). unfold mountable in Hmount.
  rewrite Hmount.
  destruct Hvalid as [(p & Hp & Hslash) [(fid & Hexec) Hmethod]].
  unfold updateEndpointsRegistry, method_of, path_of, endpoint_of, entry_of.
  rewrite !get_prop_object by reflexivity. rewrite Hp.
  destruct Hmethod as [Hm | (m & Hm & Hallowed)]; rewrite Hm; simpl; [done|].
  apply allowed_method_cases in Hallowed.
  destruct (is_ascii m);
    destruct Hallowed as [-> | [-> | [-> | [-> | ->]]]]; done.
Qed.

(** Loading a valid descriptor whose path the router refuses: the old
    route of the file is unmounted and the load returns false. *)
Lemma loadPlugin_unmountable (s : state) (file : string) (props : list (string * value)) :
  valid_descriptor props → ¬ mountable props →
  loadPlugin s file (Exports (VObject props))
  = (Returned false, unregisterPlugin s file).
Proof.
  intros Hvalid Hmount. unfold loadPlugin.
  rewrite (validatePlugin_valid props file Hvalid). simpl.
  rewrite (registerRoute_valid _ file props Hvalid). unfold mountable in Hmount.
  by destruct (compile_path (routePath (entry_of props))).
Qed.

(** Loads of one file only, with valid descriptors that the router
    compiles: the file's entry is the only Route Entry and its route has
    just been mounted. *)
Lemma loads_of_one_file (stack0 : list layer) (file : string) (calls : list call) :
  (∀ c, c ∈ calls →
     ∃ props, c = Load file (Exports (VObject props))
              ∧ valid_descriptor props ∧ mountable props) →
  let s := foldl perform (fresh stack0) calls in
  (calls = [] ∧ routes s = ∅)
  ∨ ∃ e, routes s = {[file := e]}
         ∧ 1 ≤ count_routes (routePath e) (toLowerCase (method e)) (app_stack s).
Proof.
  induction calls as [|c calls IH] using rev_ind; simpl; intros Hcalls; [by left|].
  right. rewrite foldl_snoc.
  destruct (Hcalls c) as (props & -> & Hvalid & Hmount); [set_solver|].
  cbn -[loadPlugin foldl]. rewrite (loadPlugin_valid _ file props Hvalid Hmount).
  cbn [snd app_stack routes]. exists (entry_of props). split.
  - rewrite unregisterPlugin_routes.
    destruct IH as [[_ ->] | (e & -> & _)]; [set_solver| |].
    + by rewrite delete_empty, insert_empty.
    + by rewrite delete_singleton_eq, insert_empty.
  - rewrite count_routes_mount, decide_True by done. lia.
Qed.

(** C1 (amended). After any load and unregister calls, from a fresh manager
    next to an application with route stack [stack0]: the files with a Route
    Entry are the files with a Plugin Handle (one entry per file, the
    routes being a map); for every path and method the route stack holds at
    most the entries [stack0] had plus one per file whose Route Entry is
    that path and method, so at most one where the application had none and
    at most one file has that route recorded; and after loads of one file
    only, with valid descriptors whose paths the router compiles, the file
    has the only Route Entry and the stack holds exactly one entry for its
    path and method, if [stack0] had none for them. *)
Theorem route_stack_invariant (stack0 : list layer) (calls : list call) :
  let s := foldl perform (fresh stack0) calls in
  dom (routes s) = dom (plugins s)
  ∧ stack_bounded stack0 s
  ∧ (∀ p key, count_routes p key stack0 = 0 → owners p key (routes s) ≤ 1 →
       count_routes p key (app_stack s) ≤ 1)
  ∧ (∀ file,
       (∀ c, c ∈ calls →
          ∃ props, c = Load file (Exports (VObject props))
                   ∧ valid_descriptor props ∧ mountable props) →
       calls ≠ [] →
       ∃ e, routes s = {[file := e]}
            ∧ (count_routes (routePath e) (toLowerCase (method e)) stack0 = 0 →
               count_routes (routePath e) (toLowerCase (method e)) (app_stack s) = 1)).
Proof.
  intros s. destruct (registry_invariant stack0 calls) as [Hdom Hb]. fold s in Hdom, Hb.
  split; [done|]. split; [done|]. split.
  - intros p key H0 H1. specialize (Hb p key). lia.
  - intros file Hcalls Hne.
    destruct (loads_of_one_file stack0 file calls Hcalls) as [[? _] | (e & Hr & Hge)];
      [done|].
    fold s in Hr, Hge. exists e. split; [done|]. intros Hclean.
    specialize (Hb (routePath e) (toLowerCase (method e))).
    rewrite Hclean, Hr in Hb.
    replace ({[file := e]} : gmap string route_entry) with (<[file := e]> (∅ : gmap string route_entry)) in Hb
      by apply insert_empty.
    rewrite owners_insert, owners_empty, decide_True in Hb by done.
    lia.
Qed.

End RouteTable.

(** The bundled ping plugin loaded, changed to answer [/api/pong] and
    reloaded. *)
Lemma route_stack_invariant_witness :
  ∃ e, routes (foldl (@perform sample_host) (fresh [])
                 [Load "ping.js" (Exports ping_plugin);
                  Load "ping.js"
                    (Exports (VObject [("path", VStr "/api/pong");
                                       ("exec", VFunction 0)]))])
       = {[ "ping.js" := e ]}
       ∧ (count_routes (routePath e) (@toLowerCase sample_host (method e)) [] = 0 →
          count_routes (routePath e) (@toLowerCase sample_host (method e))
            (app_stack (foldl (@perform sample_host) (fresh [])
                          [Load "ping.js" (Exports ping_plugin);
                           Load "ping.js"
                             (Exports (VObject [("path", VStr "/api/pong");
                                                ("exec", VFunction 0)]))]))
          = 1).
Proof.
  destruct (@route_stack_invariant sample_host []
              [Load "ping.js" (Exports ping_plugin);
               Load "ping.js"
                 (Exports (VObject [("path", VStr "/api/pong");
                                    ("exec", VFunction 0)]))])
    as (_ & _ & _ & Hone).
  apply (Hone "ping.js"); [|discriminate].
  intros c Hc. rewrite !elem_of_cons, elem_of_nil in Hc.
  destruct Hc as [-> | [-> | []]]; eexists; (split; [reflexivity|]).
  - split; [|reflexivity].
    split; [exists "/api/ping"; split; reflexivity|].
    split; [exists 0; reflexivity|]. right. exists "GET". split; reflexivity.
  - split; [|reflexivity].
    split; [exists "/api/pong"; split; reflexivity|].
    split; [exists 0; reflexivity|]. left. reflexivity.
Defined.

(** C1, as stated, fails: after two files that declare the same path and
    method are loaded one after the other the stack holds two entries for
    them, since [loadPlugin] only unmounts the route recorded for the file
    it loads. *)
Lemma two_files_one_route_counterexample :
  count_routes "/api/ping" "get"
    (app_stack (foldl (@perform sample_host) (fresh [])
                  [Load "ping.js" (Exports ping_plugin);
                   Load "ping-copy.js" (Exports ping_plugin)]))
  = 2
  ∧ ¬ (∀ calls p key,
         count_routes p key (app_stack (foldl (@perform sample_host) (fresh []) calls))
         ≤ 1).
Proof.
  assert (Htwo : count_routes "/api/ping" "get"
                   (app_stack (foldl (@perform sample_host) (fresh [])
                                 [Load "ping.js" (Exports ping_plugin);
                                  Load "ping-copy.js" (Exports ping_plugin)]))
                 = 2) by (vm_compute; reflexivity).
  split; [exact Htwo|].
  intros Hclaim.
  specialize (Hclaim [Load "ping.js" (Exports ping_plugin);
                      Load "ping-copy.js" (Exports ping_plugin)]
                     "/api/ping" "get").
  rewrite Htwo in Hclaim. lia.
Qed.

(** ** Listing endpoints *)

Section Sorting.
Context {A : Type} (cmp : A → A → result Z).

Lemma array_sort_short (l : list A) : length l < 2 → array_sort cmp l = Ok l.
Proof.
  destruct l as [|x [|y l]]; simpl; [done|done|lia].
Qed.

(** With two elements or more the comparator is called, and what it throws
    leaves the sort. *)
Lemma array_sort_throws (e : exn) (l : list A) :
  2 ≤ length l →
  (∀ x y, x ∈ l → y ∈ l → cmp x y = Throw e) →
  array_sort cmp l = Throw e.
Proof.
  destruct l as [|x [|y l]]; simpl; [lia|lia|]. intros _ Hcmp.
  unfold array_sort. simpl. rewrite (Hcmp y x) by set_solver. done.
Qed.

Lemma insert_sorted_total (x : A) (sorted : list A) :
  (∀ y, y ∈ sorted → ∃ c, cmp x y = Ok c) →
  ∃ sorted', insert_sorted cmp x sorted = Ok sorted' ∧ sorted' ≡ₚ x :: sorted.
Proof.
  induction sorted as [|y sorted IH]; simpl; intros Hcmp; [eauto|].
  destruct (Hcmp y) as [c ->]; [set_solver|]. simpl.
  case_bool_decide; [eauto|].
  destruct IH as (sorted' & -> & Hperm); [intros z Hz; apply Hcmp; set_solver|].
  simpl. eexists. split; [done|]. rewrite Hperm. apply Permutation_swap.
Qed.

Lemma sort_into_total (sorted todo : list A) :
  (∀ x y, x ∈ sorted ++ todo → y ∈ sorted ++ todo → ∃ c, cmp x y = Ok c) →
  ∃ r, sort_into cmp sorted todo = Ok r ∧ r ≡ₚ sorted ++ todo.
Proof.
  revert sorted. induction todo as [|x todo IH]; simpl; intros sorted Hcmp.
  - exists sorted. by rewrite app_nil_r.
  - destruct (insert_sorted_total x sorted) as (sorted' & -> & Hperm).
    { intros y Hy. apply Hcmp; set_solver. }
    simpl. destruct (IH sorted') as (r & -> & Hr).
    { intros a b Ha Hb. apply Hcmp.
      - rewrite Hperm in Ha. set_solver.
      - rewrite Hperm in Hb. set_solver. }
    exists r. split; [done|]. rewrite Hr, Hperm. simpl. apply Permutation_middle.
Qed.

(** With a comparator that returns on the elements, the sort returns a
    rearrangement of the array. *)
Lemma array_sort_total (l : list A) :
  (∀ x y, x ∈ l → y ∈ l → ∃ c, cmp x y = Ok c) →
  ∃ r, array_sort cmp l = Ok r ∧ r ≡ₚ l.
Proof. intros Hcmp. by apply (sort_into_total [] l). Qed.

Lemma insert_sorted_perm (x : A) (sorted sorted' : list A) :
  insert_sorted cmp x sorted = Ok sorted' → sorted' ≡ₚ x :: sorted.
Proof.
  revert sorted'. induction sorted as [|y sorted IH]; simpl; intros sorted' Hins.
  - by simplify_eq.
  - destruct (cmp x y) as [c|]; simpl in Hins; [|done].
    case_bool_decide; [by simplify_eq|].
    destruct (insert_sorted cmp x sorted) as [rest|]; simpl in Hins; [|done].
    simplify_eq. rewrite (IH rest eq_refl). apply Permutation_swap.
Qed.

(** An element inserted into a list in order leaves it in order, when the
    comparator decides the order: a negative answer puts the first
    argument first, another one the second. *)
Lemma insert_sorted_sorted (R : A → A → Prop) (x : A) (sorted sorted' : list A) :
  (∀ a b c, R a b → R b c → R a c) →
  (∀ y c, y ∈ sorted → cmp x y = Ok c → if bool_decide (c < 0)%Z then R x y else R y x) →
  StronglySorted R sorted →
  insert_sorted cmp x sorted = Ok sorted' →
  StronglySorted R sorted'.
Proof.
  intros Htrans. revert sorted'.
  induction sorted as [|y sorted IH]; simpl; intros sorted' Hcmp Hsorted Hins.
  - simplify_eq. repeat constructor.
  - apply StronglySorted_inv in Hsorted as [Hsorted Hy].
    destruct (cmp x y) as [c|] eqn:Hc; simpl in Hins; [|done].
    pose proof (Hcmp y c ltac:(set_solver) Hc) as Hxy.
    case_bool_decide.
    + simplify_eq. constructor; [by constructor|].
      constructor; [done|]. eapply List.Forall_impl; [|exact Hy].
      intros z Hz. by apply (Htrans x y z).
    + destruct (insert_sorted cmp x sorted) as [rest|] eqn:Hrest; simpl in Hins; [|done].
      simplify_eq. constructor.
      * apply (IH rest); [|done|done]. intros z c' Hz. apply Hcmp. set_solver.
      * apply insert_sorted_perm in Hrest.
        apply Forall_forall. intros z Hz. rewrite Hrest in Hz.
        apply elem_of_cons in Hz as [-> | Hz]; [done|].
        rewrite Forall_forall in Hy. by apply Hy.
Qed.

Lemma sort_into_sorted (R : A → A → Prop) (sorted todo r : list A) :
  (∀ a b c, R a b → R b c → R a c) →
  (∀ x y c, x ∈ sorted ++ todo → y ∈ sorted ++ todo → cmp x y = Ok c →
     if bool_decide (c < 0)%Z then R x y else R y x) →
  StronglySorted R sorted →
  sort_into cmp sorted todo = Ok r →
  StronglySorted R r.
Proof.
  intros Htrans. revert sorted.
  induction todo as [|x todo IH]; simpl; intros sorted Hcmp Hsorted Hr.
  - by simplify_eq.
  - destruct (insert_sorted cmp x sorted) as [sorted'|] eqn:Hins; simpl in Hr; [|done].
    pose proof (insert_sorted_perm _ _ _ Hins) as Hperm.
    apply (IH sorted'); [|by eapply insert_sorted_sorted;
                            [done| |done|exact Hins]; intros y c Hy;
                            apply Hcmp; set_solver|done].
    intros a b c Ha Hb. apply Hcmp.
    + rewrite Hperm in Ha. set_solver.
    + rewrite Hperm in Hb. set_solver.
Qed.

(** With a comparator that decides an order, the array the sort returns is
    in that order. *)
Lemma array_sort_sorted (R : A → A → Prop) (l r : list A) :
  (∀ a b c, R a b → R b c → R a c) →
  (∀ x y c, x ∈ l → y ∈ l → cmp x y = Ok c →
     if bool_decide (c < 0)%Z then R x y else R y x) →
  array_sort cmp l = Ok r →
  StronglySorted R r.
Proof.
  intros Htrans Hcmp Hr. apply (sort_into_sorted R [] l r); [done|done| |done].
  constructor.
Qed.

End Sorting.

Section Endpoints.
Context `{Host}.

Lemma compare_by_not_string (fprops : list (string * value)) (a b : endpoint) :
  is_string (endpoint_get a (to_string (assoc "sortBy" fprops))) = false →
  is_string (endpoint_get b (to_string (assoc "sortBy" fprops))) = false →
  compare_by (VObject fprops) a b = Throw TypeError.
Proof.
  intros Ha Hb. unfold compare_by. rewrite !get_prop_object by reflexivity. simpl.
  destruct (strict_eq _ _).
  - by destruct (endpoint_get b _).
  - by destruct (endpoint_get a _).
Qed.

Lemma compare_by_string (fprops : list (string * value)) (a b : endpoint) :
  is_string (endpoint_get a (to_string (assoc "sortBy" fprops))) = true →
  is_string (endpoint_get b (to_string (assoc "sortBy" fprops))) = true →
  ∃ c, compare_by (VObject fprops) a b = Ok c.
Proof.
  intros Ha Hb. unfold compare_by. rewrite !get_prop_object by reflexivity. simpl.
  destruct (strict_eq _ _).
  - destruct (endpoint_get b _); try done. simpl. eauto.
  - destruct (endpoint_get a _); try done. simpl. eauto.
Qed.

(** The flags of an endpoint are booleans, its path and method strings. *)
Lemma endpoint_flags_not_strings (e : endpoint) :
  is_string (endpoint_get e "deprecated") = false
  ∧ is_string (endpoint_get e "authentication") = false.
Proof. done. Qed.

Lemma endpoint_route_strings (e : endpoint) :
  is_string (endpoint_get e "path") = true
  ∧ is_string (endpoint_get e "method") = true.
Proof. done. Qed.

(** On the endpoint of a descriptor, [rateLimit] and [parameter] hold what
    the descriptor declares (an object, an array) or [null] and [[]], and
    [name], [description] and [version] hold strings when the descriptor
    declares strings or nothing. *)
Lemma endpoint_of_fields (props : list (string * value)) (file : string) :
  (is_string (assoc "rateLimit" props) = false →
   is_string (endpoint_get (endpoint_of props file) "rateLimit") = false)
  ∧ (is_string (assoc "parameter" props) = false →
     is_string (endpoint_get (endpoint_of props file) "parameter") = false)
  ∧ (∀ k, k ∈ ["name"; "description"; "version"] →
       is_string (assoc k props) = true ∨ truthy (assoc k props) = false →
       is_string (endpoint_get (endpoint_of props file) k) = true).
Proof.
  split; [|split].
  - intros Hrl. change (is_string (js_or (assoc "rateLimit" props) VNull) = false).
    unfold js_or. by destruct (truthy (assoc "rateLimit" props)).
  - intros Hp. change (is_string (js_or (assoc "parameter" props) (VArray [])) = false).
    unfold js_or. by destruct (truthy (assoc "parameter" props)).
  - intros k Hk Hv. rewrite !elem_of_cons, elem_of_nil in Hk.
    destruct Hk as [-> | [-> | [-> | []]]].
    + change (is_string (js_or (assoc "name" props) (VStr (strip_js file))) = true).
      unfold js_or. destruct Hv as [Hv | ->]; [|done].
      by destruct (truthy (assoc "name" props)).
    + change (is_string (js_or (assoc "description" props) (VStr "")) = true).
      unfold js_or. destruct Hv as [Hv | ->]; [|done].
      by destruct (truthy (assoc "description" props)).
    + change (is_string (js_or (assoc "version" props) (VStr "1.0.0")) = true).
      unfold js_or. destruct Hv as [Hv | ->]; [|done].
      by destruct (truthy (assoc "version" props)).
Qed.

(** On endpoints that hold strings under [sortBy], the comparator is
    [localeCompare] on them, with the arguments swapped for "desc". *)
Lemma compare_by_strings (fprops : list (string * value)) (a b : endpoint) (x y : string) :
  endpoint_get a (to_string (assoc "sortBy" fprops)) = VStr x →
  endpoint_get b (to_string (assoc "sortBy" fprops)) = VStr y →
  compare_by (VObject fprops) a b
  = Ok (if strict_eq (assoc "sortOrder" fprops) (VStr "desc")
        then localeCompare y x else localeCompare x y).
Proof.
  intros Ha Hb. unfold compare_by. rewrite !get_prop_object by reflexivity. simpl.
  rewrite Ha, Hb. by destruct (strict_eq _ _).
Qed.

Lemma field_order_trans (k : string) (desc : bool) :
  (∀ x y z, (localeCompare x y ≤ 0)%Z → (localeCompare y z ≤ 0)%Z →
            (localeCompare x z ≤ 0)%Z) →
  ∀ a b c, field_order k desc a b → field_order k desc b c → field_order k desc a c.
Proof.
  intros Htrans a b c. unfold field_order.
  destruct (endpoint_get a k) as [| |?|?|x|?|?|?]; try done.
  destruct (endpoint_get b k) as [| |?|?|y|?|?|?]; try done.
  destruct (endpoint_get c k) as [| |?|?|z|?|?|?]; try done.
  destruct desc; intros Hab Hbc.
  - by apply (Htrans z y x).
  - by apply (Htrans x y z).
Qed.

(** C10 (amended). [getEndpoints] with a [sortBy] that names a field whose
    value is not a string on the filtered endpoints (as [deprecated] and
    [authentication] always are), nor an object with a [localeCompare] of
    its own, throws a TypeError when at least two endpoints pass the
    filters; with fewer than two the comparator is never called and the
    filtered list is returned. Without [sortBy] the call returns what the
    filters return. With a [sortBy] that names a field holding strings (as
    [path] and [method] always do), the call returns the filtered
    endpoints rearranged, and, [localeCompare] being an ordering of the
    strings (of two strings one does not collate after the other, and
    collating not after is transitive), in order: an endpoint never comes
    before one whose field collates before its own, or after its own when
    [sortOrder] is "desc". *)
Theorem getEndpoints_sortBy (s : state) (fprops : list (string * value))
    (filtered : list endpoint) :
  filter_endpoints s (VObject fprops) = Ok filtered →
  let k := to_string (assoc "sortBy" fprops) in
  let desc := strict_eq (assoc "sortOrder" fprops) (VStr "desc") in
  (truthy (assoc "sortBy" fprops) = false →
     getEndpoints s (VObject fprops) = Ok filtered)
  ∧ (truthy (assoc "sortBy" fprops) = true →
       (length filtered < 2 → getEndpoints s (VObject fprops) = Ok filtered)
       ∧ (2 ≤ length filtered →
          (∀ e, e ∈ filtered →
             is_string (endpoint_get e k) = false
             ∧ lacks_own (endpoint_get e k) "localeCompare") →
          getEndpoints s (VObject fprops) = Throw TypeError)
       ∧ ((∀ e, e ∈ filtered → is_string (endpoint_get e k) = true) →
          ∃ sorted, getEndpoints s (VObject fprops) = Ok sorted
                    ∧ sorted ≡ₚ filtered
                    ∧ ((∀ x y, (0 ≤ localeCompare x y)%Z → (localeCompare y x ≤ 0)%Z) →
                       (∀ x y z, (localeCompare x y ≤ 0)%Z → (localeCompare y z ≤ 0)%Z →
                                 (localeCompare x z ≤ 0)%Z) →
                       StronglySorted (field_order k desc) sorted)))
  ∧ (∀ e, is_string (endpoint_get e "deprecated") = false
          ∧ is_string (endpoint_get e "authentication") = false
          ∧ is_string (endpoint_get e "path") = true
          ∧ is_string (endpoint_get e "method") = true).
Proof.
  intros Hf k desc. unfold getEndpoints. simpl. rewrite Hf. simpl.
  split; [by intros ->|]. split; [|done].
  intros ->. split; [|split].
  - apply array_sort_short.
  - intros Hlen Hns. apply array_sort_throws; [done|].
    intros x y Hx Hy. apply compare_by_not_string; by apply Hns.
  - intros Hstr.
    destruct (array_sort_total (compare_by (VObject fprops)) filtered)
      as (sorted & Hsort & Hperm).
    { intros x y Hx Hy. apply compare_by_string; by apply Hstr. }
    exists sorted. split; [done|]. split; [done|]. intros Hanti Htrans.
    apply (array_sort_sorted (compare_by (VObject fprops)) _ filtered);
      [by apply field_order_trans| |done].
    intros a b c Ha Hb Hc.
    pose proof (Hstr a Ha) as Hsa. pose proof (Hstr b Hb) as Hsb.
    destruct (endpoint_get a k) as [| |?|?|x|?|?|?] eqn:Hxa; try done.
    destruct (endpoint_get b k) as [| |?|?|y|?|?|?] eqn:Hyb; try done.
    rewrite (compare_by_strings fprops a b x y Hxa Hyb) in Hc.
    fold desc in Hc. unfold field_order. rewrite Hxa, Hyb.
    injection Hc as <-.
    destruct desc; case_bool_decide; try lia; apply Hanti; lia.
Qed.

End Endpoints.

(** The collation of the sample host is an ordering of the strings. *)
Lemma sample_localeCompare_ordering :
  (∀ x y, (0 ≤ @localeCompare sample_host x y)%Z → (@localeCompare sample_host y x ≤ 0)%Z)
  ∧ (∀ x y z, (@localeCompare sample_host x y ≤ 0)%Z →
              (@localeCompare sample_host y z ≤ 0)%Z →
              (@localeCompare sample_host x z ≤ 0)%Z).
Proof.
  split.
  - intros x y. simpl. rewrite (String.compare_antisym x y).
    destruct (String.compare y x); simpl; lia.
  - intros x y z. simpl.
    destruct (String.compare x y) eqn:Hxy; [| |lia].
    + apply String.compare_eq_iff in Hxy as ->. done.
    + destruct (String.compare y z) eqn:Hyz; [| |lia].
      * apply String.compare_eq_iff in Hyz as <-. rewrite Hxy. lia.
      * intros _ _.
        apply String_as_OT.cmp_lt in Hxy, Hyz.
        pose proof (String_as_OT.lt_trans _ _ _ Hxy Hyz) as Hxz.
        apply String_as_OT.cmp_lt in Hxz.
        change (String_as_OT.cmp x z) with (String.compare x z) in Hxz.
        rewrite Hxz. lia.
Qed.

(** The two bundled plugins listed by [deprecated]. *)
Lemma getEndpoints_sortBy_witness :
  @getEndpoints sample_host two_plugins (VObject [("sortBy", VStr "deprecated")])
  = Throw TypeError.
Proof.
  destruct (@getEndpoints_sortBy sample_host two_plugins
              [("sortBy", VStr "deprecated")]
              [@endpoint_of sample_host ping_props "ping.js";
               @endpoint_of sample_host docs_props "docs.js"]
              eq_refl) as (_ & Hsort & _).
  destruct (Hsort eq_refl) as (_ & Hthrows & _).
  apply Hthrows; [simpl; lia|].
  intros e He. rewrite !elem_of_cons, elem_of_nil in He.
  destruct He as [-> | [-> | []]]; split; reflexivity.
Defined.

(** C10, as stated, fails: with one endpoint (or none) the sort calls no
    comparator and [sortBy: "deprecated"] returns the list. *)
Lemma sortBy_flag_single_endpoint_counterexample :
  @getEndpoints sample_host one_plugin (VObject [("sortBy", VStr "deprecated")])
  = Ok [@endpoint_of sample_host ping_props "ping.js"]
  ∧ ¬ (∀ s, ∃ e, @getEndpoints sample_host s (VObject [("sortBy", VStr "deprecated")])
                 = Throw e).
Proof.
  split; [vm_compute; reflexivity|].
  intros Hclaim. destruct (Hclaim one_plugin) as [e He].
  vm_compute in He. discriminate He.
Qed.

(** ** Hot reload *)

Lemma endsWith_js_not_empty (f : string) :
  endsWith f ".js" = true → String.eqb f "" = false.
Proof.
  destruct f as [|c f]; intros Hjs; [|reflexivity].
  vm_compute in Hjs. discriminate Hjs.
Qed.

Lemma on_change_plugin_file (now : Z) (f : string) (w : watcher) :
  endsWith f ".js" = true → isShuttingDown w = false →
  on_change now (Some f) w = debouncePluginReload now f w.
Proof.
  intros Hjs Hup. unfold on_change.
  by rewrite (endsWith_js_not_empty f Hjs), Hjs, Hup.
Qed.

Lemma last_cons_default {A : Type} (l : list A) :
  ∀ x d : A, List.last (x :: l) d = List.last l x.
Proof.
  induction l as [|y l IH]; intros x d; [done|].
  change (List.last (y :: l) d = List.last (y :: l) x).
  by rewrite (IH y d), (IH y x).
Qed.

(** A burst of changes leaves one pending timer, for the file of the last
    change, and reloads nothing meanwhile. *)
Lemma run_burst (rest : list (Z * string)) (t : Z) (f : string) (w : watcher) :
  pluginReloadTimeout w = Some ((t + 1000)%Z, f) →
  isShuttingDown w = false →
  within_window t rest →
  Forall (λ ev, endsWith ev.2 ".js" = true) rest →
  let w' := run (changed <$> rest) w in
  reloaded w' = reloaded w
  ∧ isShuttingDown w' = false
  ∧ pluginReloadTimeout w'
    = Some (((List.last rest (t, f)).1 + 1000)%Z, (List.last rest (t, f)).2).
Proof.
  revert t f w. induction rest as [|[t' f'] rest IH]; intros t f w Htimer Hup Hwin Hjs;
    [done|].
  destruct Hwin as [Ht Hwin]. apply Forall_cons in Hjs as [Hjs' Hjs]. simpl in Hjs'.
  assert (Hstep : deliver w (changed (t', f')) = debouncePluginReload t' f' w).
  { unfold deliver, fire, changed. simpl. rewrite Htimer.
    rewrite bool_decide_false by lia. by apply on_change_plugin_file. }
  rewrite fmap_cons. unfold run.
  change (foldl deliver w (changed (t', f') :: (changed <$> rest)))
    with (foldl deliver (deliver w (changed (t', f'))) (changed <$> rest)).
  rewrite Hstep.
  destruct (IH t' f' (debouncePluginReload t' f' w)) as (Hr & Hs & Hp); try done.
  unfold run in Hr, Hs, Hp.
  split; [done|]. split; [done|].
  unfold run in Hp. rewrite Hp.
  by rewrite (last_cons_default rest (t', f') (t, f)).
Qed.

(** C2 (amended). The debounce is one timer for the whole directory: of a
    burst of change notifications for plugin files, each less than 1000 ms
    after the one before, nothing is reloaded while the burst lasts and
    exactly one reload follows, of the file of the last notification; so
    repeated changes of one file collapse into one reload of that file. *)
Theorem debounce_reloads_last_file (t0 : Z) (f0 : string) (rest : list (Z * string)) :
  Forall (λ ev, endsWith ev.2 ".js" = true) ((t0, f0) :: rest) →
  within_window t0 rest →
  let w := run (changed <$> (t0, f0) :: rest) idle in
  reloaded w = []
  ∧ eventually_reloaded w = [(List.last rest (t0, f0)).2]
  ∧ (Forall (λ ev, ev.2 = f0) rest → eventually_reloaded w = [f0]).
Proof.
  intros Hjs Hwin w. apply Forall_cons in Hjs as [Hjs0 Hjs]. simpl in Hjs0.
  assert (Hfirst : deliver idle (changed (t0, f0)) = debouncePluginReload t0 f0 idle).
  { unfold deliver, changed. cbn [fst snd].
    change (fire t0 idle) with idle. by apply on_change_plugin_file. }
  subst w. rewrite fmap_cons. unfold run.
  change (foldl deliver idle (changed (t0, f0) :: (changed <$> rest)))
    with (foldl deliver (deliver idle (changed (t0, f0))) (changed <$> rest)).
  rewrite Hfirst.
  destruct (run_burst rest t0 f0 (debouncePluginReload t0 f0 idle))
    as (Hr & _ & Hp); try done.
  unfold run in Hr, Hp. split; [done|].
  assert (Hlast : eventually_reloaded
                    (foldl deliver (debouncePluginReload t0 f0 idle) (changed <$> rest))
                  = [(List.last rest (t0, f0)).2]).
  { unfold eventually_reloaded. by rewrite Hp, Hr. }
  split; [done|]. intros Hsame. rewrite Hlast. f_equal.
  clear -Hsame. revert t0.
  induction Hsame as [|[t f] rest Hf _ IH]; intros t0; [done|].
  simpl in Hf. subst f. rewrite last_cons_default. apply (IH t).
Qed.

(** Three saves of one file within the window. *)
Lemma debounce_reloads_last_file_witness :
  reloaded (run (changed <$> [(0, "ping.js"); (300, "ping.js"); (600, "ping.js")]%Z) idle)
  = []
  ∧ eventually_reloaded
      (run (changed <$> [(0, "ping.js"); (300, "ping.js"); (600, "ping.js")]%Z) idle)
    = [(List.last [(300, "ping.js"); (600, "ping.js")]%Z (0%Z, "ping.js")).2]
  ∧ (Forall (λ ev : Z * string, ev.2 = "ping.js") [(300, "ping.js"); (600, "ping.js")]%Z →
     eventually_reloaded
       (run (changed <$> [(0, "ping.js"); (300, "ping.js"); (600, "ping.js")]%Z) idle)
     = ["ping.js"]).
Proof.
  apply (debounce_reloads_last_file 0 "ping.js" [(300, "ping.js"); (600, "ping.js")]%Z).
  - repeat constructor.
  - simpl. lia.
Defined.

(** C2, as stated, fails: a change of a second file within the window
    clears the timer of the first, whose reload is lost. *)
Lemma two_files_one_timer_counterexample :
  eventually_reloaded (run [(0%Z, Some "a.js"); (500%Z, Some "b.js")] idle) = ["b.js"]
  ∧ ¬ ("a.js" ∈ eventually_reloaded (run [(0%Z, Some "a.js"); (500%Z, Some "b.js")] idle)
       ∧ "b.js" ∈ eventually_reloaded (run [(0%Z, Some "a.js"); (500%Z, Some "b.js")] idle)).
Proof.
  assert (Hrun : eventually_reloaded
                   (run [(0%Z, Some "a.js"); (500%Z, Some "b.js")] idle) = ["b.js"])
    by (vm_compute; reflexivity).
  split; [exact Hrun|]. rewrite Hrun. intros [Ha _].
  apply list_elem_of_singleton in Ha. discriminate Ha.
Qed.

(** ** The scenarios of the specification, run on the sample host *)

(** Loading the ping descriptor and asking it without [message]: the
    request reaches [exec]. *)
Example ping_is_served :
  let h := @withValidation sample_host ping_plugin None 0 ∅ (get_request []) in
  sent h = Some {| status := 200; rbody := BPlugin |}
  ∧ calls h = [SParams; SRate; SExec].
Proof. vm_compute. done. Qed.

(** A GET plugin with the required parameter [url], asked without it: 400
    with one detail, which names [url]. *)
Example missing_url_is_refused :
  sent (@withValidation sample_host (VObject fetch_props) None 0 ∅ (get_request []))
  = Some {| status := 400; rbody := BValidation [Required (VStr "url")] |}
  ∧ @message sample_host (Required (VStr "url")) = "Parameter 'url' is required".
Proof. vm_compute. done. Qed.

(** No header: 401. A wrong bearer token: 403. *)
Example secured_plugin_refusals :
  (status <$> sent (@withValidation sample_host secured_plugin (Some "s3cret") 0 ∅
                      (bearer_request None))) = Some 401%Z
  ∧ (status <$> sent (@withValidation sample_host secured_plugin (Some "s3cret") 0 ∅
                        (bearer_request (Some "Bearer wrong")))) = Some 403%Z.
Proof. vm_compute. done. Qed.

(** A request that fails parameter validation is answered 400 although the
    client has used up its three requests of the second. *)
Example invalid_request_over_the_limit :
  let plugin :=
    VObject (("parameter", VArray [VStr "q"]) :: limited_props) in
  let store : gmap string (list Z) :=
    {[ "203.0.113.7-limited" := [0; 1; 2]%Z ]} in
  (status <$> sent (@withValidation sample_host plugin None 3 store (get_request [])))
  = Some 400%Z
  ∧ (status <$> sent (@withValidation sample_host plugin None 3 store
                        (get_request [("q", VStr "x")])))
    = Some 429%Z.
Proof. vm_compute. done. Qed.

(** The reload scenario: the file's path changes from [/api/ping] to
    [/api/pong]; the old route is gone and the new one is mounted. *)
Example reload_moves_the_route :
  let s := (@reloadPlugin sample_host one_plugin "ping.js"
              (Exports (VObject [("path", VStr "/api/pong"); ("exec", VFunction 0)]))).2 in
  count_routes "/api/ping" "get" (app_stack s) = 0
  ∧ count_routes "/api/pong" "get" (app_stack s) = 1
  ∧ length (endpoints s) = 1.
Proof. vm_compute. done. Qed.

(** A plugin file that has been deleted: [require.resolve] throws out of
    [loadPlugin] and the route stays mounted. *)
Example deleted_file_keeps_its_route :
  @reloadPlugin sample_host one_plugin "ping.js" Unresolvable = (Threw, one_plugin).
Proof. reflexivity. Qed.

(** * Further properties *)

(** ** Loading: all or nothing *)

(** The decimal numerals never start with a "p": an array has no own
    property [path]. *)
Lemma pretty_N_go_not_p (x : N) (s s' : string) :
  s ≠ "p" +:+ s' → pretty_N_go x s ≠ "p" +:+ s'.
Proof.
  revert s. induction (N.lt_wf_0 x) as [x _ IH]; intros s Hs.
  destruct (decide (x = 0%N)) as [-> | Hx]; [by rewrite pretty_N_go_0|].
  rewrite pretty_N_go_step by lia. apply IH; [apply N.div_lt; lia|].
  unfold pretty_N_char. repeat case_match; discriminate.
Qed.

Lemma pretty_nat_not_path (i : nat) : pretty i ≠ "path".
Proof.
  unfold pretty, pretty_nat, pretty, pretty_N.
  case_decide; [discriminate|]. by apply (pretty_N_go_not_p _ "" "ath").
Qed.

Lemma array_index_path (items : list value) (i : nat) :
  array_index i "path" items = VUndefined.
Proof.
  revert i. induction items as [|x items IH]; intros i; simpl; [done|].
  destruct (String.eqb_spec (pretty i) "path") as [Heq|_]; [|apply IH].
  by destruct (pretty_nat_not_path i).
Qed.

Section AllOrNothing.
Context `{Host}.

(** Only an object can pass [validatePlugin]. *)
Lemma validatePlugin_accepts_object (plugin : value) (file : string)
    (v : manifest_validation) :
  validatePlugin plugin file = Ok v → mvalid v = true →
  ∃ props, plugin = VObject props ∧ valid_descriptor props.
Proof.
  intros Hv Hvalid.
  destruct plugin as [| |b|n|str|items|props|fid];
    try (unfold validatePlugin in Hv; simpl in Hv; rewrite ?orb_true_r in Hv;
         by simplify_eq/=).
  - exfalso. unfold validatePlugin in Hv. simpl in Hv.
    rewrite array_index_path in Hv. simpl in Hv.
    destruct (call_toUpperCase _) as [upper|]; simpl in Hv; [|done].
    simplify_eq/=. apply bool_decide_eq_true in Hvalid.
    revert Hvalid. repeat case_match; simpl; rewrite ?length_app; simpl; lia.
  - exists props. split; [done|]. by eapply validatePlugin_accepts.
Qed.

Lemma accepts_valid (src : source) :
  accepts src = true ↔ ∃ props, src = Exports (VObject props) ∧ valid_descriptor props.
Proof.
  split.
  - destruct src as [| |plugin]; simpl; [done|done|].
    destruct (validatePlugin plugin "") as [v|] eqn:Hv; [|done]. intros Hvalid.
    destruct (validatePlugin_accepts_object plugin "" v Hv Hvalid) as (props & -> & Hp).
    eauto.
  - intros (props & -> & Hp). simpl. by rewrite (validatePlugin_valid props "" Hp).
Qed.

(** A source that is not accepted leaves everything as it was. *)
Lemma loadPlugin_refused (s : state) (file : string) (src : source) :
  accepts src = false →
  (loadPlugin s file src).1 ≠ Returned true ∧ (loadPlugin s file src).2 = s.
Proof.
  destruct src as [| |plugin]; simpl; [done|done|].
  change (validatePlugin plugin "") with (validatePlugin plugin file).
  destruct (validatePlugin plugin file) as [v|]; [|done].
  intros ->. done.
Qed.

Lemma mounts_valid (src : source) :
  mounts src = true
  ↔ ∃ props, src = Exports (VObject props) ∧ valid_descriptor props ∧ mountable props.
Proof.
  unfold mounts, mountable. split.
  - destruct src as [| |plugin]; [done|done|].
    destruct plugin as [| | | | | |props|]; try done.
    intros [Hacc Hmount]%andb_true_iff.
    apply accepts_valid in Hacc as (props' & [= <-] & Hvalid).
    exists props. split; [done|]. split; [done|].
    by destruct (compile_path _).
  - intros (props & -> & Hvalid & Hmount). rewrite Hmount, andb_true_r.
    apply accepts_valid. eauto.
Qed.

Lemma mounts_refused (props : list (string * value)) :
  valid_descriptor props → mounts (Exports (VObject props)) = false → ¬ mountable props.
Proof.
  intros Hvalid Hmounts Hmount.
  assert (mounts (Exports (VObject props)) = true) by (apply mounts_valid; eauto).
  congruence.
Qed.

(** The three ways a load ends. *)
Lemma loadPlugin_cases (s : state) (file : string) (src : source) :
  (loadPlugin s file src).2 = s
  ∨ (loadPlugin s file src).2 = unregisterPlugin s file
  ∨ ∃ props, src = Exports (VObject props) ∧ valid_descriptor props ∧ mountable props.
Proof.
  destruct (accepts src) eqn:Hacc.
  - apply accepts_valid in Hacc as (props & -> & Hvalid).
    destruct (mounts (Exports (VObject props))) eqn:Hmounts.
    + right. right. apply mounts_valid in Hmounts as (props' & [= <-] & _ & Hmount).
      eauto.
    + right. left.
      by rewrite (loadPlugin_unmountable s file props Hvalid
                    (mounts_refused props Hvalid Hmounts)).
  - left. by apply loadPlugin_refused.
Qed.

(** X1. [loadPlugin] ends in one of three ways. A source that
    [validatePlugin] does not accept leaves the route stack, the routes,
    the plugins and the endpoints as they were, and the call does not
    return true. A valid descriptor whose path the router compiles is
    loaded: the call returns true and the file's Route Entry and Plugin
    Handle are those of the descriptor. A valid descriptor whose path the
    router refuses makes the call return false after the file has been
    unregistered: the route the file had is gone. *)
Theorem loadPlugin_outcomes (s : state) (file : string) (src : source) :
  (accepts src = false
   ∧ (loadPlugin s file src).1 ≠ Returned true ∧ (loadPlugin s file src).2 = s)
  ∨ (∃ props,
       src = Exports (VObject props) ∧ valid_descriptor props
       ∧ ((mountable props
           ∧ (loadPlugin s file src).1 = Returned true
           ∧ routes (loadPlugin s file src).2 !! file = Some (entry_of props)
           ∧ plugins (loadPlugin s file src).2 !! file = Some (VObject props))
          ∨ (¬ mountable props
             ∧ loadPlugin s file src = (Returned false, unregisterPlugin s file)))).
Proof.
  destruct (accepts src) eqn:Hacc.
  - right. apply accepts_valid in Hacc as (props & -> & Hvalid).
    exists props. split; [done|]. split; [done|].
    destruct (mounts (Exports (VObject props))) eqn:Hmounts.
    + left. apply mounts_valid in Hmounts as (props' & [= <-] & _ & Hmount).
      split; [done|]. rewrite (loadPlugin_valid s file props Hvalid Hmount). simpl.
      by rewrite !lookup_insert_eq.
    + right. pose proof (mounts_refused props Hvalid Hmounts) as Hmount.
      split; [done|]. by apply loadPlugin_unmountable.
  - left. split; [done|]. by apply loadPlugin_refused.
Qed.

End AllOrNothing.

(** ** Batch loading *)

Section Batch.
Context `{Host}.

Lemma load_next_mounts (acc : load_report * state) (entry : string * source) :
  mounts entry.2 = true →
  load_next acc entry
  = ({| loaded := S (loaded acc.1); failed := failed acc.1 |},
     (loadPlugin acc.2 entry.1 entry.2).2).
Proof.
  intros (props & Hsrc & Hvalid & Hmount)%mounts_valid. unfold load_next.
  rewrite Hsrc, (loadPlugin_valid _ _ props Hvalid Hmount). done.
Qed.

Lemma load_next_unmountable (acc : load_report * state) (entry : string * source) :
  accepts entry.2 = true → mounts entry.2 = false →
  load_next acc entry
  = ({| loaded := loaded acc.1; failed := S (failed acc.1) |},
     (loadPlugin acc.2 entry.1 entry.2).2).
Proof.
  intros (props & Hsrc & Hvalid)%accepts_valid Hmounts. unfold load_next.
  rewrite Hsrc in *.
  by rewrite (loadPlugin_unmountable _ _ props Hvalid (mounts_refused props Hvalid Hmounts)).
Qed.

Lemma load_next_refused (acc : load_report * state) (entry : string * source) :
  accepts entry.2 = false →
  load_next acc entry
  = ({| loaded := loaded acc.1; failed := S (failed acc.1) |}, acc.2).
Proof.
  intros Hacc. unfold load_next.
  destruct (loadPlugin_refused acc.2 entry.1 entry.2 Hacc) as [Hout Hs].
  destruct (loadPlugin acc.2 entry.1 entry.2) as [[[]|] s']; simpl in *;
    by subst.
Qed.

Lemma mounts_accepts (src : source) : mounts src = true → accepts src = true.
Proof.
  intros (props & -> & Hvalid & _)%mounts_valid. apply accepts_valid. eauto.
Qed.

Lemma foldl_load_next (files : list (string * source)) (r : load_report) (s : state) :
  let accepted := List.filter (λ entry, accepts entry.2) files in
  let good := List.filter (λ entry, mounts entry.2) files in
  foldl load_next (r, s) files
  = ({| loaded := loaded r + length good;
        failed := failed r + (length files - length good) |},
     load_each s accepted).
Proof.
  revert r s. induction files as [|entry files IH]; intros r s; simpl.
  - destruct r. simpl. by rewrite !Nat.add_0_r.
  - pose proof (List.filter_length_le (λ entry, mounts entry.2) files) as Hle.
    destruct (accepts entry.2) eqn:Hacc.
    + destruct (mounts entry.2) eqn:Hmounts.
      * rewrite (load_next_mounts (r, s) entry Hmounts), IH. simpl.
        f_equal. f_equal; lia.
      * rewrite (load_next_unmountable (r, s) entry Hacc Hmounts), IH. simpl.
        f_equal. f_equal; lia.
    + assert (Hmounts : mounts entry.2 = false).
      { destruct (mounts entry.2) eqn:Hm; [|done].
        apply mounts_accepts in Hm. congruence. }
      rewrite Hmounts, (load_next_refused (r, s) entry Hacc), IH. simpl.
      f_equal. f_equal; lia.
Qed.

(** X2. [loadAllPlugins] loads the listed names that end in ".js" and no
    others, and a file that [validatePlugin] does not accept (missing,
    throwing while required, or exporting what it rejects or throws on)
    neither aborts the batch nor disturbs the registry: the state reached
    is the one reached by the loads of the accepted files alone.
    [loaded] is the number of the accepted files whose path the router
    compiles and [failed] the number of the other ".js" names. *)
Theorem loadAllPlugins_isolates_failures (s : state) (listing : list (string * source)) :
  let files := List.filter (λ entry, endsWith entry.1 ".js") listing in
  let accepted := List.filter (λ entry, accepts entry.2) files in
  let good := List.filter (λ entry, mounts entry.2) files in
  loadAllPlugins s (Some listing)
  = ({| loaded := length good; failed := length files - length good |},
     load_each s accepted).
Proof. intros files accepted good. unfold loadAllPlugins. by rewrite foldl_load_next. Qed.

Lemma unregisterPlugin_other (s : state) (file other : string) :
  other ≠ file →
  routes (unregisterPlugin s file) !! other = routes s !! other
  ∧ plugins (unregisterPlugin s file) !! other = plugins s !! other.
Proof.
  intros Hne. unfold unregisterPlugin.
  destruct (routes s !! file); simpl; [|done].
  by rewrite !lookup_delete_ne.
Qed.

Lemma loadPlugin_other (s : state) (file other : string) (src : source) :
  other ≠ file →
  routes (loadPlugin s file src).2 !! other = routes s !! other
  ∧ plugins (loadPlugin s file src).2 !! other = plugins s !! other.
Proof.
  intros Hne. destruct (accepts src) eqn:Hacc.
  - apply accepts_valid in Hacc as (props & -> & Hvalid).
    destruct (mounts (Exports (VObject props))) eqn:Hmounts.
    + apply mounts_valid in Hmounts as (props' & [= <-] & _ & Hmount).
      rewrite (loadPlugin_valid s file props Hvalid Hmount). simpl.
      rewrite !lookup_insert_ne by done. by apply unregisterPlugin_other.
    + rewrite (loadPlugin_unmountable s file props Hvalid
                 (mounts_refused props Hvalid Hmounts)).
      by apply unregisterPlugin_other.
  - by rewrite (proj2 (loadPlugin_refused s file src Hacc)).
Qed.

Lemma load_each_other (s : state) (entries : list (string * source)) (other : string) :
  other ∉ entries.*1 →
  routes (load_each s entries) !! other = routes s !! other
  ∧ plugins (load_each s entries) !! other = plugins s !! other.
Proof.
  revert s. induction entries as [|[file src] entries IH]; intros s Hnot; [done|].
  rewrite fmap_cons, not_elem_of_cons in Hnot. destruct Hnot as [Hne Hnot].
  unfold load_each. simpl. fold (load_each (loadPlugin s file src).2 entries).
  destruct (IH (loadPlugin s file src).2 Hnot) as [-> ->].
  by apply loadPlugin_other.
Qed.

(** X3. When the ".js" names of the directory are distinct and each exports
    a valid descriptor whose path the router compiles, [loadAllPlugins]
    reports all of them loaded and none failed, and afterwards every file
    has the Route Entry and the Plugin Handle of its own descriptor,
    whatever the other files declare. *)
Theorem loadAllPlugins_registers_valid (s : state) (listing : list (string * source)) :
  let files := List.filter (λ entry, endsWith entry.1 ".js") listing in
  NoDup files.*1 →
  Forall (λ entry, mounts entry.2 = true) files →
  let r := loadAllPlugins s (Some listing) in
  loaded r.1 = length files ∧ failed r.1 = 0
  ∧ ∀ file props, (file, Exports (VObject props)) ∈ files →
      routes r.2 !! file = Some (entry_of props)
      ∧ plugins r.2 !! file = Some (VObject props).
Proof.
  intros files Hnodup Hall r. subst r. unfold loadAllPlugins. fold files.
  rewrite foldl_load_next. simpl.
  assert (Hgood : List.filter (λ entry, mounts entry.2) files = files).
  { clear Hnodup. induction Hall as [|entry l Hacc _ IH]; simpl; [done|].
    by rewrite Hacc, IH. }
  assert (Haccepted : List.filter (λ entry, accepts entry.2) files = files).
  { clear Hnodup Hgood. induction Hall as [|entry l Hacc _ IH]; simpl; [done|].
    by rewrite (mounts_accepts _ Hacc), IH. }
  rewrite Hgood, Haccepted. split; [done|]. split; [lia|].
  clear Hgood Haccepted. generalize s. clear s.
  induction files as [|[g src] l IH]; intros s file props Hin;
    [by apply elem_of_nil in Hin|].
  rewrite fmap_cons in Hnodup. apply NoDup_cons in Hnodup as [Hfresh Hnodup].
  apply Forall_cons in Hall as [Hacc Hall].
  unfold load_each. simpl. fold (load_each (loadPlugin s g src).2 l).
  apply elem_of_cons in Hin as [Heq | Hin].
  - injection Heq as <- <-.
    destruct (load_each_other (loadPlugin s file (Exports (VObject props))).2 l file Hfresh)
      as [-> ->].
    apply mounts_valid in Hacc as (props' & [= <-] & Hvalid & Hmount).
    rewrite (loadPlugin_valid s file props Hvalid Hmount). simpl.
    by rewrite !lookup_insert_eq.
  - by apply IH.
Qed.

End Batch.

(** The two bundled plugins next to a README and a descriptor without
    path. *)
Lemma loadAllPlugins_registers_valid_witness :
  let listing := [("ping.js", Exports ping_plugin); ("README.md", RequireFails);
                  ("docs.js", Exports docs_plugin)] in
  let r := @loadAllPlugins sample_host (fresh []) (Some listing) in
  loaded r.1 = length (List.filter (λ entry : string * source, endsWith entry.1 ".js") listing)
  ∧ failed r.1 = 0
  ∧ ∀ file props,
      (file, Exports (VObject props))
      ∈ List.filter (λ entry : string * source, endsWith entry.1 ".js") listing →
      routes r.2 !! file = Some (@entry_of sample_host props)
      ∧ plugins r.2 !! file = Some (VObject props).
Proof.
  apply (@loadAllPlugins_registers_valid sample_host (fresh [])
           [("ping.js", Exports ping_plugin); ("README.md", RequireFails);
            ("docs.js", Exports docs_plugin)]).
  - vm_compute. repeat constructor; rewrite ?elem_of_cons, ?elem_of_nil;
      intros Hin; destruct_or?; try discriminate; done.
  - repeat constructor.
Defined.

(** ** Statistics *)

Lemma distribution_total_step (d : gmap string nat) (m : string) :
  distribution_total (<[m := default 0 (d !! m) + 1]> d) = distribution_total d + 1.
Proof.
  unfold distribution_total.
  destruct (d !! m) as [n|] eqn:Hm; simpl.
  - rewrite <- (insert_delete_eq d).
    rewrite map_fold_insert_L; [|intros; lia|apply lookup_delete_eq].
    rewrite (map_fold_delete_L _ _ m n d); [lia|intros; lia|done].
  - rewrite map_fold_insert_L; [lia|intros; lia|done].
Qed.

Lemma distribution_step_lookup (d : gmap string nat) (l : list endpoint) (m : string) :
  foldl (λ distribution e,
           <[ep_method e := default 0 (distribution !! ep_method e) + 1]> distribution)
        d l !! m
  = if decide (count_method m l = 0) then d !! m
    else Some (default 0 (d !! m) + count_method m l).
Proof.
  revert d. induction l as [|e l IH]; intros d; [done|].
  simpl. rewrite IH. unfold count_method. simpl.
  destruct (String.eqb_spec (ep_method e) m) as [<- | Hne]; simpl.
  - rewrite lookup_insert_eq. simpl.
    repeat case_decide; try lia; f_equal; lia.
  - rewrite lookup_insert_ne by done. done.
Qed.

Lemma distribution_step_total (d : gmap string nat) (l : list endpoint) :
  distribution_total
    (foldl (λ distribution e,
              <[ep_method e := default 0 (distribution !! ep_method e) + 1]> distribution)
           d l)
  = distribution_total d + length l.
Proof.
  revert d. induction l as [|e l IH]; intros d; simpl; [lia|].
  rewrite IH, distribution_total_step. lia.
Qed.

Lemma owners_exact_insert (p m file : string) (e : route_entry)
    (routes : gmap string route_entry) :
  routes !! file = None →
  owners_exact p m (<[file := e]> routes)
  = owners_exact p m routes
    + (if decide (e = {| routePath := p; method := m |}) then 1 else 0).
Proof.
  intros Hfresh. unfold owners_exact.
  destruct (decide (e = {| routePath := p; method := m |})) as [He|He].
  - rewrite map_filter_insert_True by done.
    rewrite map_size_insert_None; [lia|].
    by rewrite map_lookup_filter_None; left.
  - rewrite map_filter_insert_False by done.
    rewrite delete_id by done. lia.
Qed.

Lemma owners_exact_delete (p m file : string) (e : route_entry)
    (routes : gmap string route_entry) :
  routes !! file = Some e →
  owners_exact p m routes
  = owners_exact p m (delete file routes)
    + (if decide (e = {| routePath := p; method := m |}) then 1 else 0).
Proof.
  intros Hfile. rewrite <- (insert_delete_id routes file e Hfile) at 1.
  apply owners_exact_insert, lookup_delete_eq.
Qed.

Lemma count_endpoints_app (p m : string) (l1 l2 : list endpoint) :
  count_endpoints p m (l1 ++ l2) = count_endpoints p m l1 + count_endpoints p m l2.
Proof. unfold count_endpoints. by rewrite List.filter_app, length_app. Qed.

Lemma count_endpoints_one (p m : string) (e : endpoint) :
  count_endpoints p m [e]
  = if decide ({| routePath := ep_path e; method := ep_method e |}
               = {| routePath := p; method := m |}) then 1 else 0.
Proof.
  unfold count_endpoints. simpl.
  destruct (String.eqb_spec (ep_path e) p) as [->|Hp],
           (String.eqb_spec (ep_method e) m) as [->|Hm]; simpl;
    case_decide; simplify_eq; done.
Qed.

Lemma count_endpoints_filter_le (p m : string) (f : endpoint → bool) (l : list endpoint) :
  count_endpoints p m (List.filter f l) ≤ count_endpoints p m l.
Proof.
  unfold count_endpoints. induction l as [|e l IH]; simpl; [done|].
  destruct (f e), (String.eqb (ep_path e) p && String.eqb (ep_method e) m) eqn:Hm;
    simpl; rewrite ?Hm; simpl; lia.
Qed.

Lemma count_endpoints_removed (p m : string) (l : list endpoint) :
  count_endpoints p m
    (List.filter (λ e, negb (String.eqb (ep_path e) p && String.eqb (ep_method e) m)) l)
  = 0.
Proof.
  unfold count_endpoints. induction l as [|e l IH]; simpl; [done|].
  destruct (String.eqb (ep_path e) p && String.eqb (ep_method e) m) eqn:Hm;
    simpl; rewrite ?Hm; done.
Qed.

(** Endpoints that are bounded by the owners of their routes are no more
    than the Route Entries. *)
Lemma bounded_length (l : list endpoint) (routes : gmap string route_entry) :
  (∀ p m, count_endpoints p m l ≤ owners_exact p m routes) →
  length l ≤ size routes.
Proof.
  revert routes. induction l as [|e l IH]; intros routes Hb; simpl; [lia|].
  assert (Hown : owners_exact (ep_path e) (ep_method e) routes ≠ 0).
  { specialize (Hb (ep_path e) (ep_method e)).
    change (e :: l) with ([e] ++ l) in Hb.
    rewrite count_endpoints_app, count_endpoints_one, decide_True in Hb by done. lia. }
  unfold owners_exact in Hown. apply map_size_non_empty_iff in Hown.
  apply map_choose in Hown as (file & entry & Hentry).
  apply map_lookup_filter_Some in Hentry as [Hfile Hentry]. simpl in Hentry. subst entry.
  pose proof (map_size_delete_Some file routes (mk_is_Some _ _ Hfile)) as Hsize.
  assert (size routes ≠ 0).
  { intros Hz. apply map_size_empty_iff in Hz. by rewrite Hz, lookup_empty in Hfile. }
  enough (length l ≤ size (delete file routes)) by lia.
  apply IH. intros p m. specialize (Hb p m).
  change (e :: l) with ([e] ++ l) in Hb.
  rewrite count_endpoints_app, count_endpoints_one in Hb.
  rewrite (owners_exact_delete p m file _ routes Hfile) in Hb.
  case_decide; lia.
Qed.

Section Statistics.
Context `{Host}.

Lemma unregisterPlugin_endpoints_bounded (s : state) (file : string) :
  endpoints_bounded s → endpoints_bounded (unregisterPlugin s file).
Proof.
  intros Hb p m. rewrite unregisterPlugin_routes.
  unfold unregisterPlugin. destruct (routes s !! file) as [e|] eqn:Hf; simpl.
  - specialize (Hb p m). rewrite (owners_exact_delete p m file e _ Hf) in Hb.
    destruct (decide (e = {| routePath := p; method := m |})) as [-> | _].
    + simpl. rewrite count_endpoints_removed. lia.
    + pose proof (count_endpoints_filter_le p m
                    (λ e', negb (String.eqb (ep_path e') (routePath e)
                                 && String.eqb (ep_method e') (method e)))
                    (endpoints s)).
      lia.
  - rewrite delete_id by done. apply Hb.
Qed.

Lemma loadPlugin_endpoints_bounded (s : state) (file : string) (src : source) :
  endpoints_bounded s → endpoints_bounded (loadPlugin s file src).2.
Proof.
  intros Hb.
  destruct (loadPlugin_cases s file src) as [-> | [-> | (props & -> & Hvalid & Hmount)]];
    [done|by apply unregisterPlugin_endpoints_bounded|].
  - rewrite (loadPlugin_valid s file props Hvalid Hmount). simpl.
    pose proof (unregisterPlugin_endpoints_bounded s file Hb) as Hb1.
    intros p m. cbn [endpoints routes].
    rewrite count_endpoints_app, count_endpoints_one.
    rewrite owners_exact_insert
      by (rewrite unregisterPlugin_routes; apply lookup_delete_eq).
    specialize (Hb1 p m).
    change (ep_path (endpoint_of props file)) with (routePath (entry_of props)).
    change (ep_method (endpoint_of props file)) with (method (entry_of props)).
    destruct (entry_of props) as [rp rm]. cbn [routePath method].
    repeat case_decide; simplify_eq; lia.
Qed.

Lemma endpoint_of_method_allowed (props : list (string * value)) (file : string) :
  valid_descriptor props →
  allowed_method (ep_method (endpoint_of props file)) = true.
Proof.
  intros [_ [_ [Hm | (m & Hm & Hallowed)]]]; simpl; rewrite Hm; done.
Qed.

Lemma reachable_endpoints (stack0 : list layer) (calls : list call) :
  let s := foldl perform (fresh stack0) calls in
  endpoints_bounded s
  ∧ Forall (λ e, allowed_method (ep_method e) = true) (endpoints s).
Proof.
  induction calls as [|c calls IH] using rev_ind; simpl.
  - split; [|by apply Forall_nil]. intros p m. cbv [fresh endpoints count_endpoints].
    simpl. lia.
  - rewrite foldl_snoc. destruct IH as [Hb Hverbs].
    destruct c as [file src|file]; simpl.
    + split; [by apply loadPlugin_endpoints_bounded|].
      assert (Hunregistered : Forall (λ e, allowed_method (ep_method e) = true)
                                (endpoints (unregisterPlugin
                                              (foldl perform (fresh stack0) calls) file))).
      { unfold unregisterPlugin. destruct (routes _ !! file); simpl; [|done].
        apply Forall_forall. intros e He. apply list_elem_of_In in He.
        apply List.filter_In in He as [He _]. apply list_elem_of_In in He.
        by eapply Forall_forall in Hverbs. }
      destruct (loadPlugin_cases (foldl perform (fresh stack0) calls) file src)
        as [-> | [-> | (props & -> & Hvalid & Hmount)]]; [done|done|].
      rewrite (loadPlugin_valid _ file props Hvalid Hmount). simpl.
      apply Forall_app. split; [done|].
      repeat constructor. by apply endpoint_of_method_allowed.
    + split; [by apply unregisterPlugin_endpoints_bounded|].
      unfold unregisterPlugin. destruct (routes _ !! file); simpl; [|done].
      apply Forall_forall. intros e He. apply list_elem_of_In in He.
      apply List.filter_In in He as [He _]. apply list_elem_of_In in He.
      by eapply Forall_forall in Hverbs.
Qed.

(** X4. After any load and unregister calls, [getMethodDistribution] maps
    every method to the number of endpoints that have it and holds no
    entry for a method that no endpoint has; the methods it holds are
    among the five verbs of [registerRoute]. *)
Theorem getMethodDistribution_counts (stack0 : list layer) (calls : list call) :
  let s := foldl perform (fresh stack0) calls in
  ∀ m, getMethodDistribution s !! m
       = (if decide (count_method m (endpoints s) = 0) then None
          else Some (count_method m (endpoints s)))
       ∧ (is_Some (getMethodDistribution s !! m) → allowed_method m = true).
Proof.
  intros s m.
  destruct (reachable_endpoints stack0 calls) as [_ Hverbs]. fold s in Hverbs.
  assert (Hm : getMethodDistribution s !! m
               = if decide (count_method m (endpoints s) = 0) then None
                 else Some (count_method m (endpoints s))).
  { unfold getMethodDistribution. by rewrite distribution_step_lookup, lookup_empty. }
  split; [exact Hm|]. rewrite Hm.
  case_decide as Hc; [by intros [? ?]|]. intros _.
  unfold count_method in Hc.
  destruct (List.filter _ (endpoints s)) as [|e l] eqn:Hfilter; [done|].
  assert (He : List.In e (List.filter (λ e, String.eqb (ep_method e) m) (endpoints s)))
    by (rewrite Hfilter; by left).
  apply List.filter_In in He as [He Heq]. apply String.eqb_eq in Heq. subst m.
  apply list_elem_of_In in He. by eapply Forall_forall in Hverbs.
Qed.

(** X5. After any load and unregister calls, the figures of [getStats]
    agree: [totalPlugins] is the number of Route Entries, there are never
    more endpoints than plugins, the counts of [methodDistribution] add up
    to [totalEndpoints], and [authRequiredCount] and [deprecatedCount] do
    not exceed [totalEndpoints]. *)
Theorem getStats_consistent (stack0 : list layer) (calls : list call) :
  let s := foldl perform (fresh stack0) calls in
  let st := getStats s in
  totalPlugins st = size (routes s)
  ∧ totalEndpoints st ≤ totalPlugins st
  ∧ distribution_total (methodDistribution st) = totalEndpoints st
  ∧ authRequiredCount st ≤ totalEndpoints st
  ∧ deprecatedCount st ≤ totalEndpoints st.
Proof.
  intros s st.
  destruct (registry_invariant stack0 calls) as [Hdom _].
  destruct (reachable_endpoints stack0 calls) as [Hb _].
  fold s in Hdom, Hb.
  assert (Hsize : size (plugins s) = size (routes s)) by (by rewrite <- !size_dom, Hdom).
  split; [done|]. split; [|split; [|split]]; simpl.
  - rewrite Hsize. by apply bounded_length.
  - unfold getMethodDistribution. rewrite distribution_step_total.
    unfold distribution_total. by rewrite map_fold_empty.
  - apply List.filter_length_le.
  - apply List.filter_length_le.
Qed.

End Statistics.

(** ** Successive calls of the rate limiter *)

Lemma filter_filter_implied {A} (f g : A → bool) (l : list A) :
  (∀ a, f a = true → g a = true) →
  List.filter f (List.filter g l) = List.filter f l.
Proof.
  intros Himp. induction l as [|a l IH]; simpl; [done|].
  destruct (g a) eqn:Hg; simpl.
  - by rewrite IH.
  - rewrite IH. destruct (f a) eqn:Hf; [|done].
    apply Himp in Hf. congruence.
Qed.

Lemma filter_implied_length {A} (f g : A → bool) (l : list A) :
  (∀ a, f a = true → g a = true) →
  length (List.filter f l) ≤ length (List.filter g l).
Proof.
  intros Himp. rewrite <- (filter_filter_implied f g l Himp).
  apply List.filter_length_le.
Qed.

Section SlidingWindow.
Context `{Host}.
Variables (props rl : list (string * value)) (limit window : Z).
Hypothesis Hrl : assoc "rateLimit" props = VObject rl.
Hypothesis Hlimit : assoc "limit" rl = VNum (Int limit).
Hypothesis Hwindow : assoc "window" rl = VNum (Int window).

(** One call on a plugin whose limit and window are numbers. *)
Lemma checkRateLimit_numbers (store : gmap string (list Z)) (now : Z) (req : request) :
  let key := rate_key props req in
  let pruned :=
    List.filter (λ t, bool_decide (now - t < window)%Z) (default [] (store !! key)) in
  checkRateLimit store now req (VObject props)
  = if bool_decide (limit ≤ Z.of_nat (length pruned))%Z then
      Ok ({| allowed := false;
             retryAfter :=
               Some (num_ceil_div1000
                       (num_sub (Int window) (num_sub (Int now) (oldest pruned)))) |},
          store)
    else
      Ok ({| allowed := true; retryAfter := None |},
          <[key := pruned ++ [now]]> store).
Proof.
  intros key pruned. unfold checkRateLimit.
  rewrite !get_prop_object by reflexivity. simpl. rewrite Hrl, get_prop_object by reflexivity. simpl.
  rewrite Hlimit, Hwindow.
  rewrite prune_window, !to_number_num.
  fold (rate_key props req). fold key. fold pruned.
  unfold num_ge, num_lt.
  case_bool_decide; case_bool_decide; simpl; done || lia.
Qed.

Lemma window_count_app (u : Z) (l1 l2 : list Z) :
  window_count window u (l1 ++ l2) = window_count window u l1 + window_count window u l2.
Proof. unfold window_count. by rewrite List.filter_app, length_app. Qed.

(** The allowed times of every key stay within the limit in every window,
    given that the store agrees with them on what is younger than the
    window at the time [T] of the last call. *)
Lemma checkRateLimit_each_bounded (calls : list (Z * request)) :
  ∀ (store : gmap string (list Z)) (hist : string → list Z) (T : Z),
    (∀ k (f : Z → bool),
       (∀ a, f a = true → (T - a < window)%Z) →
       length (List.filter f (hist k))
       = length (List.filter f (default [] (store !! k)))) →
    (∀ k u, (Z.of_nat (window_count window u (hist k)) ≤ Z.max 0 limit)%Z) →
    StronglySorted Z.le (T :: calls.*1) →
    ∃ results store',
      checkRateLimit_each store (VObject props) calls = Ok (results, store')
      ∧ length results = length calls
      ∧ ∀ k u, (Z.of_nat (window_count window u
                            (hist k ++ allowed_times props k calls results))
                ≤ Z.max 0 limit)%Z.
Proof.
  induction calls as [|[now req] calls IH]; intros store hist T Hstore Hhist Hsorted.
  - exists [], store. split; [done|]. split; [done|].
    intros k u. unfold allowed_times. simpl. rewrite app_nil_r. apply Hhist.
  - rewrite fmap_cons in Hsorted. simpl in Hsorted.
    apply StronglySorted_inv in Hsorted as [Hsorted HT].
    assert (HTnow : (T ≤ now)%Z) by (by apply Forall_cons in HT as [? _]).
    cbn [checkRateLimit_each]. rewrite checkRateLimit_numbers.
    set (key := rate_key props req).
    set (g := λ t : Z, bool_decide (now - t < window)%Z).
    set (pruned := List.filter g (default [] (store !! key))).
    case_bool_decide as Hfull.
    + (* denied: the store and the allowed times stay *)
      destruct (IH store hist now) as (results & store' & Hrun & Hlen & Hbound).
      { intros k f Hf. apply Hstore. intros a Ha. specialize (Hf a Ha). lia. }
      { done. }
      { done. }
      simpl. rewrite Hrun. simpl.
      eexists _, _. split; [reflexivity|]. split; [simpl; by rewrite Hlen|].
      intros k u. unfold allowed_times. simpl.
      rewrite andb_false_r. apply Hbound.
    + (* allowed: [now] joins the times of [key] *)
      set (hist' := λ k, if decide (k = key) then hist k ++ [now] else hist k).
      destruct (IH (<[key := pruned ++ [now]]> store) hist' now)
        as (results & store' & Hrun & Hlen & Hbound).
      { intros k f Hf. unfold hist'. destruct (decide (k = key)) as [->|Hk].
        - rewrite lookup_insert_eq. simpl.
          rewrite !List.filter_app, !length_app. f_equal.
          unfold pruned. rewrite (filter_filter_implied f g).
          + apply Hstore. intros a Ha. specialize (Hf a Ha). lia.
          + intros a Ha. specialize (Hf a Ha). unfold g.
            by apply bool_decide_eq_true_2.
        - rewrite lookup_insert_ne by done.
          apply Hstore. intros a Ha. specialize (Hf a Ha). lia. }
      { intros k u. unfold hist'. destruct (decide (k = key)) as [->|Hk]; [|done].
        rewrite window_count_app. unfold window_count at 2. simpl.
        case_bool_decide as Hin; simpl; [|specialize (Hhist key u); lia].
        set (f := λ a : Z, bool_decide (u ≤ a < u + window)%Z).
        assert (Hf : ∀ a, f a = true → (now - a < window)%Z).
        { intros a Ha. apply bool_decide_eq_true_1 in Ha. lia. }
        assert (window_count window u (hist key) ≤ length pruned).
        { unfold window_count. fold f.
          rewrite (Hstore key f) by (intros a Ha; specialize (Hf a Ha); lia).
          apply filter_implied_length. intros a Ha. specialize (Hf a Ha).
          unfold g. by apply bool_decide_eq_true_2. }
        lia. }
      { done. }
      simpl. rewrite Hrun. simpl.
      eexists _, _. split; [reflexivity|]. split; [simpl; by rewrite Hlen|].
      intros k u. specialize (Hbound k u). unfold allowed_times. simpl.
      rewrite andb_true_r. fold key. unfold hist' in Hbound.
      destruct (decide (k = key)) as [->|Hk].
      * rewrite String.eqb_refl. simpl.
        by rewrite <- app_assoc in Hbound.
      * destruct (String.eqb_spec key k) as [<-|_]; [done|]. exact Hbound.
Qed.

(** X6. The limiter is a sliding window: calls of one plugin whose limit
    and window are numbers, made at times that do not decrease and
    starting on an empty store, all return, and of the allowed calls of
    any one client key at most [limit] fall into any [window]
    milliseconds, however the calls of the clients interleave. *)
Theorem checkRateLimit_sliding_window (calls : list (Z * request)) :
  StronglySorted Z.le calls.*1 →
  ∃ results store',
    checkRateLimit_each ∅ (VObject props) calls = Ok (results, store')
    ∧ length results = length calls
    ∧ ∀ k u, (Z.of_nat (window_count window u (allowed_times props k calls results))
              ≤ Z.max 0 limit)%Z.
Proof.
  intros Hsorted.
  destruct calls as [|[now req] calls'] eqn:Hcalls.
  { exists [], ∅. split; [done|]. split; [done|]. intros k u.
    unfold allowed_times, window_count. simpl. lia. }
  rewrite <- Hcalls in *.
  destruct (checkRateLimit_each_bounded calls ∅ (λ _, []) now)
    as (results & store' & Hrun & Hlen & Hbound).
  - intros k f _. by rewrite lookup_empty.
  - intros k u. unfold window_count. simpl. lia.
  - subst calls. rewrite fmap_cons in *. simpl in *.
    apply SSorted_cons; [done|]. apply Forall_cons. split; [lia|].
    by apply StronglySorted_inv in Hsorted as [_ ?].
  - exists results, store'. split; [done|]. split; [done|]. exact Hbound.
Qed.

End SlidingWindow.

(** Four calls of one client within a second and a fifth one later, on the
    plugin limited to three calls a second. *)
Lemma checkRateLimit_sliding_window_witness :
  ∃ results store',
    @checkRateLimit_each sample_host ∅ (VObject limited_props)
      [(0, get_request []); (10, get_request []); (20, get_request []);
       (30, get_request []); (1500, get_request [])]%Z
    = Ok (results, store')
    ∧ length results = 5
    ∧ ∀ k u, (Z.of_nat (window_count 1000 u
                          (@allowed_times sample_host limited_props k
                             [(0, get_request []); (10, get_request []);
                              (20, get_request []); (30, get_request []);
                              (1500, get_request [])]%Z results))
              ≤ Z.max 0 3)%Z.
Proof.
  apply (@checkRateLimit_sliding_window sample_host limited_props limited_rateLimit
           3 1000 eq_refl eq_refl eq_refl).
  repeat (apply SSorted_cons || apply SSorted_nil
          || apply List.Forall_cons || apply List.Forall_nil); simpl; lia.
Defined.

Lemma filter_strict_length {A} (f g : A → bool) (l : list A) (o : A) :
  (∀ a, f a = true → g a = true) →
  o ∈ l → g o = true → f o = false →
  length (List.filter f l) < length (List.filter g l).
Proof.
  intros Himp Ho Hg Hf. induction l as [|a l IH]; [by apply elem_of_nil in Ho|].
  apply elem_of_cons in Ho as [<-|Ho]; simpl.
  - rewrite Hg, Hf. simpl.
    pose proof (filter_implied_length f g l Himp). lia.
  - specialize (IH Ho). destruct (f a) eqn:Hfa.
    + rewrite (Himp a Hfa). simpl. lia.
    + destruct (g a); simpl; lia.
Qed.

(** X7. The retry hint is honest. When a client is denied on a store that
    holds at most [limit >= 1] timestamps for it, none of them later than
    the call, [retryAfter] is a whole number of seconds between one and
    the window rounded up, the store is left as it was, and a call of the
    same client that comes at least that many seconds later on that store
    is allowed. *)
Theorem checkRateLimit_retry_honest `{Host} (props rl : list (string * value))
    (limit window : Z) (store store' : gmap string (list Z)) (now : Z)
    (req : request) (r : rate_result) :
  assoc "rateLimit" props = VObject rl →
  assoc "limit" rl = VNum (Int limit) →
  assoc "window" rl = VNum (Int window) →
  (1 ≤ limit)%Z →
  (Z.of_nat (length (default [] (store !! rate_key props req))) ≤ limit)%Z →
  Forall (λ t, (t ≤ now)%Z) (default [] (store !! rate_key props req)) →
  checkRateLimit store now req (VObject props) = Ok (r, store') →
  allowed r = false →
  ∃ n, retryAfter r = Some (Int n)
       ∧ (1 ≤ n ≤ ceil_div1000 window)%Z
       ∧ store' = store
       ∧ ∀ now' req',
           rate_key props req' = rate_key props req →
           (now + 1000 * n ≤ now')%Z →
           ∃ store'',
             checkRateLimit store now' req' (VObject props)
             = Ok ({| allowed := true; retryAfter := None |}, store'').
Proof.
  intros Hrl Hlimit Hwindow Hpos Hlen Hpast Hcall Hdenied.
  rewrite (checkRateLimit_numbers props rl limit window Hrl Hlimit Hwindow) in Hcall.
  set (stored := default [] (store !! rate_key props req)) in *.
  set (g := λ t : Z, bool_decide (now - t < window)%Z) in *.
  case_bool_decide as Hfull; [|by simplify_eq/=].
  injection Hcall as <- <-. clear Hdenied. cbn [retryAfter].
  assert (Hne : List.filter g stored ≠ []).
  { intros Hnil. rewrite Hnil in Hfull. simpl in Hfull. lia. }
  destruct (oldest_least _ Hne) as (o & Ho & Hin & Hleast).
  apply list_elem_of_In, List.filter_In in Hin as [Hin Hyoung].
  apply list_elem_of_In in Hin.
  apply bool_decide_eq_true_1 in Hyoung.
  assert (Hold : (o ≤ now)%Z) by (by eapply Forall_forall in Hpast).
  pose proof (ceil_div1000_bounds (window - (now - o))) as Hn.
  pose proof (ceil_div1000_bounds window) as Hw.
  exists (ceil_div1000 (window - (now - o))).
  split; [by rewrite Ho|]. split; [lia|]. split; [done|].
  intros now' req' Hkey Hlater.
  rewrite (checkRateLimit_numbers props rl limit window Hrl Hlimit Hwindow), Hkey.
  fold stored.
  set (g' := λ t : Z, bool_decide (now' - t < window)%Z).
  assert (length (List.filter g' stored) < length (List.filter g stored)).
  { apply (filter_strict_length g' g stored o).
    - intros a Ha. apply bool_decide_eq_true_1 in Ha.
      apply bool_decide_eq_true_2. lia.
    - done.
    - apply bool_decide_eq_true_2. lia.
    - apply bool_decide_eq_false_2. lia. }
  pose proof (List.filter_length_le g stored).
  rewrite bool_decide_false by lia. by eexists.
Qed.

(** The fourth call of a second on the plugin limited to three: it is told
    to come back in one second. *)
Lemma checkRateLimit_retry_honest_witness :
  ∃ n, retryAfter {| allowed := false; retryAfter := Some (Int 1) |} = Some (Int n)
       ∧ (1 ≤ n ≤ ceil_div1000 1000)%Z
       ∧ (<[@rate_key sample_host limited_props (get_request []) := [0; 10; 20]%Z]> ∅
          : gmap string (list Z))
         = <[@rate_key sample_host limited_props (get_request []) := [0; 10; 20]%Z]> ∅
       ∧ ∀ now' req',
           @rate_key sample_host limited_props req'
           = @rate_key sample_host limited_props (get_request []) →
           (30 + 1000 * n ≤ now')%Z →
           ∃ store'',
             @checkRateLimit sample_host
               (<[@rate_key sample_host limited_props (get_request []) := [0; 10; 20]%Z]> ∅)
               now' req' (VObject limited_props)
             = Ok ({| allowed := true; retryAfter := None |}, store'').
Proof.
  apply (@checkRateLimit_retry_honest sample_host limited_props limited_rateLimit
           3 1000 _ _ 30 (get_request []) _ eq_refl eq_refl eq_refl).
  - lia.
  - rewrite lookup_insert_eq. simpl. lia.
  - rewrite lookup_insert_eq. simpl. repeat constructor; lia.
  - vm_compute. reflexivity.
  - reflexivity.
Defined.

Section Clients.
Context `{Host}.

(** A call reads and writes the timestamps of its own key only. *)
Lemma checkRateLimit_local (props : list (string * value))
    (store1 store2 s1' : gmap string (list Z)) (now : Z) (req : request)
    (r : rate_result) :
  store1 !! rate_key props req = store2 !! rate_key props req →
  checkRateLimit store1 now req (VObject props) = Ok (r, s1') →
  (∃ s2', checkRateLimit store2 now req (VObject props) = Ok (r, s2')
          ∧ s1' !! rate_key props req = s2' !! rate_key props req)
  ∧ ∀ k, k ≠ rate_key props req → s1' !! k = store1 !! k.
Proof.
  intros Hkey. unfold checkRateLimit. rewrite !get_prop_object by reflexivity. simpl.
  destruct (get_prop (assoc "rateLimit" props) "limit") as [limit|]; [|done].
  simpl.
  destruct (get_prop (assoc "rateLimit" props) "window") as [window|]; [|done].
  simpl. fold (rate_key props req). rewrite <- Hkey.
  destruct (num_ge _ _); intros Hcall; injection Hcall as <- <-.
  - split; [by eexists|done].
  - split.
    + eexists. split; [reflexivity|]. by rewrite !lookup_insert_eq.
    + intros k Hk. by rewrite lookup_insert_ne.
Qed.

Lemma checkRateLimit_each_of_key (props : list (string * value)) (k : string)
    (calls : list (Z * request)) :
  ∀ (store1 store2 store' : gmap string (list Z)) (results : list rate_result),
    store1 !! k = store2 !! k →
    checkRateLimit_each store1 (VObject props) calls = Ok (results, store') →
    ∃ store_k,
      checkRateLimit_each store2 (VObject props) (calls_of props k calls)
      = Ok (results_of props k calls results, store_k)
      ∧ store_k !! k = store' !! k.
Proof.
  induction calls as [|[now req] calls IH]; intros store1 store2 store' results Hk Hrun.
  - injection Hrun as <- <-. by exists store2.
  - cbn [checkRateLimit_each] in Hrun.
    destruct (checkRateLimit store1 now req (VObject props)) as [[r s1]|] eqn:Hcall;
      [|done].
    simpl in Hrun.
    destruct (checkRateLimit_each s1 (VObject props) calls) as [[rs s']|] eqn:Hrest;
      [|done].
    simpl in Hrun. injection Hrun as <- <-.
    unfold calls_of, results_of. simpl.
    destruct (String.eqb_spec (rate_key props req) k) as [<-|Hother].
    + destruct (checkRateLimit_local props store1 store2 s1 now req r Hk Hcall)
        as [(s2 & Hcall2 & Hs2) _].
      destruct (IH s1 s2 s' rs Hs2 Hrest) as (store_k & Hrun_k & Hstore_k).
      cbn [checkRateLimit_each]. rewrite Hcall2. simpl.
      fold (calls_of props (rate_key props req) calls). rewrite Hrun_k. simpl.
      by exists store_k.
    + destruct (checkRateLimit_local props store1 store1 s1 now req r eq_refl Hcall)
        as [_ Hframe].
      apply (IH s1 store2 s' rs); [|done].
      rewrite Hframe by done. exact Hk.
Qed.

(** X8. Clients do not use up each other's allowance: when the calls of a
    plugin return, the calls of any one client key alone, in the same
    order and at the same times, are answered as they were among the
    others, and leave the same timestamps for that key. *)
Theorem checkRateLimit_clients_independent (props : list (string * value)) (k : string)
    (calls : list (Z * request)) (results : list rate_result)
    (store' : gmap string (list Z)) :
  checkRateLimit_each ∅ (VObject props) calls = Ok (results, store') →
  ∃ store_k,
    checkRateLimit_each ∅ (VObject props) (calls_of props k calls)
    = Ok (results_of props k calls results, store_k)
    ∧ store_k !! k = store' !! k.
Proof. by apply checkRateLimit_each_of_key. Qed.

End Clients.

(** Two clients of the plugin limited to three calls a second: the second
    client's call does not count against the first. *)
Lemma checkRateLimit_clients_independent_witness :
  let a := get_request [] in
  let b := {| req_authorization := None; req_query := VObject [];
              req_body := VObject []; req_ip := VStr "198.51.100.2" |} in
  let calls := [(0, a); (5, b); (10, a); (20, a); (30, a)]%Z in
  let k := @rate_key sample_host limited_props a in
  ∃ results store',
    @checkRateLimit_each sample_host ∅ (VObject limited_props) calls
    = Ok (results, store')
    ∧ ∃ store_k,
        @checkRateLimit_each sample_host ∅ (VObject limited_props)
          (@calls_of sample_host limited_props k calls)
        = Ok (@results_of sample_host limited_props k calls results, store_k)
        ∧ store_k !! k = store' !! k.
Proof.
  intros a b calls k.
  destruct (@checkRateLimit_each sample_host ∅ (VObject limited_props) calls)
    as [[results store']|] eqn:Hrun; [|by vm_compute in Hrun].
  exists results, store'. split; [reflexivity|].
  exact (@checkRateLimit_clients_independent sample_host limited_props k calls
           results store' Hrun).
Defined.

(** ** Who is authenticated *)

Lemma startsWith_append (s p : string) :
  startsWith s p = true → ∃ u, s = p +:+ u.
Proof.
  revert s. induction p as [|a p IH]; intros s Hs.
  - by exists s.
  - destruct s as [|b s]; [done|]. cbn in Hs.
    apply andb_true_iff in Hs as [Hab Hs]. apply Ascii.eqb_eq in Hab. subst b.
    destruct (IH s Hs) as [u ->]. by exists u.
Qed.

(** The first piece of [s.split(" ")] is what comes before the first
    space. *)
Lemma split_first (u : string) :
  ∃ w ws, split " " u = w :: ws ∧ no_space w = true
          ∧ (u = w ∨ ∃ r, u = w +:+ " " +:+ r).
Proof.
  induction u as [|c u (w & ws & Hsplit & Hw & Hu)].
  - exists "", []. auto.
  - simpl. destruct (Ascii.eqb_spec c " ") as [->|Hc].
    + exists "", (split " " u). split; [done|]. split; [done|]. right. by exists u.
    + rewrite Hsplit. exists (String c w), ws. split; [done|]. split.
      * simpl. rewrite Hw. by destruct (Ascii.eqb_spec c " ").
      * destruct Hu as [->|[r ->]]; [by left|right; by exists r].
Qed.

Lemma split_first_word (t rest : string) :
  no_space t = true → (rest = "" ∨ ∃ r, rest = " " +:+ r) →
  ∃ ws, split " " (t +:+ rest) = t :: ws.
Proof.
  intros Ht Hrest. induction t as [|c t IH].
  - destruct Hrest as [->|[r ->]]; by eexists.
  - simpl in Ht. apply andb_true_iff in Ht as [Hc Ht]. apply negb_true_iff in Hc.
    destruct (IH Ht) as [ws Hws]. simpl. rewrite Hc, Hws. by eexists.
Qed.

(** X9. [validateAuthentication] accepts exactly the headers ["Bearer "]
    followed by the configured secret and then nothing or a space and
    anything, and only for a secret that is set, not empty and without a
    space: with [process.env.TOKEN] unset, empty or containing a space no
    request is authenticated. *)
Theorem validateAuthentication_accepts_iff (token : option string) (req : request) :
  (validateAuthentication token req = AuthValid ↔
   ∃ t rest, token = Some t ∧ t ≠ "" ∧ no_space t = true
             ∧ req_authorization req = Some ("Bearer " +:+ t +:+ rest)
             ∧ (rest = "" ∨ ∃ r, rest = " " +:+ r))
  ∧ (token = None ∨ token = Some "" ∨ (∃ t, token = Some t ∧ no_space t = false) →
     validateAuthentication token req ≠ AuthValid).
Proof.
  assert (Hiff : validateAuthentication token req = AuthValid ↔
    ∃ t rest, token = Some t ∧ t ≠ "" ∧ no_space t = true
              ∧ req_authorization req = Some ("Bearer " +:+ t +:+ rest)
              ∧ (rest = "" ∨ ∃ r, rest = " " +:+ r)).
  { unfold validateAuthentication. split.
    - destruct (req_authorization req) as [header|]; [|done].
      destruct (String.eqb header ""); [done|].
      destruct (startsWith header "Bearer ") eqn:Hstart; [|done]. simpl.
      apply startsWith_append in Hstart as [u ->].
      change (split " " ("Bearer " +:+ u) !! 1%nat) with (split " " u !! 0%nat).
      destruct (split_first u) as (w & ws & -> & Hw & Hu). simpl.
      destruct (String.eqb_spec w "") as [|Hne]; [done|].
      case_bool_decide as Htoken; [|done]. intros _.
      destruct Hu as [->|[r ->]].
      + exists w, "". split; [done|]. split; [done|]. split; [done|].
        split; [|by left].
        assert (Hnil : w +:+ "" = w)
          by (clear; induction w as [|c w IH]; [done|];
              change (String c w +:+ "") with (String c (w +:+ "")); by rewrite IH).
        by rewrite Hnil.
      + exists w, (" " +:+ r). split; [done|]. split; [done|]. split; [done|].
        split; [done|]. right. by exists r.
    - intros (t & rest & -> & Hne & Ht & -> & Hrest).
      change (String.eqb ("Bearer " +:+ t +:+ rest) "") with false.
      change (startsWith ("Bearer " +:+ t +:+ rest) "Bearer ") with true. simpl.
      change ("" +:+ t +:+ rest) with (t +:+ rest).
      destruct (split_first_word t rest Ht Hrest) as [ws ->]. simpl.
      destruct (String.eqb_spec t "") as [|_]; [done|].
      by rewrite bool_decide_true. }
  split; [exact Hiff|].
  intros Hbad Hvalid. apply Hiff in Hvalid as (t & rest & -> & Hne & Ht & _).
  destruct Hbad as [|[|(t' & ? & Ht')]]; simplify_eq. congruence.
Qed.

(** ** Requests that do not reach the plugin *)

Section Refusals.
Context `{Host}.

Lemma validateAuthentication_status (token : option string) (req : request)
    (st : Z) (msg : string) :
  validateAuthentication token req = AuthInvalid st msg → st = 401%Z ∨ st = 403%Z.
Proof.
  unfold validateAuthentication.
  destruct (req_authorization req) as [header|]; [|intros [= <- _]; by left].
  destruct (String.eqb header ""); [intros [= <- _]; by left|].
  destruct (negb (startsWith header "Bearer ")); [intros [= <- _]; by left|].
  destruct (split " " header !! 1%nat) as [tok|]; [|intros [= <- _]; by left].
  destruct (String.eqb tok ""); [intros [= <- _]; by left|].
  case_bool_decide; [done|]. intros [= <- _]. by right.
Qed.

Lemma internal_error_refusal (store : gmap string (list Z)) (calls : list stage) :
  refusal store (internal_error store calls).
Proof.
  split; [|done]. right. exists 500%Z, BInternal. split; [done|].
  split; [set_solver|done].
Qed.

Lemma exec_stage_refusal (plugin : value) (store store0 : gmap string (list Z))
    (calls : list stage) (req : request) :
  (store ≠ store0 → SRate ∈ calls) →
  refusal store0 (exec_stage plugin store calls req).
Proof.
  intros Hstore. unfold exec_stage.
  destruct (get_prop plugin "exec") as [[]|]; simpl;
    try (split; [right; exists 500%Z, BInternal; split; [done|]; split; [set_solver|done]
                |exact Hstore]).
  split; [left; set_solver|]. simpl. intros Hne. specialize (Hstore Hne). set_solver.
Qed.

Lemma rate_stage_refusal (plugin : value) (now : Z) (store : gmap string (list Z))
    (calls : list stage) (req : request) :
  refusal store (rate_stage plugin now store calls req).
Proof.
  unfold rate_stage.
  destruct (get_prop plugin "rateLimit") as [rateLimit|]; [|apply internal_error_refusal].
  destruct (truthy rateLimit); [|by apply exec_stage_refusal].
  destruct (checkRateLimit store now req plugin) as [[r store']|];
    [|apply internal_error_refusal].
  destruct (allowed r).
  - apply exec_stage_refusal. intros _. set_solver.
  - split; simpl; [|intros _; set_solver].
    right. eexists _, _. split; [done|]. split; [set_solver|done].
Qed.

Lemma params_stage_refusal (plugin : value) (now : Z) (store : gmap string (list Z))
    (calls : list stage) (req : request) :
  refusal store (params_stage plugin now store calls req).
Proof.
  unfold params_stage.
  destruct (validateParameters plugin req) as [v|]; [|apply internal_error_refusal].
  destruct (valid v); [apply rate_stage_refusal|].
  split; simpl; [|done]. right. eexists _, _. split; [done|]. split; [set_solver|done].
Qed.

(** X10. A request to a plugin that is a value other than [null] and
    [undefined] never goes unanswered by the guards: for any request,
    either the handler calls [exec], or it sends a response whose status
    is 400, 401, 403, 429 or 500 and whose body is the handler's own. An
    exception thrown by [validateParameters] is answered 500. The
    rate-limit store is changed only by a handler that called the
    limiter. The handler of [null] or [undefined] calls nothing and sends
    nothing: its [catch] block throws at [plugin.name]. *)
Theorem withValidation_answers (plugin : value) (token : option string) (now : Z)
    (store : gmap string (list Z)) (req : request) :
  let h := withValidation plugin token now store req in
  (plugin ≠ VUndefined → plugin ≠ VNull →
   SExec ∈ calls h
   ∨ ∃ st b, sent h = Some {| status := st; rbody := b |}
             ∧ st ∈ [400; 401; 403; 429; 500]%Z ∧ b ≠ BPlugin)
  ∧ (store_after h ≠ store → SRate ∈ calls h)
  ∧ (∀ e, validateParameters plugin req = Throw e → SParams ∈ calls h →
          sent h = Some {| status := 500; rbody := BInternal |})
  ∧ (plugin = VUndefined ∨ plugin = VNull →
     sent h = None ∧ calls h = [] ∧ store_after h = store).
Proof.
  intros h. subst h. unfold withValidation.
  destruct (get_prop plugin "authentication") as [authentication|err] eqn:Hget.
  { assert (Hparams : ∀ calls e, validateParameters plugin req = Throw e →
              sent (params_stage plugin now store calls req)
              = Some {| status := 500; rbody := BInternal |}).
    { intros calls e He. unfold params_stage. by rewrite He. }
    assert (Hobject : ¬ (plugin = VUndefined ∨ plugin = VNull))
      by (intros [-> | ->]; discriminate Hget).
    destruct (truthy authentication).
    - destruct (validateAuthentication token req) as [|st msg] eqn:Hauth.
      + split; [intros _ _; apply params_stage_refusal|].
        split; [apply params_stage_refusal|].
        split; [|done]. intros e He _. by apply (Hparams _ e).
      + simpl. split; [|split; [done|split; [|done]]].
        * intros _ _. right. exists st, (BError msg). split; [done|]. split; [|done].
          destruct (validateAuthentication_status token req st msg Hauth) as [-> | ->];
            set_solver.
        * intros e _ Hin. set_solver.
    - split; [intros _ _; apply params_stage_refusal|].
      split; [apply params_stage_refusal|].
      split; [|done]. intros e He _. by apply (Hparams _ e). }
  assert (Hnullish : plugin = VUndefined ∨ plugin = VNull)
    by (destruct plugin; try discriminate Hget; auto).
  split; [by destruct Hnullish as [-> | ->]|]. split; [done|].
  split; [|done]. intros e _ Hin. simpl in Hin. by apply elem_of_nil in Hin.
Qed.

End Refusals.

(** ** Unregistering *)

Lemma filter_none {A} (f : A → bool) (l : list A) :
  length (List.filter f l) = 0 → List.filter (λ a, negb (f a)) l = l.
Proof.
  induction l as [|a l IH]; simpl; [done|].
  destruct (f a); simpl; [done|]. intros Hl. by rewrite IH.
Qed.

Lemma layer_matches_path (p key : string) (l : layer) :
  layer_matches p key l = true → ∃ r, layer_route l = Some r ∧ route_path r = p.
Proof.
  unfold layer_matches. destruct (layer_route l) as [r|]; [|done].
  intros [Hp _]%andb_true_iff. apply String.eqb_eq in Hp. by exists r.
Qed.

Section Unregistering.
Context `{Host}.

(** X11. [unregisterPlugin] on a file without Route Entry changes nothing.
    On a file with one it removes the file's Route Entry and Plugin
    Handle, every entry of the route stack for that path and method
    (whoever mounted it) and every endpoint with that path and method,
    and leaves the other files' Route Entries and Plugin Handles and the
    stack entries and endpoints of other paths as they were: a second
    file that declared the same route keeps its Route Entry but has no
    entry in the stack any more. *)
Theorem unregisterPlugin_removes_route (s : state) (file : string) :
  (routes s !! file = None → unregisterPlugin s file = s)
  ∧ ∀ e, routes s !! file = Some e →
      let s' := unregisterPlugin s file in
      routes s' !! file = None
      ∧ plugins s' !! file = None
      ∧ count_routes (routePath e) (toLowerCase (method e)) (app_stack s') = 0
      ∧ count_endpoints (routePath e) (method e) (endpoints s') = 0
      ∧ (∀ other, other ≠ file →
           routes s' !! other = routes s !! other
           ∧ plugins s' !! other = plugins s !! other)
      ∧ (∀ p key, p ≠ routePath e →
           count_routes p key (app_stack s') = count_routes p key (app_stack s))
      ∧ (∀ p m, p ≠ routePath e ∨ m ≠ method e →
           count_endpoints p m (endpoints s') = count_endpoints p m (endpoints s))
      ∧ (∀ other, other ≠ file → routes s !! other = Some e →
           routes s' !! other = Some e
           ∧ count_routes (routePath e) (toLowerCase (method e)) (app_stack s') = 0).
Proof.
  split.
  { intros Hnone. unfold unregisterPlugin. by rewrite Hnone. }
  intros e He s'.
  assert (Hother : ∀ other, other ≠ file →
            routes s' !! other = routes s !! other
            ∧ plugins s' !! other = plugins s !! other).
  { intros other Hne. by apply unregisterPlugin_other. }
  subst s'. unfold unregisterPlugin in *. rewrite He in *. simpl in *.
  split; [apply lookup_delete_eq|]. split; [apply lookup_delete_eq|].
  split; [apply count_routes_unmounted|].
  split; [apply count_endpoints_removed|].
  split; [exact Hother|]. split; [|split].
  - intros p key Hp. unfold count_routes. f_equal.
    apply filter_filter_implied. intros l Hl.
    apply layer_matches_path in Hl as (r & Hr & Hpath).
    unfold layer_matches. rewrite Hr.
    destruct (String.eqb_spec (route_path r) (routePath e)); [congruence|done].
  - intros p m Hpm. unfold count_endpoints. f_equal.
    apply filter_filter_implied. intros ep Hep.
    apply andb_true_iff in Hep as [Hp Hm].
    apply String.eqb_eq in Hp, Hm. subst p m.
    destruct (String.eqb_spec (ep_path ep) (routePath e)),
             (String.eqb_spec (ep_method ep) (method e)); simpl; try done.
    destruct Hpm; congruence.
  - intros other Hne Ho. split; [|apply count_routes_unmounted].
    by rewrite (proj1 (Hother other Hne)).
Qed.

(** X12. Loading a valid descriptor from a file and unregistering the file
    gives back the state before the load, when the file was not registered
    and the state had no stack entry and no endpoint for the descriptor's
    path and method. *)
Theorem load_then_unregister (s : state) (file : string) (props : list (string * value)) :
  valid_descriptor props →
  routes s !! file = None →
  plugins s !! file = None →
  count_routes (routePath (entry_of props)) (toLowerCase (method (entry_of props)))
    (app_stack s) = 0 →
  count_endpoints (routePath (entry_of props)) (method (entry_of props)) (endpoints s) = 0 →
  unregisterPlugin (loadPlugin s file (Exports (VObject props))).2 file = s.
Proof.
  intros Hvalid Hroute Hplugin Hstack Hendpoints.
  assert (Hs : unregisterPlugin s file = s)
    by (unfold unregisterPlugin; by rewrite Hroute).
  destruct (mounts (Exports (VObject props))) eqn:Hmounts.
  2:{ rewrite (loadPlugin_unmountable s file props Hvalid
                 (mounts_refused props Hvalid Hmounts)).
      cbn [snd]. by rewrite !Hs. }
  apply mounts_valid in Hmounts as (props' & [= <-] & _ & Hmount).
  rewrite (loadPlugin_valid s file props Hvalid Hmount).
  rewrite Hs. cbn [snd]. unfold unregisterPlugin. cbn [routes app_stack plugins endpoints].
  rewrite lookup_insert_eq.
  rewrite !delete_insert_id by done.
  unfold mounted. rewrite !List.filter_app.
  unfold count_routes in Hstack. unfold count_endpoints in Hendpoints.
  rewrite (filter_none _ _ Hstack), (filter_none _ _ Hendpoints).
  destruct s as [stack eps rts pls]. cbn [app_stack endpoints routes plugins].
  f_equal.
  - cbn. rewrite !String.eqb_refl. cbn. by rewrite app_nil_r.
  - cbn. rewrite !String.eqb_refl. cbn. by rewrite app_nil_r.
Qed.

End Unregistering.

(** The ping plugin, loaded into a fresh manager and unregistered. *)
Lemma load_then_unregister_witness :
  @unregisterPlugin sample_host
    (@loadPlugin sample_host (fresh []) "ping.js" (Exports ping_plugin)).2 "ping.js"
  = fresh [].
Proof.
  apply (@load_then_unregister sample_host (fresh []) "ping.js" ping_props).
  - split; [exists "/api/ping"; split; reflexivity|].
    split; [eexists; reflexivity|]. right. eexists. split; reflexivity.
  - reflexivity.
  - reflexivity.
  - reflexivity.
  - reflexivity.
Defined.

(** ** Filtering the endpoints *)

Lemma filter_result_ok {A} (f : A → result bool) (l l' : list A) :
  filter_result f l = Ok l' →
  l' = List.filter (λ x, match f x with Ok keep => keep | Throw _ => false end) l.
Proof.
  revert l'. induction l as [|x l IH]; intros l' Hf; simpl in *; [by simplify_eq|].
  destruct (f x) as [keep|]; simpl in Hf; [|done].
  destruct (filter_result f l) as [rest|]; simpl in Hf; [|done].
  injection Hf as <-. rewrite <- (IH rest eq_refl). by destruct keep.
Qed.

Lemma filter_result_returns {A} (f : A → result bool) (l : list A) :
  Forall (λ x, ∃ keep, f x = Ok keep) l → ∃ l', filter_result f l = Ok l'.
Proof.
  induction 1 as [|x l [keep Hx] _ [l' IH]]; simpl; [by eexists|].
  rewrite Hx, IH. simpl. by eexists.
Qed.

Lemma filter_filter_and {A} (f g : A → bool) (l : list A) :
  List.filter g (List.filter f l) = List.filter (λ x, f x && g x) l.
Proof.
  induction l as [|x l IH]; simpl; [done|].
  destruct (f x); simpl; [|done]. destruct (g x); by rewrite IH.
Qed.

Section Listing.
Context `{Host}.

(** X13. [getEndpoints()] returns all the endpoints in the order they were
    registered. With filters, what the four [filter] steps return is the
    endpoints that pass every filter that is set, in that order; they
    return when [filters.method] is a string or falsy and, if a tag is
    asked for, the [tags] of the endpoints are arrays or strings. An
    [authenticated] or [deprecated] filter that is not a boolean, like
    the string ["true"], selects nothing. *)
Theorem getEndpoints_selects (s : state) (fprops : list (string * value)) :
  getEndpoints s VUndefined = Ok (endpoints s)
  ∧ (∀ l, filter_endpoints s (VObject fprops) = Ok l →
          l = List.filter (selects fprops) (endpoints s))
  ∧ (truthy (assoc "method" fprops) = false ∨ is_string (assoc "method" fprops) = true →
     (truthy (assoc "tag" fprops) = true →
      Forall (λ e, has_includes (ep_tags e) = true) (endpoints s)) →
     ∃ l, filter_endpoints s (VObject fprops) = Ok l)
  ∧ (∀ l v, assoc "authenticated" fprops = VStr v ∨ assoc "deprecated" fprops = VStr v →
            filter_endpoints s (VObject fprops) = Ok l → l = []).
Proof.
  assert (Hsel : ∀ l, filter_endpoints s (VObject fprops) = Ok l →
                      l = List.filter (selects fprops) (endpoints s)).
  { intros l. unfold filter_endpoints. rewrite !get_prop_object by reflexivity. simpl.
    destruct (if truthy (assoc "method" fprops) then _ else _) as [l1|] eqn:H1;
      simpl; [|done].
    destruct (if truthy (assoc "tag" fprops) then _ else _) as [l3|] eqn:H3;
      simpl; [|done].
    intros [= <-].
    assert (Hl1 : l1 = List.filter
                         (λ e, if truthy (assoc "method" fprops) then
                                 match call_toUpperCase (assoc "method" fprops) with
                                 | Ok upper => String.eqb (ep_method e) upper
                                 | Throw _ => false
                                 end
                               else true) (endpoints s)).
    { destruct (truthy (assoc "method" fprops)).
      - apply filter_result_ok in H1. rewrite H1. apply List.filter_ext.
        intros e. by destruct (call_toUpperCase (assoc "method" fprops)).
      - injection H1 as <-. clear. induction (endpoints s) as [|e l IH]; simpl; [done|].
        by rewrite <- IH. }
    assert (Htrue : ∀ l : list endpoint, l = List.filter (λ _, true) l).
    { clear. induction l as [|e l IH]; simpl; [done|]. by rewrite <- IH. }
    assert (Hl3 : l3 = List.filter
                         (λ e, if truthy (assoc "tag" fprops) then
                                 match call_includes (ep_tags e) (assoc "tag" fprops) with
                                 | Ok found => found
                                 | Throw _ => false
                                 end
                               else true)
                         (if strict_eq (assoc "authenticated" fprops) VUndefined then l1
                          else List.filter
                                 (λ e, strict_eq (VBool (ep_authentication e))
                                                 (assoc "authenticated" fprops)) l1)).
    { destruct (truthy (assoc "tag" fprops)).
      - by apply filter_result_ok in H3.
      - injection H3 as <-. apply Htrue. }
    rewrite Hl3, Hl1. unfold selects.
    destruct (strict_eq (assoc "authenticated" fprops) VUndefined),
             (strict_eq (assoc "deprecated" fprops) VUndefined);
      rewrite ?filter_filter_and; apply List.filter_ext; intros e;
      rewrite ?andb_true_r, ?andb_assoc; reflexivity. }
  split; [|split; [exact Hsel|split]].
  - unfold getEndpoints, filter_endpoints. simpl. done.
  - intros Hmethod Htags. unfold filter_endpoints. rewrite !get_prop_object by reflexivity. simpl.
    assert (H1 : ∃ l1, (if truthy (assoc "method" fprops) then
                          filter_result
                            (λ e, upper ← call_toUpperCase (assoc "method" fprops);
                                  Ok (String.eqb (ep_method e) upper))
                            (endpoints s)
                        else Ok (endpoints s)) = Ok l1
                       ∧ l1 = List.filter
                                (λ e, if truthy (assoc "method" fprops) then
                                        match call_toUpperCase (assoc "method" fprops) with
                                        | Ok upper => String.eqb (ep_method e) upper
                                        | Throw _ => false
                                        end
                                      else true) (endpoints s)).
    { destruct (truthy (assoc "method" fprops)) eqn:Ht.
      - destruct Hmethod as [|Hstr]; [done|].
        destruct (assoc "method" fprops) as [| | | |m| | |]; try done.
        destruct (filter_result_returns
                    (λ e, upper ← call_toUpperCase (VStr m);
                          Ok (String.eqb (ep_method e) upper)) (endpoints s))
          as [l1 Hl1].
        { apply Forall_forall. intros e _. by eexists. }
        exists l1. split; [done|]. apply filter_result_ok in Hl1. rewrite Hl1.
        by apply List.filter_ext.
      - eexists. split; [done|].
        clear. induction (endpoints s) as [|e l IH]; simpl; [done|]. by rewrite <- IH. }
    destruct H1 as (l1 & -> & Hl1). simpl.
    destruct (truthy (assoc "tag" fprops)) eqn:Htag; [|by eexists].
    specialize (Htags eq_refl).
    match goal with
    | |- context [filter_result ?f ?l] =>
        destruct (filter_result_returns f l) as [l3 ->]; [|by eexists]
    end.
    apply Forall_forall. intros e He.
    assert (He' : e ∈ endpoints s).
    { destruct (strict_eq (assoc "authenticated" fprops) VUndefined).
      - rewrite Hl1 in He. apply list_elem_of_In, List.filter_In in He as [He _].
        by apply list_elem_of_In.
      - apply list_elem_of_In, List.filter_In in He as [He _].
        rewrite Hl1 in He. apply List.filter_In in He as [He _].
        by apply list_elem_of_In. }
    eapply Forall_forall in Htags; [|exact He'].
    unfold call_includes. destruct (ep_tags e); try done; by eexists.
  - intros l v Hv Hl. rewrite (Hsel l Hl). clear Hsel Hl.
    induction (endpoints s) as [|e es IH]; simpl; [done|].
    replace (selects fprops e) with false; [exact IH|].
    unfold selects. destruct Hv as [-> | ->]; simpl;
      rewrite ?andb_false_r; done.
Qed.

End Listing.

(** ** Where the parameters are read *)

Section ParameterSource.
Context `{Host}.

Lemma validateParameters_param_source (plugin : value) (req req' : request) :
  param_source plugin req = param_source plugin req' →
  validateParameters plugin req = validateParameters plugin req'.
Proof. intros Hsource. unfold validateParameters. by rewrite Hsource. Qed.

(** X14. The parameters of a plugin that declares the method GET, in any
    letter case, are read from the query alone: the body of the request
    has no part in their validation. Those of every other plugin are read
    from the body alone, and this includes the plugin that declares no
    method, which is mounted for GET. *)
Theorem validateParameters_source (props : list (string * value)) (req req' : request) :
  valid_descriptor props →
  (assoc "method" props ≠ VUndefined → method (entry_of props) = "GET" →
   req_query req = req_query req' →
   validateParameters (VObject props) req = validateParameters (VObject props) req')
  ∧ (assoc "method" props = VUndefined ∨ method (entry_of props) ≠ "GET" →
     req_body req = req_body req' →
     validateParameters (VObject props) req = validateParameters (VObject props) req')
  ∧ (assoc "method" props = VUndefined → method (entry_of props) = "GET").
Proof.
  intros (_ & _ & Hmethod). split; [|split].
  - intros Hdeclared Hget Hquery. apply validateParameters_param_source.
    unfold param_source. rewrite get_prop_object by reflexivity. simpl.
    destruct Hmethod as [Hm | (m & Hm & _)]; [done|].
    unfold entry_of in Hget. rewrite Hm in *. simpl in *.
    by rewrite Hget, Hquery.
  - intros Hother Hbody. apply validateParameters_param_source.
    unfold param_source. rewrite get_prop_object by reflexivity. simpl.
    destruct Hmethod as [Hm | (m & Hm & _)].
    + rewrite Hm. simpl. by rewrite Hbody.
    + destruct Hother as [Hu | Hne]; [congruence|].
      unfold entry_of in Hne. rewrite Hm in *. simpl in *.
      destruct (String.eqb_spec (toUpperCase m) "GET"); [done|]. by rewrite Hbody.
  - intros Hm. unfold entry_of. by rewrite Hm.
Qed.

End ParameterSource.

(** A descriptor without method and with the parameter [q]: two requests
    with the same body and different queries. *)
Lemma validateParameters_source_witness :
  let props := [("path", VStr "/api/search"); ("parameter", VArray [VStr "q"]);
                ("exec", VFunction 0)] in
  let req := {| req_authorization := None; req_query := VObject [("q", VStr "rocq")];
                req_body := VObject []; req_ip := VStr "203.0.113.7" |} in
  let req' := {| req_authorization := None; req_query := VObject [];
                 req_body := VObject []; req_ip := VStr "203.0.113.7" |} in
  (assoc "method" props ≠ VUndefined → method (@entry_of sample_host props) = "GET" →
   req_query req = req_query req' →
   @validateParameters sample_host (VObject props) req
   = @validateParameters sample_host (VObject props) req')
  ∧ (assoc "method" props = VUndefined ∨ method (@entry_of sample_host props) ≠ "GET" →
     req_body req = req_body req' →
     @validateParameters sample_host (VObject props) req
     = @validateParameters sample_host (VObject props) req')
  ∧ (assoc "method" props = VUndefined → method (@entry_of sample_host props) = "GET").
Proof.
  intros props req req'.
  apply (@validateParameters_source sample_host props req req').
  split; [exists "/api/search"; split; reflexivity|].
  split; [exists 0; reflexivity|]. left. reflexivity.
Defined.

(** ** Which changes are reloaded *)

Lemma settled_late (t : Z) (f : string) (changes : list (Z * string)) :
  Forall (λ c, (t + 1000 ≤ c.1)%Z) changes →
  settled ((t, f) :: changes) = f :: settled changes.
Proof.
  destruct changes as [|[t' f'] rest]; [done|].
  intros [Ht _]%Forall_cons. simpl in Ht. cbn [settled].
  by rewrite bool_decide_true.
Qed.

Lemma plugin_change_time (events : list (Z * option string)) (t : Z) :
  Forall (Z.le t) events.*1 →
  Forall (λ c : Z * string, (t ≤ c.1)%Z) (omap plugin_change events).
Proof.
  induction events as [|[t' f'] events IH]; [done|].
  rewrite fmap_cons. intros [Ht Hrest]%Forall_cons. simpl in Ht.
  cbn [omap list_omap]. unfold plugin_change at 1. cbn [fst snd].
  destruct f' as [f'|]; [|by apply IH].
  destruct (negb (String.eqb f' "") && endsWith f' ".js"); [|by apply IH].
  apply Forall_cons. split; [done|by apply IH].
Qed.

Lemma fire_up (now : Z) (w : watcher) : isShuttingDown (fire now w) = isShuttingDown w.
Proof.
  unfold fire. destruct (pluginReloadTimeout w) as [[due f]|]; [|done].
  by case_bool_decide.
Qed.

Lemma debounce_fire_up (now t : Z) (f : string) (w : watcher) :
  isShuttingDown (debouncePluginReload t f (fire now w)) = isShuttingDown w.
Proof. unfold debouncePluginReload. cbn [isShuttingDown]. apply fire_up. Qed.

(** The reloads of a watcher that is not shutting down, from any state of
    its timer. *)
Lemma run_settled (events : list (Z * option string)) :
  ∀ w, isShuttingDown w = false →
       StronglySorted Z.le events.*1 →
       eventually_reloaded (run events w)
       = reloaded w
         ++ match pluginReloadTimeout w with
            | Some (due, f) => settled ((due - 1000, f)%Z :: omap plugin_change events)
            | None => settled (omap plugin_change events)
            end.
Proof.
  induction events as [|[t' f'] events IH]; intros [pending down sofar] Hup Hsorted;
    cbn [isShuttingDown] in Hup; subst down.
  { unfold run, eventually_reloaded. simpl.
    destruct pending as [[due f]|]; [done|by rewrite app_nil_r]. }
  rewrite fmap_cons in Hsorted. apply StronglySorted_inv in Hsorted as [Hsorted Hlater].
  cbn [fst] in Hlater.
  assert (Hlate : ∀ due, (due ≤ t')%Z →
            Forall (λ c : Z * string, (due - 1000 + 1000 ≤ c.1)%Z)
                   (omap plugin_change events)).
  { intros due Hdue.
    eapply Forall_impl; [apply (plugin_change_time events t' Hlater)|].
    intros c Hc. simpl in *. lia. }
  unfold run. cbn [foldl]. fold (run events (deliver
    {| pluginReloadTimeout := pending; isShuttingDown := false; reloaded := sofar |}
    (t', f'))).
  cbn [omap list_omap reloaded pluginReloadTimeout].
  destruct (plugin_change (t', f')) as [[t'' f'']|] eqn:Hchange.
  - (* a plugin file: the timer is set anew *)
    assert (Hdeliver : ∀ w, isShuttingDown w = false →
              deliver w (t', f') = debouncePluginReload t' f'' (fire t' w)
              ∧ t'' = t').
    { intros w Hw. unfold deliver, on_change. cbn [fst snd].
      unfold plugin_change in Hchange. cbn [fst snd] in Hchange.
      destruct f' as [f'|]; [|done].
      rewrite fire_up, Hw.
      destruct (negb (String.eqb f' "") && endsWith f' ".js"); [|done].
      by injection Hchange as <- <-. }
    destruct (Hdeliver {| pluginReloadTimeout := pending; isShuttingDown := false;
                          reloaded := sofar |} eq_refl) as [-> ->].
    rewrite IH; [|by rewrite debounce_fire_up|done]. unfold debouncePluginReload, fire.
    cbn [reloaded pluginReloadTimeout isShuttingDown].
    replace (t' + 1000 - 1000)%Z with t' by lia.
    destruct pending as [[due f]|]; [|done].
    case_bool_decide as Hdue; cbn [reloaded pluginReloadTimeout].
    + rewrite <- app_assoc. f_equal. cbn [settled].
      by rewrite bool_decide_true by lia.
    + f_equal. cbn [settled]. by rewrite bool_decide_false by lia.
  - (* another notification: a timer that is due runs *)
    assert (Hdeliver : ∀ w, deliver w (t', f') = fire t' w).
    { intros w. unfold deliver, on_change. cbn [fst snd].
      unfold plugin_change in Hchange. cbn [fst snd] in Hchange.
      destruct f' as [f'|]; [|done].
      by destruct (negb (String.eqb f' "") && endsWith f' ".js"). }
    rewrite Hdeliver. unfold fire. cbn [pluginReloadTimeout].
    destruct pending as [[due f]|].
    + case_bool_decide as Hdue.
      * rewrite IH by done. cbn [reloaded pluginReloadTimeout].
        rewrite (settled_late _ _ _ (Hlate due Hdue)). by rewrite <- app_assoc.
      * by rewrite IH.
    + by rewrite IH.
Qed.

(** X15. With one timer for the directory, the reloads that follow any
    change notifications (at times that do not decrease) are those of the
    plugin-file changes that no other plugin-file change follows within
    less than 1000 ms, in their order: a change of any plugin file within
    the second cancels the pending reload, whatever file that was for,
    and notifications without a name or for other files cancel nothing. *)
Theorem debounce_settled (events : list (Z * option string)) :
  StronglySorted Z.le events.*1 →
  eventually_reloaded (run events idle) = settled (omap plugin_change events).
Proof. intros Hsorted. by rewrite (run_settled events idle eq_refl Hsorted). Qed.

(** Saves of [a.js] and [b.js] half a second apart, a change of a text
    file, and a save of [a.js] two seconds later. *)
Lemma debounce_settled_witness :
  eventually_reloaded
    (run [(0, Some "a.js"); (500, Some "b.js"); (700, Some "notes.txt");
          (900, None); (2500, Some "a.js")]%Z idle)
  = settled (omap plugin_change
               [(0, Some "a.js"); (500, Some "b.js"); (700, Some "notes.txt");
                (900, None); (2500, Some "a.js")]%Z).
Proof.
  apply debounce_settled.
  repeat (apply SSorted_cons || apply SSorted_nil
          || apply List.Forall_cons || apply List.Forall_nil); simpl; lia.
Defined.

(** ** The OpenAPI document *)

Lemma last_filter_cons {A} (f : A → bool) (x : A) (l : list A) :
  last (List.filter f (x :: l))
  = match last (List.filter f l) with
    | Some y => Some y
    | None => if f x then Some x else None
    end.
Proof.
  simpl. destruct (f x); [|by destruct (last (List.filter f l))].
  destruct (List.filter f l) as [|y l'] eqn:Hl; [done|].
  rewrite last_cons. by destruct (last (y :: l')) eqn:Hlast.
Qed.

Section OpenApi.
Context `{Host}.

Lemma document_endpoints_lookup (eps : list endpoint) :
  ∀ paths paths', document_endpoints paths eps = Ok paths' →
    ∀ p key,
      paths' !! p ≫= (λ operations : gmap string operation, operations !! key)
      = match last_endpoint p key eps with
        | Some e => documented_as e
        | None => paths !! p ≫= (λ operations : gmap string operation, operations !! key)
        end.
Proof.
  induction eps as [|e eps IH]; intros paths paths' Hdoc p key.
  { by injection Hdoc as <-. }
  cbn [document_endpoints] in Hdoc.
  destruct (document_operation e) as [op|] eqn:Hop; [|done]. simpl in Hdoc.
  rewrite (IH _ _ Hdoc p key). unfold last_endpoint. rewrite last_filter_cons.
  destruct (last (List.filter _ eps)) as [e'|]; [done|].
  destruct (String.eqb_spec (ep_path e) p) as [<-|Hp]; simpl.
  - rewrite lookup_insert_eq. simpl.
    destruct (String.eqb_spec (toLowerCase (ep_method e)) key) as [<-|Hkey].
    + rewrite lookup_insert_eq. unfold documented_as. by rewrite Hop.
    + rewrite lookup_insert_ne by done.
      by destruct (paths !! ep_path e).
  - by rewrite lookup_insert_ne.
Qed.

Lemma document_parameter_returns (e : endpoint) (items : list value) :
  Forall (λ param, param ≠ VUndefined ∧ param ≠ VNull ∧ ∀ fid, param ≠ VFunction fid)
         items →
  ∃ params, map_result (document_parameter e) items = Ok params.
Proof.
  induction 1 as [|param items (Hu & Hn & _) _ [params IH]]; [by eexists|].
  cbn [map_result]. rewrite IH.
  destruct param; try done; simpl; by eexists.
Qed.

Lemma document_operation_returns (e : endpoint) :
  documentable e → ∃ op, document_operation e = Ok op.
Proof.
  intros (_ & items & Hitems & Hparams). unfold document_operation. rewrite Hitems.
  destruct (document_parameter_returns e items Hparams) as [params ->].
  simpl. by eexists.
Qed.

Lemma document_endpoints_returns (eps : list endpoint) :
  Forall documentable eps →
  ∀ paths, ∃ paths', document_endpoints paths eps = Ok paths'.
Proof.
  induction 1 as [|e eps He _ IH]; intros paths; [by eexists|].
  cbn [document_endpoints].
  destruct (document_operation_returns e He) as [op ->]. simpl. apply IH.
Qed.

Lemma map_result_in {A B} (f : A → result B) (P : B → Prop) (l : list A) (l' : list B) :
  (∀ x y, f x = Ok y → P y) →
  map_result f l = Ok l' → Forall P l'.
Proof.
  intros Hf. revert l'. induction l as [|x l IH]; intros l' Hl; simpl in Hl.
  - injection Hl as <-. constructor.
  - destruct (f x) as [y|] eqn:Hy; [|done]. simpl in Hl.
    destruct (map_result f l) as [rest|]; [|done]. simpl in Hl.
    injection Hl as <-. constructor; [by eapply Hf|by apply IH].
Qed.

Lemma last_endpoint_in (p key : string) (eps : list endpoint) (e : endpoint) :
  last_endpoint p key eps = Some e →
  e ∈ eps ∧ ep_path e = p ∧ toLowerCase (ep_method e) = key.
Proof.
  unfold last_endpoint. intros Hlast.
  apply last_Some_elem_of, list_elem_of_In, List.filter_In in Hlast as [Hin Hm].
  apply andb_true_iff in Hm as [Hp Hk].
  apply String.eqb_eq in Hp, Hk. by apply list_elem_of_In in Hin.
Qed.

Lemma last_endpoint_some (eps : list endpoint) (e : endpoint) :
  e ∈ eps → is_Some (last_endpoint (ep_path e) (toLowerCase (ep_method e)) eps).
Proof.
  intros He. unfold last_endpoint.
  destruct (last (List.filter _ eps)) as [e'|] eqn:Hlast; [by eexists|].
  apply last_None in Hlast.
  assert (Hin : List.In e (List.filter
                             (λ e0, String.eqb (ep_path e0) (ep_path e)
                                    && String.eqb (toLowerCase (ep_method e0))
                                                  (toLowerCase (ep_method e))) eps)).
  { apply List.filter_In. split; [by apply list_elem_of_In|].
    by rewrite !String.eqb_refl. }
  by rewrite Hlast in Hin.
Qed.

(** X16. For endpoints whose path starts with a slash and whose
    [parameter] is an array of names and objects,
    [generateOpenApiSpec] returns a document that has an operation for the path and method of every endpoint and
    for nothing else; the operation of a path and method is made from the
    last endpoint that has them; [bearerAuth] is declared exactly when
    some endpoint asks for authentication, so whenever an operation
    refers to it; and the parameters of an operation are located in the
    query for the method GET and in the body otherwise. *)
Theorem generateOpenApiSpec_documents (version server : string) (eps : list endpoint) :
  Forall documentable eps →
  ∃ spec,
    generateOpenApiSpec version server eps = Ok spec
    ∧ (∀ e, e ∈ eps →
         is_Some (operation_at spec (ep_path e) (toLowerCase (ep_method e))))
    ∧ (∀ p key op, operation_at spec p key = Some op →
         ∃ e, last_endpoint p key eps = Some e
              ∧ document_operation e = Ok op
              ∧ summary op = ep_name e
              ∧ security op = ep_authentication e
              ∧ Forall (λ prm, oa_in prm
                               = if String.eqb (ep_method e) "GET" then "query"
                                 else "body")
                       (parameters op))
    ∧ (components spec = true ↔ ∃ e, e ∈ eps ∧ ep_authentication e = true)
    ∧ (∀ p key op, operation_at spec p key = Some op → security op = true →
         components spec = true).
Proof.
  intros Hdoc.
  destruct (document_endpoints_returns eps Hdoc ∅) as [documented Hpaths].
  unfold generateOpenApiSpec. rewrite Hpaths. simpl.
  eexists. split; [reflexivity|].
  assert (Hat : ∀ p key op,
            documented !! p ≫= (λ operations : gmap string operation, operations !! key)
            = Some op →
            ∃ e, last_endpoint p key eps = Some e ∧ document_operation e = Ok op).
  { intros p key op. rewrite (document_endpoints_lookup eps ∅ documented Hpaths p key).
    destruct (last_endpoint p key eps) as [e|]; [|by rewrite lookup_empty].
    unfold documented_as. destruct (document_operation e) as [op'|] eqn:Hop; [|done].
    intros [= <-]. by exists e. }
  assert (Hcomponents : existsb ep_authentication eps = true
                        ↔ ∃ e, e ∈ eps ∧ ep_authentication e = true).
  { rewrite existsb_exists. split; intros (e & He & Hauth); exists e;
      (split; [by apply list_elem_of_In|done]). }
  unfold operation_at. cbn [paths components].
  split; [|split; [|split; [exact Hcomponents|]]].
  - intros e He.
    rewrite (document_endpoints_lookup eps ∅ documented Hpaths).
    destruct (last_endpoint_some eps e He) as [e' He']. rewrite He'.
    apply last_endpoint_in in He' as (He' & _ & _).
    eapply Forall_forall in Hdoc; [|exact He'].
    destruct (document_operation_returns e' Hdoc) as [op Hop].
    unfold documented_as. rewrite Hop. by eexists.
  - intros p key op Hop. destruct (Hat p key op Hop) as (e & He & Hdoc_e).
    exists e. split; [done|]. split; [done|].
    unfold document_operation in Hdoc_e.
    destruct (ep_parameter e) as [| | | | |items| |]; try done.
    destruct (map_result (document_parameter e) items) as [params|] eqn:Hparams;
      [|done].
    simpl in Hdoc_e. injection Hdoc_e as <-. simpl.
    split; [done|]. split; [done|].
    eapply map_result_in; [|exact Hparams].
    intros param prm. unfold document_parameter.
    destruct param; simpl; intros Hprm; simplify_eq/=; try done.
    all: repeat (match type of Hprm with
                 | (?c ≫= _) = _ => destruct c; simpl in Hprm; [|done]
                 end); by simplify_eq/=.
  - intros p key op Hop Hsec. apply Hcomponents.
    destruct (Hat p key op Hop) as (e & He & Hdoc_e).
    exists e. split; [by apply last_endpoint_in in He as [? _]|].
    unfold document_operation in Hdoc_e.
    destruct (ep_parameter e); try done.
    destruct (map_result _ _); [|done]. simpl in Hdoc_e. by simplify_eq/=.
Qed.

End OpenApi.

(** The document of the two bundled plugins. *)
Lemma generateOpenApiSpec_documents_witness :
  let eps := endpoints two_plugins in
  ∃ spec,
    @generateOpenApiSpec sample_host "1.0.0" "http://localhost:3000" eps = Ok spec
    ∧ (∀ e, e ∈ eps →
         is_Some (operation_at spec (ep_path e) (@toLowerCase sample_host (ep_method e))))
    ∧ (∀ p key op, operation_at spec p key = Some op →
         ∃ e, @last_endpoint sample_host p key eps = Some e
              ∧ @document_operation sample_host e = Ok op
              ∧ summary op = ep_name e
              ∧ security op = ep_authentication e
              ∧ Forall (λ prm, oa_in prm
                               = if String.eqb (ep_method e) "GET" then "query"
                                 else "body")
                       (parameters op))
    ∧ (components spec = true ↔ ∃ e, e ∈ eps ∧ ep_authentication e = true)
    ∧ (∀ p key op, operation_at spec p key = Some op → security op = true →
         components spec = true).
Proof.
  apply (@generateOpenApiSpec_documents sample_host "1.0.0" "http://localhost:3000"
           (endpoints two_plugins)).
  apply Forall_cons. split.
  { split; [reflexivity|]. eexists. split; [reflexivity|].
    apply Forall_cons. split; [|done].
    split; [discriminate|split; [discriminate|intros fid; discriminate]]. }
  apply Forall_cons. split; [|done].
  split; [reflexivity|]. eexists. split; [reflexivity|]. done.
Defined.

Section Malformed.
Context `{Host}.

Lemma document_endpoints_app (eps1 eps2 : list endpoint) :
  ∀ paths, document_endpoints paths (eps1 ++ eps2)
           = paths' ← document_endpoints paths eps1; document_endpoints paths' eps2.
Proof.
  induction eps1 as [|e eps1 IH]; intros paths; [done|].
  cbn [app document_endpoints].
  destruct (document_operation e) as [op|]; [|done]. simpl. apply IH.
Qed.

Lemma filter_documentable (f : endpoint → bool) (eps : list endpoint) :
  Forall documentable eps → Forall documentable (List.filter f eps).
Proof.
  intros Hdoc. apply Forall_forall. intros e He.
  apply list_elem_of_In, List.filter_In in He as [He _]. apply list_elem_of_In in He.
  by eapply Forall_forall in Hdoc.
Qed.

(** X17. [validatePlugin] does not look at [parameter]: a descriptor
    that is valid but for a [parameter] that is a non-empty string, and
    whose path the router compiles, is loaded, and from then on
    [validateParameters] throws a TypeError on every request to it,
    answered 500 by the handler, and [generateOpenApiSpec] throws it for
    the endpoints of the registry, the other endpoints being in order. *)
Theorem string_parameter_is_loaded (s : state) (file q : string)
    (props : list (string * value)) (version server : string) :
  valid_descriptor props → mountable props →
  assoc "parameter" props = VStr q → q ≠ "" →
  Forall documentable (endpoints s) →
  let r := loadPlugin s file (Exports (VObject props)) in
  r.1 = Returned true
  ∧ plugins r.2 !! file = Some (VObject props)
  ∧ (∀ req, validateParameters (VObject props) req = Throw TypeError)
  ∧ (∀ req token now store,
       authenticated props token req →
       sent (withValidation (VObject props) token now store req)
       = Some {| status := 500; rbody := BInternal |})
  ∧ generateOpenApiSpec version server (endpoints r.2) = Throw TypeError.
Proof.
  intros Hvalid Hmount Hparam Hq Hdoc r. subst r.
  rewrite (loadPlugin_valid s file props Hvalid Hmount). cbn [fst snd plugins endpoints].
  assert (Htruthy : truthy (VStr q) = true).
  { simpl. by destruct (String.eqb_spec q ""). }
  assert (Hthrows : ∀ req, validateParameters (VObject props) req = Throw TypeError).
  { intros req. unfold validateParameters. rewrite get_prop_object by reflexivity. simpl.
    rewrite Hparam, Htruthy. simpl.
    assert (Hlen : js_length q ≠ 0%Z).
    { unfold js_length. destruct (is_ascii q); [|done]. destruct q; [done|]. simpl. lia. }
    rewrite (bool_decide_false _ Hlen).
    destruct Hvalid as (_ & _ & Hmethod). unfold param_source.
    rewrite get_prop_object by reflexivity. simpl.
    by destruct Hmethod as [-> | (m & -> & _)]. }
  split; [done|]. split; [by rewrite lookup_insert_eq|]. split; [exact Hthrows|].
  split.
  - intros req token now store Hauth. unfold withValidation.
    rewrite get_prop_object by reflexivity. simpl.
    assert (Hparams : ∀ calls, sent (params_stage (VObject props) now store calls req)
                               = Some {| status := 500; rbody := BInternal |}).
    { intros calls. unfold params_stage. by rewrite Hthrows. }
    destruct Hauth as [-> | Hauth]; [apply Hparams|].
    destruct (truthy (assoc "authentication" props)); [|apply Hparams].
    rewrite Hauth. apply Hparams.
  - unfold generateOpenApiSpec. rewrite document_endpoints_app.
    assert (Hs1 : Forall documentable (endpoints (unregisterPlugin s file))).
    { unfold unregisterPlugin. destruct (routes s !! file); [|done].
      by apply filter_documentable. }
    destruct (document_endpoints_returns _ Hs1 ∅) as [paths' ->]. simpl.
    unfold document_operation. cbn [endpoint_of ep_parameter].
    unfold js_or. by rewrite Hparam, Htruthy.
Qed.

End Malformed.

(** A descriptor whose [parameter] is the name itself instead of an array
    of names. *)
Lemma string_parameter_is_loaded_witness :
  let props := [("path", VStr "/api/search"); ("parameter", VStr "q");
                ("exec", VFunction 0)] in
  let r := @loadPlugin sample_host (fresh []) "search.js" (Exports (VObject props)) in
  r.1 = Returned true
  ∧ plugins r.2 !! "search.js" = Some (VObject props)
  ∧ (∀ req, @validateParameters sample_host (VObject props) req = Throw TypeError)
  ∧ (∀ req token now store,
       authenticated props token req →
       sent (@withValidation sample_host (VObject props) token now store req)
       = Some {| status := 500; rbody := BInternal |})
  ∧ @generateOpenApiSpec sample_host "1.0.0" "http://localhost:3000" (endpoints r.2)
    = Throw TypeError.
Proof.
  intros props.
  apply (@string_parameter_is_loaded sample_host (fresh []) "search.js" "q" props
           "1.0.0" "http://localhost:3000").
  - split; [exists "/api/search"; split; reflexivity|].
    split; [exists 0; reflexivity|]. left. reflexivity.
  - reflexivity.
  - reflexivity.
  - discriminate.
  - constructor.
Defined.

(** ** Reloading *)

Section Reloading.
Context `{Host}.

Lemma owners_exact_none (p m : string) (routes : gmap string route_entry) :
  (∀ f, routes !! f ≠ Some {| routePath := p; method := m |}) →
  owners_exact p m routes = 0.
Proof.
  intros Hnone. unfold owners_exact. apply map_size_empty_iff, map_empty.
  intros f. apply map_lookup_filter_None. right. intros e He Heq.
  simpl in Heq. subst e. by apply (Hnone f).
Qed.

(** X18. A reload replaces: after any load and unregister calls,
    reloading a file with a valid descriptor whose path the router
    compiles and whose path and method no other file has recorded leaves
    exactly one endpoint with that path and method, the one made from the
    new descriptor and placed last, and the file's Route Entry and Plugin
    Handle are those of the new descriptor; the endpoints remain no more
    than the Route Entries. *)
Theorem reloadPlugin_replaces (stack0 : list layer) (calls : list call) (file : string)
    (props : list (string * value)) :
  let s := foldl perform (fresh stack0) calls in
  let e := entry_of props in
  valid_descriptor props → mountable props →
  (∀ other, other ≠ file → routes s !! other ≠ Some e) →
  let r := reloadPlugin s file (Exports (VObject props)) in
  r.1 = Returned true
  ∧ routes r.2 !! file = Some e
  ∧ plugins r.2 !! file = Some (VObject props)
  ∧ last (endpoints r.2) = Some (endpoint_of props file)
  ∧ count_endpoints (routePath e) (method e) (endpoints r.2) = 1
  ∧ length (endpoints r.2) ≤ size (routes r.2).
Proof.
  intros s e Hvalid Hmount Hothers r. subst r. unfold reloadPlugin.
  pose proof (reachable_endpoints stack0 (calls ++ [Load file (Exports (VObject props))]))
    as [Hb _].
  rewrite foldl_snoc in Hb. cbn [perform] in Hb. fold s in Hb.
  pose proof (bounded_length _ _ Hb) as Hlength.
  specialize (Hb (routePath e) (method e)).
  rewrite (loadPlugin_valid s file props Hvalid Hmount) in *.
  cbn [fst snd routes plugins endpoints] in *. fold e in Hb |- *.
  split; [done|]. split; [by rewrite lookup_insert_eq|].
  split; [by rewrite lookup_insert_eq|]. split; [by rewrite last_snoc|].
  split; [|done].
  rewrite count_endpoints_app, count_endpoints_one in Hb |- *.
  change (ep_path (endpoint_of props file)) with (routePath e) in *.
  change (ep_method (endpoint_of props file)) with (method e) in *.
  rewrite owners_exact_insert in Hb
    by (rewrite unregisterPlugin_routes; apply lookup_delete_eq).
  rewrite owners_exact_none in Hb.
  - destruct e as [p m]. cbn [routePath method] in *.
    rewrite !decide_True in Hb by done. rewrite decide_True by done. lia.
  - intros f. rewrite unregisterPlugin_routes.
    destruct (decide (f = file)) as [->|Hne].
    + by rewrite lookup_delete_eq.
    + rewrite lookup_delete_ne by done. destruct e. by apply Hothers.
Qed.

End Reloading.

(** The ping plugin reloaded next to the documentation page. *)
Lemma reloadPlugin_replaces_witness :
  let s := foldl (@perform sample_host) (fresh [])
             [Load "ping.js" (Exports ping_plugin); Load "docs.js" (Exports docs_plugin)] in
  let e := @entry_of sample_host ping_props in
  let r := @reloadPlugin sample_host s "ping.js" (Exports (VObject ping_props)) in
  r.1 = Returned true
  ∧ routes r.2 !! "ping.js" = Some e
  ∧ plugins r.2 !! "ping.js" = Some (VObject ping_props)
  ∧ last (endpoints r.2) = Some (@endpoint_of sample_host ping_props "ping.js")
  ∧ count_endpoints (routePath e) (method e) (endpoints r.2) = 1
  ∧ length (endpoints r.2) ≤ size (routes r.2).
Proof.
  apply (@reloadPlugin_replaces sample_host []
           [Load "ping.js" (Exports ping_plugin); Load "docs.js" (Exports docs_plugin)]
           "ping.js" ping_props).
  - split; [exists "/api/ping"; split; reflexivity|].
    split; [eexists; reflexivity|]. right. eexists. split; reflexivity.
  - reflexivity.
  - intros other Hother.
    destruct (decide (other = "docs.js")) as [->|Hdocs].
    + vm_compute. discriminate.
    + assert (Hnone : routes (foldl (@perform sample_host) (fresh [])
                                [Load "ping.js" (Exports ping_plugin);
                                 Load "docs.js" (Exports docs_plugin)]) !! other = None).
      { change (foldl (@perform sample_host) (fresh [])
                  [Load "ping.js" (Exports ping_plugin);
                   Load "docs.js" (Exports docs_plugin)])
          with (@perform sample_host
                  (@perform sample_host (fresh []) (Load "ping.js" (Exports ping_plugin)))
                  (Load "docs.js" (Exports docs_plugin))).
        cbn [perform].
        rewrite (proj1 (loadPlugin_other _ "docs.js" other _ Hdocs)).
        rewrite (proj1 (loadPlugin_other _ "ping.js" other _ Hother)).
        reflexivity. }
      rewrite Hnone. discriminate.
Defined.


(** ** The cluster master *)

Section ClusterMaster.
Import Cluster.

Lemma boot_series (n : Z) : series n (boot n).
Proof.
  unfold series, boot, startWorker. simpl.
  case_bool_decide; simpl; repeat split; try lia.
Qed.

Lemma step_series (n : Z) (m m' : master) (ev : event) :
  series n m → step n m ev = Some m' → series n m'.
Proof.
  intros (Hone & Htimer & Hmax & Hfailed & Hrestarted & Hstarted) Hstep.
  destruct m as [cur [st fl rs] ws tm]. cbn [current stats workers timers
    started failed restarted] in *.
  assert (Hws : ws = [] ∨ ∃ w, ws = [w]).
  { destruct ws as [|w [|w' ws]]; [by left|right; by exists w|simpl in Hone; lia]. }
  destruct ev as [i|i|]; cbn [step current stats workers timers] in Hstep.
  - destruct Hws as [->|[w ->]]; [done|].
    destruct i as [|i]; [|done]. simpl in Hstep. destruct w; [done|].
    injection Hstep as <-. unfold series. simpl in *. repeat split; lia.
  - destruct Hws as [->|[w ->]]; [done|].
    destruct i as [|i]; [|done]. simpl in Hstep.
    case_bool_decide; injection Hstep as <-; unfold series; simpl in *;
      destruct w; simpl in *; repeat split; lia.
  - destruct tm as [|tm]; [done|]. injection Hstep as <-.
    destruct Hws as [->|[w ->]]; [|simpl in Hone; lia].
    unfold series, startWorker. cbn [current stats workers timers].
    specialize (Htimer ltac:(lia)).
    rewrite bool_decide_true by done.
    simpl in *. repeat split; lia.
Qed.

Lemma run_series (n : Z) (events : list event) (m : master) :
  run n events = Some m → series n m.
Proof.
  revert m. induction events as [|ev events IH] using rev_ind; intros m.
  - intros [= <-]. apply boot_series.
  - unfold run. rewrite foldl_snoc. fold (run n events).
    destruct (run n events) as [m0|]; [|done]. simpl.
    apply step_series. by apply IH.
Qed.

(** X19. The master runs its workers in series: whatever [online] and
    [exit] events and timers follow one another, at most one worker lives
    or is about to be forked; no more than [numCPUs] workers are ever
    forked, and none when [WORKERS] is negative; [failed] counts the
    forks that have exited, [restarted] the forks after the first, and
    [started] only forked workers; and once [numCPUs] workers have been
    forked and the last has exited, nothing can happen any more: the
    master is left without a worker. *)
Theorem cluster_runs_in_series (env : option Z) (cpus : nat) (events : list event)
    (m : master) :
  let n := numCPUs env cpus in
  run n events = Some m →
  n ≠ 0%Z
  ∧ length (workers m) + timers m ≤ 1
  ∧ (Z.of_nat (current m) ≤ Z.max 0 n)%Z
  ∧ failed (stats m) + length (workers m) = current m
  ∧ restarted (stats m) = current m + timers m - 1
  ∧ started (stats m) ≤ current m
  ∧ ((n ≤ Z.of_nat (current m))%Z → workers m = [] → ∀ ev, step n m ev = None).
Proof.
  intros n Hrun.
  destruct (run_series n events m Hrun)
    as (Hone & Htimer & Hmax & Hfailed & Hrestarted & Hstarted).
  split.
  { subst n. unfold numCPUs. destruct env as [w|]; [case_bool_decide; [|done]|];
      destruct cpus; lia. }
  split; [done|]. split; [done|]. split; [done|]. split; [lia|]. split; [lia|].
  intros Hall Hnone ev.
  assert (Htimers : timers m = 0).
  { destruct (timers m); [done|]. specialize (Htimer ltac:(lia)). lia. }
  destruct ev as [i|i|]; cbn [step]; rewrite ?Hnone, ?Htimers; done.
Qed.

End ClusterMaster.

(** [WORKERS=2] on eight cores: the first worker comes online and exits,
    the second is forked a second later and exits before it is online. *)
Lemma cluster_runs_in_series_witness :
  let n := Cluster.numCPUs (Some 2%Z) 8 in
  let m := {| Cluster.current := 2;
              Cluster.stats := {| Cluster.started := 1; Cluster.failed := 2;
                                  Cluster.restarted := 1 |};
              Cluster.workers := []; Cluster.timers := 0 |} in
  n ≠ 0%Z
  ∧ length (Cluster.workers m) + Cluster.timers m ≤ 1
  ∧ (Z.of_nat (Cluster.current m) ≤ Z.max 0 n)%Z
  ∧ Cluster.failed (Cluster.stats m) + length (Cluster.workers m) = Cluster.current m
  ∧ Cluster.restarted (Cluster.stats m) = Cluster.current m + Cluster.timers m - 1
  ∧ Cluster.started (Cluster.stats m) ≤ Cluster.current m
  ∧ ((n ≤ Z.of_nat (Cluster.current m))%Z → Cluster.workers m = [] →
     ∀ ev, Cluster.step n m ev = None).
Proof.
  intros n m.
  apply (cluster_runs_in_series (Some 2%Z) 8
           [Cluster.Online 0; Cluster.Exit 0; Cluster.Timer; Cluster.Exit 0] m).
  reflexivity.
Defined.
